(** * alembic-tree: the declaration parser and the graph engine

    A shallow embedding of [src/alembicTree.ts] (and of the edge filter of
    [src/graphView.ts]) together with the properties stated about them.

    Strings.  A JavaScript string is a sequence of UTF-16 code units.  The
    embedding uses [string], whose characters are the code units [0..255]
    (Latin-1); code units above U+00FF are outside the model.  Inside that
    range the character classes below are exactly the ECMAScript ones.

    Regular expressions.  The source works through [RegExp] literals.  They
    are embedded as values of [regex] and run by a backtracking matcher
    ([rmatch]) that follows the ECMAScript matching order: alternatives left
    to right, quantifiers greedy, continuation-passing backtracking. *)

From Stdlib Require Import Bool Arith NArith Lia List Sorted Permutation Ascii String.
Import ListNotations.

Local Open Scope string_scope.
Local Open Scope char_scope.

(** ** Characters *)

Definition quote_s : ascii := "'".
Definition quote_d : ascii := "034".

(** ECMAScript [LineTerminator]: LF, CR (U+2028 and U+2029 are above U+00FF). *)
Definition is_line_terminator (c : ascii) : bool :=
  (c =? "010") || (c =? "013").

(** ECMAScript [\s]: WhiteSpace and LineTerminator.  In Latin-1: TAB, LF, VT,
    FF, CR, SP and NBSP. *)
Definition is_space (c : ascii) : bool :=
  (c =? "009") || (c =? "010") || (c =? "011") || (c =? "012") ||
  (c =? "013") || (c =? " ") || (c =? "160").

(** [.] without the [s] flag: anything but a line terminator. *)
Definition is_dot (c : ascii) : bool := negb (is_line_terminator c).

(** The class of the two quote characters (apostrophe and double quote),
    written [Q] in the comments below, and its complement [^Q]. *)
Definition is_quote (c : ascii) : bool := (c =? quote_s) || (c =? quote_d).
Definition not_quote (c : ascii) : bool := negb (is_quote c).

(** [[^=]]. *)
Definition not_equals (c : ascii) : bool := negb (c =? "=").

(** [[0-9a-zA-Z_]]. *)
Definition in_range (lo hi c : ascii) : bool :=
  (nat_of_ascii lo <=? nat_of_ascii c)%nat && (nat_of_ascii c <=? nat_of_ascii hi)%nat.
Definition is_word (c : ascii) : bool :=
  in_range "0" "9" c || in_range "a" "z" c || in_range "A" "Z" c || (c =? "_").

(** [Canonicalize] under the [i] flag (non-unicode mode): the upper-case
    mapping.  On Latin-1 it identifies [a-z] with [A-Z] and the accented
    lower-case letters with their capitals; no character above U+007F is
    identified with an ASCII one. *)
Definition canonicalize (c : ascii) : ascii :=
  if in_range "a" "z" c
     || (in_range "224" "254" c && negb (c =? "247"))
  then ascii_of_nat (nat_of_ascii c - 32)
  else c.

(** ** Regular expressions *)

Record flags := mkFlags { ignoreCase : bool; multiline : bool }.

Definition no_flags : flags := mkFlags false false.
Definition flag_i : flags := mkFlags true false.
Definition flag_m : flags := mkFlags false true.

(** The fragment of the RegExp grammar the source uses.  Every quantified atom
    of the source is a character class or escape ([Star], [Plus]), except one
    optional non-capturing group ([Opt]).  No pattern has more than one
    capture group that is read. *)
Inductive regex : Type :=
| Eps                                   (* the empty pattern *)
| Chr (c : ascii)                       (* a literal character *)
| Cls (p : ascii -> bool)               (* a class or class escape, one character *)
| Bol                                   (* ^ *)
| Eol                                   (* $ *)
| Seq (r1 r2 : regex)                   (* r1 r2 *)
| Alt (r1 r2 : regex)                   (* r1 | r2 *)
| Star (p : ascii -> bool)              (* class *, greedy *)
| Plus (p : ascii -> bool)              (* class +, greedy *)
| Opt (r : regex)                       (* (?: r )?, greedy *)
| Group (r : regex).                    (* ( r ), capture group 1 *)

(** A literal word such as [revision]. *)
Fixpoint Lit (s : string) : regex :=
  match s with
  | EmptyString => Eps
  | String c EmptyString => Chr c
  | String c s' => Seq (Chr c) (Lit s')
  end.

Declare Scope regex_scope.
Delimit Scope regex_scope with re.
Infix ";;" := Seq (at level 61, right associativity) : regex_scope.
Infix "<|>" := Alt (at level 62, right associativity) : regex_scope.

(** The matcher state: the character before the current position ([None] at
    the start of the input), the remaining input, and capture 1. *)
Record mstate := mkState {
  prev : option ascii;
  rest : string;
  cap : option string
}.

Definition kont := mstate -> option mstate.

(** Greedy repetition of a one-character class: take the longest run first
    and give characters back one at a time while the continuation fails. *)
Fixpoint rep (p : ascii -> bool) (pv : option ascii) (s : string)
         (cp : option string) (k : kont) : option mstate :=
  match s with
  | String c s' =>
      if p c then
        match rep p (Some c) s' cp k with
        | Some r => Some r
        | None => k (mkState pv s cp)
        end
      else k (mkState pv s cp)
  | EmptyString => k (mkState pv s cp)
  end.

Definition chr_matches (fl : flags) (c x : ascii) : bool :=
  if ignoreCase fl then (canonicalize c =? canonicalize x) else (c =? x).

Definition at_bol (fl : flags) (st : mstate) : bool :=
  match prev st with
  | None => true
  | Some c => multiline fl && is_line_terminator c
  end.

Definition at_eol (fl : flags) (st : mstate) : bool :=
  match rest st with
  | EmptyString => true
  | String c _ => multiline fl && is_line_terminator c
  end.

(** The text consumed between two states of one match attempt. *)
Definition consumed (st st' : mstate) : nat :=
  String.length (rest st) - String.length (rest st').

Definition matched_text (st st' : mstate) : string :=
  substring 0 (consumed st st') (rest st).

Fixpoint rmatch (fl : flags) (r : regex) (st : mstate) (k : kont) : option mstate :=
  match r with
  | Eps => k st
  | Chr c =>
      match rest st with
      | String x s' =>
          if chr_matches fl c x then k (mkState (Some x) s' (cap st)) else None
      | EmptyString => None
      end
  | Cls p =>
      match rest st with
      | String x s' => if p x then k (mkState (Some x) s' (cap st)) else None
      | EmptyString => None
      end
  | Bol => if at_bol fl st then k st else None
  | Eol => if at_eol fl st then k st else None
  | Seq r1 r2 => rmatch fl r1 st (fun st1 => rmatch fl r2 st1 k)
  | Alt r1 r2 =>
      match rmatch fl r1 st k with
      | Some res => Some res
      | None => rmatch fl r2 st k
      end
  | Star p => rep p (prev st) (rest st) (cap st) k
  | Plus p =>
      match rest st with
      | String x s' => if p x then rep p (Some x) s' (cap st) k else None
      | EmptyString => None
      end
  | Opt r1 =>
      (* an iteration that consumes nothing is rejected (RepeatMatcher) *)
      match rmatch fl r1 st
              (fun st1 => if (consumed st st1 =? 0)%nat then None else k st1) with
      | Some res => Some res
      | None => k st
      end
  | Group r1 =>
      rmatch fl r1 st
        (fun st1 => k (mkState (prev st1) (rest st1) (Some (matched_text st st1))))
  end.

(** One match attempt at the current position. *)
Definition match_here (fl : flags) (re : regex) (pv : option ascii) (s : string)
  : option mstate :=
  rmatch fl re (mkState pv s None) Some.

(** What a successful [exec] reports: where the match starts, the matched
    text, and capture 1 ([m[1]]). *)
Record match_result := mkMatch {
  m_index : nat;
  m_text : string;
  m_group1 : option string
}.

(** [RegExp.prototype.exec] for a pattern without the [g] flag: the leftmost
    position at which an attempt succeeds. *)
Fixpoint search (fl : flags) (re : regex) (pv : option ascii) (s : string) (i : nat)
  : option match_result :=
  match match_here fl re pv s with
  | Some st' =>
      Some (mkMatch i (matched_text (mkState pv s None) st') (cap st'))
  | None =>
      match s with
      | String c s' => search fl re (Some c) s' (S i)
      | EmptyString => None
      end
  end.

Definition exec (fl : flags) (re : regex) (s : string) : option match_result :=
  search fl re None s 0.

(** [re.test(s)]. *)
Definition test (fl : flags) (re : regex) (s : string) : bool :=
  match exec fl re s with Some _ => true | None => false end.

(** [m[1]] of a match whose group took part in it (as it does in every
    pattern of the source that reads it). *)
Definition group1 (m : match_result) : string :=
  match m_group1 m with Some g => g | None => "" end.

(** [s.replace(re, repl)] for a pattern with the [g] flag and a plain
    replacement text.  The scan is written by structural recursion on the
    input: [skip] counts the characters still covered by the last match.  A
    match that consumes nothing inserts the replacement and lets one
    character through, as [AdvanceStringIndex] does. *)
Fixpoint replace_from (fl : flags) (re : regex) (repl : string)
         (pv : option ascii) (s : string) (skip : nat) : string :=
  match s with
  | EmptyString =>
      match match_here fl re pv s with
      | Some _ => repl
      | None => EmptyString
      end
  | String c s' =>
      match skip with
      | S n => replace_from fl re repl (Some c) s' n
      | O =>
          match match_here fl re pv s with
          | Some st' =>
              match consumed (mkState pv s None) st' with
              | O => repl ++ String c (replace_from fl re repl (Some c) s' 0)
              | S n => repl ++ replace_from fl re repl (Some c) s' n
              end
          | None => String c (replace_from fl re repl (Some c) s' 0)
          end
      end
  end.

Definition replace_all (fl : flags) (re : regex) (repl : string) (s : string) : string :=
  replace_from fl re repl None s 0.

(** [[...s.matchAll(re)].map(m => m[1])] for a pattern with the [g] flag. *)
Fixpoint match_all_from (fl : flags) (re : regex)
         (pv : option ascii) (s : string) (skip : nat) : list string :=
  match s with
  | EmptyString =>
      match match_here fl re pv s with
      | Some st' => [match cap st' with Some g => g | None => "" end]
      | None => []
      end
  | String c s' =>
      match skip with
      | S n => match_all_from fl re (Some c) s' n
      | O =>
          match match_here fl re pv s with
          | Some st' =>
              (match cap st' with Some g => g | None => "" end)
              :: match_all_from fl re (Some c) s'
                   (pred (consumed (mkState pv s None) st'))
          | None => match_all_from fl re (Some c) s' 0
          end
      end
  end%string.

Definition match_all_group1 (fl : flags) (re : regex) (s : string) : list string :=
  match_all_from fl re None s 0.

(** ** [String.prototype.trim] *)

Fixpoint trimStart (s : string) : string :=
  match s with
  | String c s' => if is_space c then trimStart s' else s
  | EmptyString => EmptyString
  end.

Fixpoint trimEnd (s : string) : string :=
  match s with
  | EmptyString => EmptyString
  | String c s' =>
      match trimEnd s' with
      | EmptyString => if is_space c then EmptyString else String c EmptyString
      | t => String c t
      end
  end.

Definition trim (s : string) : string := trimEnd (trimStart s).

(** ** The declaration parser ([alembicTree.ts], lines 20-88) *)

Local Open Scope regex_scope.

(** [/\s+#.*$/g] *)
Definition re_inline_comment : regex :=
  Plus is_space ;; Chr "#" ;; Star is_dot ;; Eol.

(** [/\s+/g] *)
Definition re_spaces : regex := Plus is_space.

(** [/^(None|null)$/i] *)
Definition re_none : regex := Bol ;; Group (Lit "None" <|> Lit "null") ;; Eol.

(** [/^[Q]([^Q]+)[Q]$/] *)
Definition re_quoted : regex :=
  Bol ;; Cls is_quote ;; Group (Plus not_quote) ;; Cls is_quote ;; Eol.

(** [/[Q]([^Q]+)[Q]/g] *)
Definition re_token : regex :=
  Cls is_quote ;; Group (Plus not_quote) ;; Cls is_quote.

(** [/^[0-9a-zA-Z_]+$/] *)
Definition re_bare : regex := Bol ;; Plus is_word ;; Eol.

(** [/^[Q]|[Q]$/g] *)
Definition re_edge_quotes : regex := (Bol ;; Cls is_quote) <|> (Cls is_quote ;; Eol).

(** [/^\s*NAME\s*(?::\s*[^=]+)?\s*=\s*(.+)\s*$/m] *)
Definition re_binding (name : string) : regex :=
  Bol ;; Star is_space ;; Lit name ;; Star is_space ;;
  Opt (Chr ":" ;; Star is_space ;; Plus not_equals) ;;
  Star is_space ;; Chr "=" ;; Star is_space ;;
  Group (Plus is_dot) ;; Star is_space ;; Eol.

Definition re_revision : regex := re_binding "revision".
Definition re_down_revision : regex := re_binding "down_revision".

Local Close Scope regex_scope.

Definition stripInlineComment (s : string) : string :=
  trim (replace_all no_flags re_inline_comment "" s).

Definition normalizeRhs (rhs : string) : string :=
  trim (replace_all no_flags re_spaces " " (stripInlineComment rhs)).

(** [raw] is [string | null]; [!raw] holds for [null] and for the empty string. *)
Definition asArrayDownRevision (raw : option string) : list string :=
  match raw with
  | None => []
  | Some EmptyString => []
  | Some r =>
      let normalized := normalizeRhs r in
      if test flag_i re_none normalized then []
      else
        match exec no_flags re_quoted normalized with
        | Some mStr => [group1 mStr]
        | None =>
            let tokens := match_all_group1 no_flags re_token normalized in
            if (0 <? List.length tokens)%nat then tokens
            else if test no_flags re_bare normalized then [normalized]
            else []
        end
  end.

Definition parseRevision (raw : string) : string :=
  let normalized := normalizeRhs raw in
  match exec no_flags re_quoted normalized with
  | Some mStr => group1 mStr
  | None => trim (replace_all no_flags re_edge_quotes "" normalized)
  end.

Record MigrationNode := mkNode {
  revision : string;
  downRevisions : list string;
  filePath : string;
  label : string
}.

Section Parser.

(** [path.basename(p, path.extname(p))] of Node's [path] module, which is
    not part of the repository: the file name without its extension. *)
Variable stem : string -> string.

Definition parseMigrationFile (content filePath : string) : option MigrationNode :=
  let revMatch := exec flag_m re_revision content in
  let downMatch := exec flag_m re_down_revision content in
  match revMatch with
  | None => None
  | Some rm =>
      let revision := parseRevision (group1 rm) in
      let downRevisions :=
        asArrayDownRevision
          (match downMatch with Some dm => Some (group1 dm) | None => None end) in
      let base := stem filePath in
      Some (mkNode revision downRevisions filePath
              (revision ++ " (" ++ base ++ ")"))
  end.

End Parser.

(** ** JavaScript [Map] and [Set] with string keys

    Both iterate in insertion order, and the order is observable (the edge
    list follows it), so a [Map] is an association list with distinct keys
    and a [Set] a duplicate-free list.  [Map.prototype.set] on a key that is
    present replaces the value in place; on a new key it appends. *)

Local Open Scope string_scope.

Definition jsmap (V : Type) : Type := list (string * V).
Definition jsset : Type := list string.

Fixpoint map_get {V} (k : string) (m : jsmap V) : option V :=
  match m with
  | [] => None
  | (k', v) :: m' => if (k' =? k)%string then Some v else map_get k m'
  end.

Definition map_has {V} (k : string) (m : jsmap V) : bool :=
  match map_get k m with Some _ => true | None => false end.

Fixpoint map_set {V} (k : string) (v : V) (m : jsmap V) : jsmap V :=
  match m with
  | [] => [(k, v)]
  | (k', v') :: m' =>
      if (k' =? k)%string then (k', v) :: m' else (k', v') :: map_set k v m'
  end.

Definition map_keys {V} (m : jsmap V) : list string := map fst m.
Definition map_values {V} (m : jsmap V) : list V := map snd m.

Fixpoint set_has (x : string) (s : jsset) : bool :=
  match s with
  | [] => false
  | y :: s' => (y =? x)%string || set_has x s'
  end.

Definition set_add (x : string) (s : jsset) : jsset :=
  if set_has x s then s else (s ++ [x])%list.

(** [new Set(arr)] and [[...new Set(arr)]]. *)
Definition set_of_list (arr : list string) : jsset :=
  fold_left (fun s x => set_add x s) arr [].

Definition uniq (arr : list string) : list string := set_of_list arr.

(** [Array.prototype.sort()] without a comparator orders strings by their
    code units.  Two strings that compare equal are the same string, so the
    sorted array does not depend on the algorithm; insertion sort stands for
    it. *)
Fixpoint sort_insert (x : string) (l : list string) : list string :=
  match l with
  | [] => [x]
  | y :: l' => if String.leb x y then x :: l else y :: sort_insert x l'
  end.

Fixpoint js_sort (l : list string) : list string :=
  match l with
  | [] => []
  | x :: l' => sort_insert x (js_sort l')
  end.

(** ** The provider ([alembicTree.ts], lines 115-270) *)

(** [vscode.TreeItemCollapsibleState]. *)
Inductive CollapsibleState := NotCollapsible | Collapsed | Expanded.

Record AlembicTreeItem := mkItem {
  nodeId : string;
  labelText : string;
  itemFilePath : string;
  collapsibleState : CollapsibleState;
  contextValue : string;
  descriptionText : option string
}.

(** The private fields of [AlembicMigrationsProvider].  The output channel
    only receives diagnostic lines and is left out. *)
Record Provider := mkProvider {
  nodesByRevision : jsmap MigrationNode;
  childrenByParent : jsmap (list string);
  itemCache : jsmap AlembicTreeItem;
  bases : list string;
  heads : list string;
  missingParents : list string
}.

Definition new_provider : Provider := mkProvider [] [] [] [] [] [].

(** Lines 166-171. *)
Definition clear_provider (p : Provider) : Provider := mkProvider [] [] [] [] [] [].

(** Lines 211-213. *)
Definition index_nodes (parsed : list MigrationNode) (m : jsmap MigrationNode)
  : jsmap MigrationNode :=
  fold_left (fun m n => map_set (revision n) n m) parsed m.

(** Lines 215-221. *)
Definition push_child (child : string) (c : jsmap (list string)) (parent : string)
  : jsmap (list string) :=
  let existing := match map_get parent c with Some l => l | None => [] end in
  map_set parent (existing ++ [child])%list c.

Definition add_children (parsed : list MigrationNode) (c : jsmap (list string))
  : jsmap (list string) :=
  fold_left (fun c n => fold_left (push_child (revision n)) (downRevisions n) c)
            parsed c.

(** Lines 223-225: every entry is set again to its de-duplicated, sorted
    list.  Setting a key that is present keeps the entry order, so iterating
    over the entries as they stand is the live iteration of the source. *)
Definition normalize_children (c : jsmap (list string)) : jsmap (list string) :=
  fold_left (fun c kv => map_set (fst kv) (js_sort (uniq (snd kv))) c) c c.

(** Lines 228-238: [referencedAsParent] and [missingSet], as a pair. *)
Definition scan_parent (nodes : jsmap MigrationNode) (acc : jsset * jsset) (p : string)
  : jsset * jsset :=
  let referencedAsParent := set_add p (fst acc) in
  if negb (map_has p nodes)
  then (referencedAsParent, set_add p (snd acc))
  else (referencedAsParent, snd acc).

Definition scan_parents (nodes : jsmap MigrationNode) : jsset * jsset :=
  fold_left (fun acc n => fold_left (scan_parent nodes) (downRevisions n) acc)
            (map_values nodes) ([], []).

(** Lines 240-243. *)
Definition compute_bases (nodes : jsmap MigrationNode) : list string :=
  js_sort
    (map revision
       (filter (fun n => (List.length (downRevisions n) =? 0)%nat) (map_values nodes))).

(** Line 245. *)
Definition compute_heads (nodes : jsmap MigrationNode) (referencedAsParent : jsset)
  : list string :=
  js_sort (filter (fun r => negb (set_has r referencedAsParent)) (map_keys nodes)).

(** Lines 166-171 and 211-247: the build proper, from the parsed nodes. *)
Definition rebuildFrom (p : Provider) (parsed : list MigrationNode) : Provider :=
  let p0 := clear_provider p in
  let nodes := index_nodes parsed (nodesByRevision p0) in
  let children := normalize_children (add_children parsed (childrenByParent p0)) in
  let '(referencedAsParent, missingSet) := scan_parents nodes in
  mkProvider nodes children (itemCache p0)
             (compute_bases nodes)
             (compute_heads nodes referencedAsParent)
             (js_sort missingSet).

(** What the scan of the workspace hands to [rebuildGraph]: no folder, a
    failing [findFiles], or the files found, each with its text unless
    reading it failed. *)
Inductive Workspace :=
| NoWorkspaceFolder
| FindFilesError
| Files (fs : list (string * option string)).

Section Rebuild.

Variable stem : string -> string.

(** Lines 196-209. *)
Fixpoint parse_files (fs : list (string * option string)) : list MigrationNode :=
  match fs with
  | [] => []
  | (fsPath, Some text) :: fs' =>
      match parseMigrationFile stem text fsPath with
      | Some node => node :: parse_files fs'
      | None => parse_files fs'
      end
  | (_, None) :: fs' => parse_files fs'
  end.

Definition rebuildGraph (p : Provider) (ws : Workspace) : Provider :=
  match ws with
  | NoWorkspaceFolder => clear_provider p
  | FindFilesError => clear_provider p
  | Files fs => rebuildFrom p (parse_files fs)
  end.

End Rebuild.

Record Edge := mkEdge { from : string; to : string }.

Record GraphDataResult := mkGraphData {
  nodes : jsmap MigrationNode;
  edges : list Edge;
  gd_bases : jsset;
  gd_heads : jsset
}.

(** Lines 255-270. *)
Definition getGraphData (p : Provider) : GraphDataResult :=
  let edges :=
    flat_map
      (fun n => map (fun parent => mkEdge parent (revision n)) (downRevisions n))
      (map_values (nodesByRevision p)) in
  mkGraphData (nodesByRevision p) edges
              (set_of_list (bases p)) (set_of_list (heads p)).

(** [graphView.ts], lines 78-81: the edges that become elements of the
    rendered graph. *)
Definition rendered_edges (graph : GraphDataResult) : list Edge :=
  filter
    (fun e => negb (negb (map_has (from e) (nodes graph))
                    || negb (map_has (to e) (nodes graph))))
    (edges graph).

(** Line 156 and the like: [childrenByParent.get(rev) ?? []]. *)
Definition children_of (p : Provider) (rev : string) : list string :=
  match map_get rev (childrenByParent p) with Some l => l | None => [] end.

(** ** Auxiliary notions used in the statements *)

(** The order of [Array.prototype.sort()] on strings. *)
Definition lex_le (a b : string) : Prop := String.leb a b = true.

(** Every node of the index sits under its own identifier. *)
Definition keyed (m : jsmap MigrationNode) : Prop :=
  forall k n, In (k, n) m -> revision n = k.

(** [m.get(k) ?? []]. *)
Definition get_list (c : jsmap (list string)) (k : string) : list string :=
  match map_get k c with Some l => l | None => [] end.

(** What lines 223-225 do to one entry. *)
Definition normalize_entry (kv : string * list string) : string * list string :=
  (fst kv, js_sort (uniq (snd kv))).

(** A node as the parser builds it for the file [id.py]. *)
Definition node (id : string) (parents : list string) : MigrationNode :=
  mkNode id parents (id ++ ".py")%string (id ++ " (" ++ id ++ ")")%string.


(** ** Strings, read without regular expressions *)

Fixpoint str_all (p : ascii -> bool) (s : string) : bool :=
  match s with
  | EmptyString => true
  | String c s' => p c && str_all p s'
  end.

(** The longest prefix whose characters satisfy [p], and what follows it. *)
Fixpoint take_while (p : ascii -> bool) (s : string) : string :=
  match s with
  | String c s' => if p c then String c (take_while p s') else EmptyString
  | EmptyString => EmptyString
  end.

Fixpoint drop_while (p : ascii -> bool) (s : string) : string :=
  match s with
  | String c s' => if p c then drop_while p s' else s
  | EmptyString => EmptyString
  end.

(** The character before the position reached after reading [t]. *)
Fixpoint last_char (pv : option ascii) (t : string) : option ascii :=
  match t with
  | EmptyString => pv
  | String c t' => last_char (Some c) t'
  end.

(** The state reached after the longest run of [p]. *)
Definition after_run (p : ascii -> bool) (pv : option ascii) (s : string)
           (cp : option string) : mstate :=
  mkState (last_char pv (take_while p s)) (drop_while p s) cp.

(** A string without line terminator, as is every right-hand side captured
    by [(.+)]. *)
Definition single_line (s : string) : bool := str_all is_dot s.

(** An inline comment starts here: white space, then [#], then no line
    terminator up to the end of the text. *)
Definition comment_at (s : string) : bool :=
  match s with
  | String c s' =>
      is_space c &&
      match drop_while is_space s' with
      | String h r => (h =? "#")%char && str_all is_dot r
      | EmptyString => false
      end
  | EmptyString => false
  end.

(** The text up to the first place where an inline comment starts. *)
Fixpoint cut_comment (s : string) : string :=
  match s with
  | EmptyString => EmptyString
  | String c s' => if comment_at s then EmptyString else String c (cut_comment s')
  end.

(** Every run of white space becomes one space. *)
Fixpoint squeeze (s : string) : string :=
  match s with
  | EmptyString => EmptyString
  | String c s' =>
      if is_space c then
        match s' with
        | String c' _ => if is_space c' then squeeze s' else String " " (squeeze s')
        | EmptyString => String " " EmptyString
        end
      else String c (squeeze s')
  end.

(** Some white-space character is directly followed by [#]. *)
Fixpoint has_space_hash (s : string) : bool :=
  match s with
  | EmptyString => false
  | String c s' =>
      (is_space c && match s' with String h _ => (h =? "#")%char | EmptyString => false end)
      || has_space_hash s'
  end.

(** The only white space is the space character, and never two in a row. *)
Fixpoint single_spaced (s : string) : bool :=
  match s with
  | EmptyString => true
  | String c s' =>
      (if is_space c
       then (c =? " ")%char
            && match s' with String c' _ => negb (is_space c') | EmptyString => true end
       else true)
      && single_spaced s'
  end.

(** No white space at either end. *)
Definition trimmed (s : string) : Prop := trim s = s.

(** The text is [None] or [null], whatever the case of its letters. *)
Fixpoint upper (s : string) : string :=
  match s with
  | EmptyString => EmptyString
  | String c s' => String (canonicalize c) (upper s')
  end.

Definition same_ignoring_case (a b : string) : bool := (upper a =? upper b)%string.

Definition is_none_text (v : string) : bool :=
  same_ignoring_case "None" v || same_ignoring_case "null" v.

(** The whole text is one quoted literal: a quote character, one or more
    characters that are not quotes, a quote character.  The result is the
    text between the quotes. *)
Definition unquote (v : string) : option string :=
  match v with
  | String q r =>
      if is_quote q then
        match take_while not_quote r, drop_while not_quote r with
        | String x inner, String _ EmptyString => Some (String x inner)
        | _, _ => None
        end
      else None
  | EmptyString => None
  end.

(** A quoted token starts here: its text and what follows its closing
    quote. *)
Definition token_at (s : string) : option (string * string) :=
  match s with
  | String q r =>
      if is_quote q then
        match take_while not_quote r, drop_while not_quote r with
        | String x inner, String _ tl => Some (String x inner, tl)
        | _, _ => None
        end
      else None
  | EmptyString => None
  end.

(** The quoted tokens of a text, left to right.  [opened] is [None] outside
    a token and [Some acc] after an opening quote, [acc] being the characters
    read since.  A quote that directly follows an opening quote closes
    nothing and opens again; an opening quote that is never closed gives no
    token. *)
Fixpoint tokens_from (opened : option string) (s : string) : list string :=
  match s with
  | EmptyString => []
  | String c s' =>
      match opened with
      | None => if is_quote c then tokens_from (Some EmptyString) s'
                else tokens_from None s'
      | Some acc =>
          if is_quote c then
            match acc with
            | EmptyString => tokens_from (Some EmptyString) s'
            | _ => acc :: tokens_from None s'
            end
          else tokens_from (Some (acc ++ String c EmptyString)) s'
      end
  end.

Definition quoted_tokens (v : string) : list string := tokens_from None v.

(** A bare token: one or more letters, digits or underscores, nothing else. *)
Definition is_bare_token (v : string) : bool :=
  match v with
  | EmptyString => false
  | String _ _ => str_all is_word v
  end.

(** A parenthesized or bracketed text. *)
Fixpoint ends_with (p : ascii -> bool) (s : string) : bool :=
  match s with
  | EmptyString => false
  | String c EmptyString => p c
  | String _ s' => ends_with p s'
  end.

Definition is_sequence_literal (v : string) : bool :=
  match v with
  | String c _ =>
      ((c =? "(")%char || (c =? "[")%char)
      && ends_with (fun c => (c =? ")")%char || (c =? "]")%char) v
  | EmptyString => false
  end.

(** The rules for the parent right-hand side, first match wins, a quoted
    literal and a quoted token being read as [unquote] and [quoted_tokens]
    read them: the quote characters of the two kinds are not told apart.
    [bracketed] tells whether the third rule asks for the enclosing
    parentheses or brackets, as the specification does ([true]), or takes
    the quoted tokens of any text ([false]). *)
Definition parent_rules (bracketed : bool) (raw : option string) : list string :=
  match raw with
  | None => []
  | Some EmptyString => []
  | Some r =>
      let v := normalizeRhs r in
      if is_none_text v then []
      else
        match unquote v with
        | Some inner => [inner]
        | None =>
            match quoted_tokens v with
            | (_ :: _) as tokens =>
                if negb bracketed || is_sequence_literal v then tokens
                else if is_bare_token v then [v] else []
            | [] => if is_bare_token v then [v] else []
            end
        end
  end.

Definition asArrayDownRevision_spec : option string -> list string := parent_rules true.
Definition asArrayDownRevision_rules : option string -> list string := parent_rules false.

(** Removing one leading and one trailing quote character. *)
Definition drop_first_quote (s : string) : string :=
  match s with
  | String c s' => if is_quote c then s' else s
  | EmptyString => EmptyString
  end.

Fixpoint drop_last_quote (s : string) : string :=
  match s with
  | EmptyString => EmptyString
  | String c EmptyString => if is_quote c then EmptyString else s
  | String c s' => String c (drop_last_quote s')
  end.


(** ** What it means for a pattern to match

    [Matches fl r st st'] : read from state [st], the pattern [r] can match
    and leave the matcher in [st'].  This is the plain reading of a pattern,
    with no order among alternatives and no greediness; the matcher [rmatch]
    finds a match whenever there is one. *)
Inductive Matches (fl : flags) : regex -> mstate -> mstate -> Prop :=
| M_Eps st : Matches fl Eps st st
| M_Chr c x pv s cp :
    chr_matches fl c x = true ->
    Matches fl (Chr c) (mkState pv (String x s) cp) (mkState (Some x) s cp)
| M_Cls p x pv s cp :
    p x = true ->
    Matches fl (Cls p) (mkState pv (String x s) cp) (mkState (Some x) s cp)
| M_Bol st : at_bol fl st = true -> Matches fl Bol st st
| M_Eol st : at_eol fl st = true -> Matches fl Eol st st
| M_Seq r1 r2 st st1 st2 :
    Matches fl r1 st st1 -> Matches fl r2 st1 st2 -> Matches fl (Seq r1 r2) st st2
| M_AltL r1 r2 st st' : Matches fl r1 st st' -> Matches fl (Alt r1 r2) st st'
| M_AltR r1 r2 st st' : Matches fl r2 st st' -> Matches fl (Alt r1 r2) st st'
| M_Star0 p st : Matches fl (Star p) st st
| M_StarS p x pv s cp st' :
    p x = true ->
    Matches fl (Star p) (mkState (Some x) s cp) st' ->
    Matches fl (Star p) (mkState pv (String x s) cp) st'
| M_Plus p x pv s cp st' :
    p x = true ->
    Matches fl (Star p) (mkState (Some x) s cp) st' ->
    Matches fl (Plus p) (mkState pv (String x s) cp) st'
| M_Opt0 r st : Matches fl (Opt r) st st
| M_Opt1 r st st' :
    Matches fl r st st' -> consumed st st' <> 0 -> Matches fl (Opt r) st st'
| M_Group r st st' :
    Matches fl r st st' ->
    Matches fl (Group r) st
            (mkState (prev st') (rest st') (Some (matched_text st st'))).

(** The pattern matches somewhere in the text: the text splits into what
    comes before the match and what starts with it. *)
Definition matches_somewhere (fl : flags) (re : regex) (text : string) : Prop :=
  exists before after st',
    text = before ++ after
    /\ Matches fl re (mkState (last_char None before) after None) st'.

(** The line feed, and a stand-in for [path.basename] in the examples. *)
Definition LF : string := String "010" EmptyString.
Definition whole_path (p : string) : string := p.

(** ** Lines of a text

    The lines of a text: what stands between two line terminators, or
    between a line terminator and an end of the text.  [cur] is the line
    being read. *)
Fixpoint lines_from (cur : string) (s : string) : list string :=
  match s with
  | EmptyString => [cur]
  | String c s' =>
      if is_line_terminator c then cur :: lines_from EmptyString s'
      else lines_from (cur ++ String c EmptyString) s'
  end.

Definition text_lines (s : string) : list string := lines_from EmptyString s.

(** Some line of the text, taken alone, matches the pattern. *)
Definition some_line_matches (re : regex) (text : string) : bool :=
  existsb (test flag_m re) (text_lines text).

(** A quoted string literal that spans the whole text, as Python reads one
    that has no escape: a quote character, a text without that character,
    and the same quote character again.  The result is the text inside. *)
Definition string_literal (v : string) : option string :=
  match v with
  | String q r =>
      if is_quote q then
        match drop_while (fun c => negb (c =? q)%char) r with
        | String _ EmptyString => Some (take_while (fun c => negb (c =? q)%char) r)
        | _ => None
        end
      else None
  | EmptyString => None
  end.

(** * The tree view and the graph view

    The rest of [AlembicMigrationsProvider] ([alembicTree.ts], lines 90-113,
    142-163 and 274-398) and the element list of [graphView.ts] (lines
    27-90).  The calls are taken one after the other, each running to its
    end before the next starts. *)

From Stdlib Require Import DecimalString.

(** ** Tree items *)

(** Lines 103-111 of the constructor: [opens] is the file that the
    [vscode.open] command of the item is given, if the item has one. *)
Definition opens (it : AlembicTreeItem) : option string :=
  match itemFilePath it with
  | EmptyString => None
  | path => Some path
  end.

(** A template literal turns a length into its decimal digits. *)
Definition decimal (n : nat) : string := NilZero.string_of_uint (Nat.to_uint n).

(** The key and node identifier of a revision, [rev:<id>]; the same text is
    [safeId] of [graphView.ts]. *)
Definition rev_key (rev : string) : string := "rev:" ++ rev.

(** [children.length > 0 ? Collapsed : None]. *)
Definition collapsible_for (children : list string) : CollapsibleState :=
  if (0 <? List.length children)%nat then Collapsed else NotCollapsible.

Definition with_cache (p : Provider) (c : jsmap AlembicTreeItem) : Provider :=
  mkProvider (nodesByRevision p) (childrenByParent p) c
             (bases p) (heads p) (missingParents p).


(** Lines 146-163.  The item and the provider after the call. *)
Definition getTreeItemForRevision (p : Provider) (rev : string)
  : AlembicTreeItem * Provider :=
  let key := rev_key rev in
  match map_get key (itemCache p) with
  | Some cached => (cached, p)
  | None =>
      let n := map_get rev (nodesByRevision p) in
      let label := match n with Some n => label n | None => rev end in
      let filePath := match n with Some n => filePath n | None => "" end in
      let children := children_of p rev in
      let item := mkItem key label filePath (collapsible_for children) "migration" None in
      (item, with_cache p (map_set key item (itemCache p)))
  end.

(** Lines 324-341. *)
Definition getMissingParentsGroupItem (p : Provider) : AlembicTreeItem * Provider :=
  let key := "missingParents" in
  match map_get key (itemCache p) with
  | Some cached => (cached, p)
  | None =>
      let item :=
        mkItem key "Missing parent revisions" "" Collapsed "group"
               (Some (decimal (List.length (missingParents p)))) in
      (item, with_cache p (map_set key item (itemCache p)))
  end.

(** [id.startsWith("rev:") ? id.slice(4) : id] (lines 287 and 365). *)
Definition rev_of_nodeId (id : string) : string :=
  if String.prefix "rev:" id then substring 4 (String.length id - 4) id else id.

(** Lines 278-294; [None] is [undefined]. *)
Definition getParent (p : Provider) (element : AlembicTreeItem)
  : option AlembicTreeItem * Provider :=
  if (nodeId element =? "missingParents")%string then (None, p)
  else if String.prefix "missing:" (nodeId element) then
    let '(g, p') := getMissingParentsGroupItem p in (Some g, p')
  else
    let rev := rev_of_nodeId (nodeId element) in
    match map_get rev (nodesByRevision p) with
    | None => (None, p)
    | Some node =>
        match downRevisions node with
        | [] => (None, p)
        | first :: _ =>
            let '(it, p') := getTreeItemForRevision p first in (Some it, p')
        end
    end.

(** Lines 344-355: the item of one base.  [nodesByRevision.get(rev)!] is
    read at once ([n.label]), so a base without a node raises a TypeError,
    here [None]. *)
Definition root_item (p : Provider) (rev : string) : option AlembicTreeItem :=
  match map_get rev (nodesByRevision p) with
  | Some n =>
      Some (mkItem (rev_key rev) (label n) (filePath n)
                   (collapsible_for (children_of p rev)) "migration" (Some "base"))
  | None => None
  end.

Fixpoint map_or_raise {A B} (f : A -> option B) (l : list A) : option (list B) :=
  match l with
  | [] => Some []
  | x :: l' =>
      match f x with
      | Some y =>
          match map_or_raise f l' with
          | Some ys => Some (y :: ys)
          | None => None
          end
      | None => None
      end
  end.

(** Lines 343-362. *)
Definition getRootChildren (p : Provider) : option (list AlembicTreeItem * Provider) :=
  match map_or_raise (root_item p) (bases p) with
  | None => None
  | Some items =>
      if (0 <? List.length (missingParents p))%nat then
        let '(g, p') := getMissingParentsGroupItem p in Some (g :: items, p')
      else Some (items, p)
  end.

(** Lines 306-316. *)
Definition missing_item (parent : string) : AlembicTreeItem :=
  mkItem ("missing:" ++ parent) parent "" NotCollapsible "missing" (Some "not found").

(** Lines 369-396: the item of one child. *)
Definition child_item (p : Provider) (cr : string) : AlembicTreeItem :=
  match map_get cr (nodesByRevision p) with
  | None =>
      mkItem (rev_key cr) cr "" NotCollapsible "migration" (Some "missing file")
  | Some n =>
      let isMerge := (1 <? List.length (downRevisions n))%nat in
      let label := if isMerge then label n ++ " [merge]" else label n in
      let desc :=
        match downRevisions n with
        | [] => "base"
        | _ => "down: " ++ String.concat ", " (downRevisions n)
        end in
      mkItem (rev_key cr) label (filePath n)
             (collapsible_for (children_of p cr)) "migration" (Some desc)
  end.

Section Tree.

Variable stem : string -> string.

(** [a.localeCompare(b)], which depends on the locale of the host: negative,
    zero or positive. *)
Variable localeCompare : string -> string -> comparison.

(** [items.sort((a, b) => a.labelText.localeCompare(b.labelText))]: the
    sort is stable, an item goes before the first one it does not follow. *)
Fixpoint insert_by_label (x : AlembicTreeItem) (l : list AlembicTreeItem)
  : list AlembicTreeItem :=
  match l with
  | [] => [x]
  | y :: l' =>
      match localeCompare (labelText x) (labelText y) with
      | Gt => y :: insert_by_label x l'
      | _ => x :: l
      end
  end.

Fixpoint sort_by_label (l : list AlembicTreeItem) : list AlembicTreeItem :=
  match l with
  | [] => []
  | x :: l' => insert_by_label x (sort_by_label l')
  end.

(** Lines 364-398. *)
Definition getRevisionChildren (p : Provider) (element : AlembicTreeItem)
  : list AlembicTreeItem :=
  let rev := rev_of_nodeId (nodeId element) in
  let childRevs := children_of p rev in
  sort_by_label (map (child_item p) childRevs).

(** Lines 296-320.  [ws] is what a scan of the workspace finds at the time
    of the call; [None] is the TypeError of [getRootChildren]. *)
Definition getChildren (ws : Workspace) (p : Provider) (element : option AlembicTreeItem)
  : option (list AlembicTreeItem * Provider) :=
  let p1 :=
    if (List.length (nodesByRevision p) =? 0)%nat then rebuildGraph stem p ws else p in
  match element with
  | None => getRootChildren p1
  | Some e =>
      if (nodeId e =? "missingParents")%string
      then Some (map missing_item (missingParents p1), p1)
      else Some (getRevisionChildren p1 e, p1)
  end.

(** The providers that calls of the public methods can lead to, from the
    one the constructor builds. *)
Inductive Reachable : Provider -> Prop :=
| R_new : Reachable new_provider
| R_rebuild p ws : Reachable p -> Reachable (rebuildGraph stem p ws)
| R_item p rev : Reachable p -> Reachable (snd (getTreeItemForRevision p rev))
| R_parent p e : Reachable p -> Reachable (snd (getParent p e))
| R_children p ws e items p' :
    Reachable p -> getChildren ws p e = Some (items, p') -> Reachable p'.

End Tree.

(** What the fields of a provider are after a build from [parsed], the
    cache apart. *)
Definition built_from (parsed : list MigrationNode) (p : Provider) : Prop :=
  nodesByRevision p = index_nodes parsed []
  /\ childrenByParent p = normalize_children (add_children parsed [])
  /\ bases p = compute_bases (nodesByRevision p)
  /\ heads p = compute_heads (nodesByRevision p) (fst (scan_parents (nodesByRevision p)))
  /\ missingParents p = js_sort (snd (scan_parents (nodesByRevision p))).

(** The item a revision gets when nothing is cached for it. *)
Definition fresh_item (p : Provider) (rev : string) : AlembicTreeItem :=
  mkItem (rev_key rev)
         (match map_get rev (nodesByRevision p) with Some n => label n | None => rev end)
         (match map_get rev (nodesByRevision p) with Some n => filePath n | None => "" end)
         (collapsible_for (children_of p rev)) "migration" None.

Definition group_item (p : Provider) : AlembicTreeItem :=
  mkItem "missingParents" "Missing parent revisions" "" Collapsed "group"
         (Some (decimal (List.length (missingParents p)))).

(** Every cached item is the one the current graph gives. *)
Definition cache_coherent (p : Provider) : Prop :=
  forall key it, map_get key (itemCache p) = Some it ->
    (key = "missingParents" /\ it = group_item p)
    \/ (exists rev, key = rev_key rev /\ it = fresh_item p rev).

(** ** The graph view ([graphView.ts]) *)

(** [s.split(re)] for a pattern without capture groups.  [cur] is the piece
    being read; a match that consumes nothing at the start of a piece is
    passed over. *)
Fixpoint split_from (fl : flags) (re : regex) (pv : option ascii) (s : string)
         (skip : nat) (cur : string) : list string :=
  match s with
  | EmptyString => [cur]
  | String c s' =>
      match skip with
      | S n => split_from fl re (Some c) s' n cur
      | O =>
          match match_here fl re pv s with
          | Some st' =>
              match consumed (mkState pv s None) st' with
              | O =>
                  match cur with
                  | EmptyString => split_from fl re (Some c) s' 0 (String c EmptyString)
                  | _ => cur :: split_from fl re (Some c) s' 0 (String c EmptyString)
                  end
              | S n => cur :: split_from fl re (Some c) s' n EmptyString
              end
          | None => split_from fl re (Some c) s' 0 (cur ++ String c EmptyString)
          end
      end
  end.

Definition split (fl : flags) (re : regex) (s : string) : list string :=
  match s with
  | EmptyString =>
      match match_here fl re None s with Some _ => [] | None => [EmptyString] end
  | _ => split_from fl re None s 0 EmptyString
  end.

(** [s.replace(re, repl)] for a pattern without the [g] flag: the leftmost
    match only. *)
Definition replace_first (fl : flags) (re : regex) (repl : string) (s : string) : string :=
  match exec fl re s with
  | Some m =>
      substring 0 (m_index m) s ++ repl
      ++ substring (m_index m + String.length (m_text m))
           (String.length s - (m_index m + String.length (m_text m))) s
  | None => s
  end.

(** [[\\/]]: the backslash and the slash. *)
Definition is_path_sep (c : ascii) : bool := (c =? "092")%char || (c =? "/")%char.

Local Open Scope regex_scope.

(** [/[\\/]/] *)
Definition re_path_sep : regex := Cls is_path_sep.

(** [/\.py$/i] *)
Definition re_py_ext : regex := Chr "." ;; Chr "p" ;; Chr "y" ;; Eol.

(** [/_/g] *)
Definition re_underscore : regex := Chr "_".

Local Close Scope regex_scope.

(** Line 27. *)
Definition safeId (rev : string) : string := "rev:" ++ rev.

(** [arr.pop()]: the last element, if any. *)
Definition pop (l : list string) : option string :=
  match rev l with
  | x :: _ => Some x
  | [] => None
  end.

(** Lines 31-35. *)
Definition prettySlug (filePath : string) : string :=
  let base :=
    match pop (split no_flags re_path_sep filePath) with
    | Some EmptyString => filePath
    | Some b => b
    | None => filePath
    end in
  let slug := replace_first flag_i re_py_ext "" base in
  replace_all no_flags re_underscore " " slug.

(** Lines 37-39. *)
Definition nodeLabel (rev filePath : string) : string :=
  rev ++ LF ++ "(" ++ prettySlug filePath ++ ")".

Record NodeData := mkNodeData {
  nd_id : string;
  nd_rev : string;
  nd_label : string;
  nd_fullLabel : string;
  nd_filePath : string;
  nd_isBase : bool;
  nd_isHead : bool;
  nd_isMerge : bool
}.

Record EdgeData := mkEdgeData {
  ed_id : string;
  ed_source : string;
  ed_target : string
}.

Inductive Element :=
| NodeElement (d : NodeData)
| EdgeElement (d : EdgeData).

(** Lines 63-76. *)
Definition node_element (graph : GraphDataResult) (entry : string * MigrationNode)
  : Element :=
  let '(rev, n) := entry in
  NodeElement
    (mkNodeData (safeId rev) rev (nodeLabel rev (filePath n)) (label n) (filePath n)
                (set_has rev (gd_bases graph)) (set_has rev (gd_heads graph))
                (1 <? List.length (downRevisions n))%nat).

(** Lines 83-89. *)
Definition edge_element (e : Edge) : Element :=
  EdgeElement
    (mkEdgeData ("edge:" ++ from e ++ "->" ++ to e) (safeId (from e)) (safeId (to e))).

(** Lines 61-90: the elements handed to the page. *)
Definition graph_elements (graph : GraphDataResult) : list Element :=
  (map (node_element graph) (nodes graph)
   ++ map edge_element (rendered_edges graph))%list.

(** The text after the last path separator, if there is a separator. *)
Fixpoint after_last_sep (s : string) : option string :=
  match s with
  | EmptyString => None
  | String c s' =>
      match after_last_sep s' with
      | Some t => Some t
      | None => if is_path_sep c then Some s' else None
      end
  end.

(** Every [_] becomes a space. *)
Fixpoint underscores_to_spaces (s : string) : string :=
  match s with
  | EmptyString => EmptyString
  | String c s' =>
      String (if (c =? "_")%char then " "%char else c) (underscores_to_spaces s')
  end.

(** A provider whose graph fields come from one build and whose cache
    agrees with them. *)
Definition provider_ok (p : Provider) : Prop :=
  (exists parsed, built_from parsed p) /\ cache_coherent p.

(** The identifiers of the node elements of an element list. *)
Definition node_ids (els : list Element) : list string :=
  flat_map (fun el => match el with NodeElement d => [nd_id d] | EdgeElement _ => [] end) els.

(** * Properties of the graph engine *)

Local Open Scope list_scope.

(** ** Maps and sets *)

Section MapFacts.

Context {V : Type}.
Implicit Types (m : jsmap V) (k : string) (v : V).

Lemma map_get_In k v m : map_get k m = Some v -> In (k, v) m.
Proof.
  induction m as [|[k' v'] m IH]; simpl; [discriminate|].
  destruct (String.eqb_spec k' k) as [->|Hne].
  - intros [= ->]. now left.
  - intros H. right. now apply IH.
Qed.

Lemma map_get_keys k m : map_get k m <> None <-> In k (map_keys m).
Proof.
  induction m as [|[k' v'] m IH]; simpl.
  - split; [congruence | tauto].
  - destruct (String.eqb_spec k' k) as [->|Hne].
    + split; [now left | congruence].
    + rewrite IH. split; [now right | intros [H|H]; [easy | exact H]].
Qed.

Lemma map_has_keys k m : map_has k m = true <-> In k (map_keys m).
Proof.
  unfold map_has. rewrite <- map_get_keys.
  destruct (map_get k m); split; congruence.
Qed.

Lemma map_has_false k m : map_has k m = false <-> ~ In k (map_keys m).
Proof.
  rewrite <- map_has_keys. destruct (map_has k m); split; congruence.
Qed.

Lemma In_map_get k v m : NoDup (map_keys m) -> In (k, v) m -> map_get k m = Some v.
Proof.
  induction m as [|[k' v'] m IH]; simpl; [tauto|].
  intros Hnd Hin. inversion Hnd as [|? ? Hk Hnd']; subst.
  destruct Hin as [[= -> ->]|Hin].
  - now rewrite String.eqb_refl.
  - destruct (String.eqb_spec k' k) as [->|Hne]; [|now apply IH].
    exfalso. apply Hk. change (In (fst (k, v)) (map fst m)). now apply in_map.
Qed.

Lemma map_get_set_same k v m : map_get k (map_set k v m) = Some v.
Proof.
  induction m as [|[k' v'] m IH]; simpl.
  - now rewrite String.eqb_refl.
  - destruct (String.eqb_spec k' k) as [->|Hne]; simpl.
    + now rewrite String.eqb_refl.
    + destruct (String.eqb_spec k' k); [contradiction | exact IH].
Qed.

Lemma map_get_set_other k k' v m :
  k <> k' -> map_get k' (map_set k v m) = map_get k' m.
Proof.
  intros Hne. induction m as [|[k0 v0] m IH]; simpl.
  - destruct (String.eqb_spec k k'); [contradiction | reflexivity].
  - destruct (String.eqb_spec k0 k) as [->|Hne0]; simpl.
    + destruct (String.eqb_spec k k'); [contradiction | reflexivity].
    + now rewrite IH.
Qed.

Lemma map_keys_set k v m :
  map_keys (map_set k v m)
  = if map_has k m then map_keys m else (map_keys m ++ [k])%list.
Proof.
  unfold map_has. induction m as [|[k' v'] m IH]; simpl; [reflexivity|].
  destruct (String.eqb_spec k' k) as [->|Hne]; simpl; [reflexivity|].
  rewrite IH. now destruct (map_get k m).
Qed.

Lemma map_keys_set_In k k' v m :
  In k' (map_keys (map_set k v m)) <-> k' = k \/ In k' (map_keys m).
Proof.
  rewrite map_keys_set. destruct (map_has k m) eqn:Hh.
  - apply map_has_keys in Hh. split; [now right | intros [->|H]; assumption].
  - rewrite in_app_iff. simpl. intuition congruence.
Qed.

Lemma map_set_NoDup k v m : NoDup (map_keys m) -> NoDup (map_keys (map_set k v m)).
Proof.
  intros Hnd. rewrite map_keys_set. destruct (map_has k m) eqn:Hh; [exact Hnd|].
  apply map_has_false in Hh.
  apply NoDup_app; [exact Hnd | repeat constructor; simpl; tauto |].
  intros x Hx [->|[]]. contradiction.
Qed.

Lemma map_set_In k v k' v' m :
  In (k', v') (map_set k v m) -> (k' = k /\ v' = v) \/ In (k', v') m.
Proof.
  induction m as [|[k0 v0] m IH]; simpl.
  - intros [[= <- <-]|[]]. now left.
  - destruct (String.eqb_spec k0 k) as [->|Hne]; simpl.
    + intros [[= <- <-]|H]; [now left | now right; right].
    + intros [H|H]; [now right; left|].
      destruct (IH H) as [?|?]; [now left | now right; right].
Qed.

Lemma map_set_app_fresh k v v0 (a l : jsmap V) :
  ~ In k (map_keys a) ->
  map_set k v (a ++ (k, v0) :: l) = (a ++ (k, v) :: l)%list.
Proof.
  induction a as [|[k' v'] a IH]; simpl; intros Hk.
  - now rewrite String.eqb_refl.
  - destruct (String.eqb_spec k' k) as [->|Hne]; [tauto|].
    rewrite IH; tauto.
Qed.

End MapFacts.

Lemma set_has_In x s : set_has x s = true <-> In x s.
Proof.
  induction s as [|y s IH]; simpl; [split; [discriminate | tauto]|].
  rewrite orb_true_iff, IH, String.eqb_eq. tauto.
Qed.

Lemma set_add_In x y s : In y (set_add x s) <-> y = x \/ In y s.
Proof.
  unfold set_add. destruct (set_has x s) eqn:Hh.
  - apply set_has_In in Hh. split; [now right | intros [->|H]; assumption].
  - rewrite in_app_iff. simpl. intuition congruence.
Qed.

Lemma set_add_NoDup x s : NoDup s -> NoDup (set_add x s).
Proof.
  intros Hnd. unfold set_add. destruct (set_has x s) eqn:Hh; [exact Hnd|].
  assert (Hx : ~ In x s) by (rewrite <- set_has_In; congruence).
  apply NoDup_app; [exact Hnd | repeat constructor; simpl; tauto |].
  intros z Hz [->|[]]. contradiction.
Qed.

Lemma set_of_list_acc_In (arr : list string) : forall s x,
  In x (fold_left (fun s x => set_add x s) arr s) <-> In x s \/ In x arr.
Proof.
  induction arr as [|a arr IH]; intros s x; simpl; [tauto|].
  rewrite IH, set_add_In. intuition congruence.
Qed.

Lemma set_of_list_acc_NoDup (arr : list string) : forall s,
  NoDup s -> NoDup (fold_left (fun s x => set_add x s) arr s).
Proof.
  induction arr as [|a arr IH]; intros s Hs; simpl; [exact Hs|].
  apply IH. now apply set_add_NoDup.
Qed.

Lemma uniq_In x arr : In x (uniq arr) <-> In x arr.
Proof. unfold uniq, set_of_list. rewrite set_of_list_acc_In. simpl. tauto. Qed.

Lemma uniq_NoDup arr : NoDup (uniq arr).
Proof. apply set_of_list_acc_NoDup. constructor. Qed.

(** ** Sorting *)

Lemma sort_insert_In x y l : In y (sort_insert x l) <-> y = x \/ In y l.
Proof.
  induction l as [|z l IH]; simpl; [intuition congruence|].
  destruct (String.leb x z); simpl; [intuition congruence|].
  rewrite IH. intuition congruence.
Qed.

Lemma js_sort_In x l : In x (js_sort l) <-> In x l.
Proof.
  induction l as [|y l IH]; simpl; [tauto|].
  rewrite sort_insert_In, IH. intuition congruence.
Qed.

Lemma sort_insert_NoDup x l : ~ In x l -> NoDup l -> NoDup (sort_insert x l).
Proof.
  induction l as [|z l IH]; simpl; intros Hx Hnd.
  - repeat constructor. simpl. tauto.
  - destruct (String.leb x z).
    + constructor; [simpl; tauto | exact Hnd].
    + inversion Hnd as [|? ? Hz Hnd']; subst. constructor.
      * rewrite sort_insert_In. intuition congruence.
      * apply IH; tauto.
Qed.

Lemma js_sort_NoDup l : NoDup l -> NoDup (js_sort l).
Proof.
  induction l as [|y l IH]; simpl; intros Hnd; [constructor|].
  inversion Hnd; subst. apply sort_insert_NoDup; [now rewrite js_sort_In | auto].
Qed.

Lemma string_compare_lt_trans : forall x z y,
  String.compare x z = Lt -> String.compare z y = Lt -> String.compare x y = Lt.
Proof.
  induction x as [|a x IHx]; intros [|b z] [|c y]; simpl; try congruence.
  destruct (Ascii.compare a b) eqn:A1; try discriminate;
    destruct (Ascii.compare b c) eqn:A2; try discriminate; intros H1 H2.
  - apply Ascii.compare_eq_iff in A1. subst.
    rewrite A2. now apply IHx with z.
  - apply Ascii.compare_eq_iff in A1. subst. now rewrite A2.
  - apply Ascii.compare_eq_iff in A2. subst. now rewrite A1.
  - unfold Ascii.compare in *.
    rewrite N.compare_lt_iff in A1, A2.
    assert (H : (N_of_ascii a < N_of_ascii c)%N) by lia.
    apply N.compare_lt_iff in H. now rewrite H.
Qed.

Lemma lex_le_trans x z y : lex_le x z -> lex_le z y -> lex_le x y.
Proof.
  unfold lex_le, String.leb.
  destruct (String.compare x z) eqn:C1; try discriminate;
    destruct (String.compare z y) eqn:C2; try discriminate; intros _ _.
  - apply String.compare_eq_iff in C1. subst. now rewrite C2.
  - apply String.compare_eq_iff in C1. subst. now rewrite C2.
  - apply String.compare_eq_iff in C2. subst. now rewrite C1.
  - now rewrite (string_compare_lt_trans _ _ _ C1 C2).
Qed.

Lemma sort_insert_sorted x l :
  StronglySorted lex_le l -> StronglySorted lex_le (sort_insert x l).
Proof.
  induction l as [|z l IH]; simpl; intros Hs.
  - repeat constructor.
  - inversion Hs as [|? ? Hs' Hall]; subst.
    destruct (String.leb x z) eqn:Hxz.
    + constructor; [exact Hs|]. constructor; [exact Hxz|].
      rewrite Forall_forall in *. intros y Hy.
      apply lex_le_trans with z; [exact Hxz | now apply Hall].
    + constructor; [now apply IH|].
      rewrite Forall_forall in *. intros y Hy.
      apply sort_insert_In in Hy. destruct Hy as [->|Hy]; [|now apply Hall].
      unfold lex_le. destruct (String.leb_total z x) as [H|H]; congruence.
Qed.

Lemma js_sort_sorted l : StronglySorted lex_le (js_sort l).
Proof.
  induction l as [|y l IH]; simpl; [constructor | now apply sort_insert_sorted].
Qed.

Lemma sort_insert_perm x l : Permutation (x :: l) (sort_insert x l).
Proof.
  induction l as [|y l IH]; simpl; [reflexivity|].
  destruct (String.leb x y); [reflexivity|].
  rewrite perm_swap. now constructor.
Qed.

Lemma js_sort_perm l : Permutation l (js_sort l).
Proof.
  induction l as [|x l IH]; simpl; [constructor|].
  rewrite <- sort_insert_perm. now constructor.
Qed.

(** The sorted arrangement of an array of strings is unique, so [js_sort]
    is the result of [sort()] whatever algorithm the engine runs. *)
Lemma sorted_arrangement_unique l : forall l',
  StronglySorted lex_le l -> StronglySorted lex_le l' -> Permutation l l' -> l = l'.
Proof.
  induction l as [|a l IH]; intros l' Hs Hs' Hp.
  - apply Permutation_nil in Hp. now subst.
  - destruct l' as [|b l'].
    + apply Permutation_sym, Permutation_nil in Hp. discriminate Hp.
    + inversion Hs as [|? ? Hs1 Ha]; inversion Hs' as [|? ? Hs1' Hb]; subst.
      rewrite Forall_forall in Ha, Hb.
      assert (Hab : a = b).
      { assert (Ia : In a (b :: l')) by (apply (Permutation_in _ Hp); now left).
        assert (Ib : In b (a :: l))
          by (apply (Permutation_in _ (Permutation_sym Hp)); now left).
        destruct Ia as [->|Ia]; [reflexivity|].
        destruct Ib as [->|Ib]; [reflexivity|].
        apply String.leb_antisym; [now apply Ha | now apply Hb]. }
      subst b. f_equal. apply IH; try assumption.
      now apply Permutation_cons_inv in Hp.
Qed.

Lemma js_sort_canonical l l' :
  Permutation l l' -> StronglySorted lex_le l' -> js_sort l = l'.
Proof.
  intros Hp Hs. apply sorted_arrangement_unique; [apply js_sort_sorted | exact Hs|].
  now rewrite <- js_sort_perm.
Qed.

(** ** The index pass (lines 211-213) *)

Lemma index_nodes_app l1 l2 m :
  index_nodes (l1 ++ l2) m = index_nodes l2 (index_nodes l1 m).
Proof. unfold index_nodes. now rewrite fold_left_app. Qed.

Lemma index_nodes_NoDup parsed : forall m,
  NoDup (map_keys m) -> NoDup (map_keys (index_nodes parsed m)).
Proof.
  induction parsed as [|n parsed IH]; intros m Hm; simpl; [exact Hm|].
  apply IH. now apply map_set_NoDup.
Qed.

Lemma index_nodes_keyed parsed : forall m, keyed m -> keyed (index_nodes parsed m).
Proof.
  induction parsed as [|n parsed IH]; intros m Hm; simpl; [exact Hm|].
  apply IH. intros k x Hin.
  destruct (map_set_In _ _ _ _ _ Hin) as [[-> ->]|Hin']; [reflexivity | now apply Hm].
Qed.

Lemma index_nodes_origin parsed : forall m k n,
  In (k, n) (index_nodes parsed m) -> In (k, n) m \/ In n parsed.
Proof.
  induction parsed as [|a parsed IH]; intros m k n Hin; simpl in *; [now left|].
  destruct (IH _ _ _ Hin) as [H|H]; [|now right; right].
  destruct (map_set_In _ _ _ _ _ H) as [[-> ->]|H']; [now right; left | now left].
Qed.

Lemma index_nodes_untouched parsed : forall m id,
  (forall x, In x parsed -> revision x <> id) ->
  map_get id (index_nodes parsed m) = map_get id m.
Proof.
  induction parsed as [|a parsed IH]; intros m id Hno; simpl; [reflexivity|].
  rewrite IH by (intros x Hx; apply Hno; now right).
  apply map_get_set_other. apply Hno. now left.
Qed.

Lemma index_nodes_keys parsed : forall m k,
  In k (map_keys (index_nodes parsed m))
  <-> In k (map_keys m) \/ In k (map revision parsed).
Proof.
  induction parsed as [|a parsed IH]; intros m k; simpl; [tauto|].
  rewrite IH, map_keys_set_In. intuition congruence.
Qed.

Lemma last_occurrence (id : string) (parsed : list MigrationNode) :
  In id (map revision parsed) ->
  exists l1 n l2,
    parsed = l1 ++ n :: l2 /\ revision n = id /\
    (forall x, In x l2 -> revision x <> id).
Proof.
  induction parsed as [|a parsed IH]; simpl; [tauto|].
  intros Hin.
  destruct (in_dec string_dec id (map revision parsed)) as [Hl|Hl].
  - destruct (IH Hl) as (l1 & n & l2 & -> & Hn & Hno).
    exists (a :: l1), n, l2. repeat split; assumption.
  - destruct Hin as [Ha|Hin]; [|contradiction].
    exists [], a, parsed. repeat split; [exact Ha|].
    intros x Hx Hrev. apply Hl. rewrite <- Hrev. now apply in_map.
Qed.

Lemma keyed_revisions m : keyed m -> map revision (map_values m) = map_keys m.
Proof.
  unfold map_values, map_keys. induction m as [|[k n] m IH]; intros Hk; simpl; [reflexivity|].
  rewrite (Hk k n) by now left. f_equal. apply IH.
  intros k' n' Hin. apply Hk. now right.
Qed.

(** ** The adjacency pass (lines 215-225) *)

Lemma push_child_get child c parent k :
  get_list (push_child child c parent) k
  = if (parent =? k)%string then get_list c parent ++ [child] else get_list c k.
Proof.
  unfold get_list, push_child.
  destruct (String.eqb_spec parent k) as [->|Hne].
  - now rewrite map_get_set_same.
  - now rewrite map_get_set_other.
Qed.

Lemma push_children_In child ps : forall c k x,
  In x (get_list (fold_left (push_child child) ps c) k)
  <-> In x (get_list c k) \/ (x = child /\ In k ps).
Proof.
  induction ps as [|p ps IH]; intros c k x; simpl; [tauto|].
  rewrite IH, push_child_get.
  destruct (String.eqb_spec p k) as [->|Hne].
  - rewrite in_app_iff. simpl. intuition congruence.
  - intuition congruence.
Qed.

Lemma push_children_NoDup child ps : forall c,
  NoDup (map_keys c) -> NoDup (map_keys (fold_left (push_child child) ps c)).
Proof.
  induction ps as [|p ps IH]; intros c Hc; simpl; [exact Hc|].
  apply IH. now apply map_set_NoDup.
Qed.

Lemma add_children_In parsed : forall c k x,
  In x (get_list (add_children parsed c) k)
  <-> In x (get_list c k)
      \/ exists n, In n parsed /\ revision n = x /\ In k (downRevisions n).
Proof.
  induction parsed as [|a parsed IH]; intros c k x; simpl.
  - split; [now left | intros [H|(n & [] & _)]; exact H].
  - unfold add_children in *. simpl. rewrite IH, push_children_In. split.
    + intros [[H|[-> Hk]]|(n & Hn & Hr & Hk)].
      * now left.
      * right. exists a. auto.
      * right. exists n. auto.
    + intros [H|(n & [->|Hn] & Hr & Hk)].
      * now left; left.
      * left; right. auto.
      * right. exists n. auto.
Qed.

Lemma add_children_NoDup parsed : forall c,
  NoDup (map_keys c) -> NoDup (map_keys (add_children parsed c)).
Proof.
  induction parsed as [|a parsed IH]; intros c Hc; simpl; [exact Hc|].
  apply IH. now apply push_children_NoDup.
Qed.

Lemma normalize_fold (l : jsmap (list string)) : forall a,
  NoDup (map_keys (a ++ l)) ->
  fold_left (fun c kv => map_set (fst kv) (js_sort (uniq (snd kv))) c) l (a ++ l)
  = a ++ map normalize_entry l.
Proof.
  induction l as [|[k v] l IH]; intros a Hnd; simpl; [reflexivity|].
  rewrite map_set_app_fresh.
  - change (a ++ (k, js_sort (uniq v)) :: l)
      with (a ++ [(k, js_sort (uniq v))] ++ l).
    rewrite app_assoc, IH.
    + now rewrite <- app_assoc.
    + unfold map_keys in *. rewrite <- app_assoc. simpl.
      rewrite map_app in *. exact Hnd.
  - unfold map_keys in Hnd. rewrite map_app in Hnd. simpl in Hnd.
    apply NoDup_remove_2 in Hnd. rewrite in_app_iff in Hnd. tauto.
Qed.

Lemma normalize_children_map c :
  NoDup (map_keys c) -> normalize_children c = map normalize_entry c.
Proof. intros Hnd. apply (normalize_fold c []). exact Hnd. Qed.

Lemma map_get_normalized k c :
  map_get k (map normalize_entry c)
  = option_map (fun v => js_sort (uniq v)) (map_get k c).
Proof.
  induction c as [|[k' v'] c IH]; simpl; [reflexivity|].
  now destruct (k' =? k)%string.
Qed.

(** ** The classification pass (lines 228-247) *)

Lemma scan_parent_fold nodes ps : forall acc x,
  (In x (fst (fold_left (scan_parent nodes) ps acc))
   <-> In x (fst acc) \/ In x ps)
  /\ (In x (snd (fold_left (scan_parent nodes) ps acc))
      <-> In x (snd acc) \/ (In x ps /\ map_has x nodes = false)).
Proof.
  induction ps as [|p ps IH]; intros acc x; simpl; [tauto|].
  destruct (IH (scan_parent nodes acc p) x) as [-> ->].
  unfold scan_parent. destruct (map_has p nodes) eqn:Hh; simpl;
    rewrite ?set_add_In; split; intuition (subst; congruence).
Qed.

Lemma scan_nodes_fold nodes ns : forall acc x,
  (In x (fst (fold_left (fun acc n => fold_left (scan_parent nodes) (downRevisions n) acc)
                        ns acc))
   <-> In x (fst acc) \/ In x (flat_map downRevisions ns))
  /\ (In x (snd (fold_left (fun acc n => fold_left (scan_parent nodes) (downRevisions n) acc)
                           ns acc))
      <-> In x (snd acc)
          \/ (In x (flat_map downRevisions ns) /\ map_has x nodes = false)).
Proof.
  induction ns as [|n ns IH]; intros acc x; simpl; [tauto|].
  destruct (IH (fold_left (scan_parent nodes) (downRevisions n) acc) x) as [-> ->].
  destruct (scan_parent_fold nodes (downRevisions n) acc x) as [-> ->].
  rewrite in_app_iff. tauto.
Qed.

Lemma referenced_In nodes x :
  In x (fst (scan_parents nodes))
  <-> exists k n, In (k, n) nodes /\ In x (downRevisions n).
Proof.
  unfold scan_parents.
  destruct (scan_nodes_fold nodes (map_values nodes) ([], []) x) as [-> _].
  simpl. rewrite in_flat_map. unfold map_values. split.
  - intros [[]|(n & Hn & Hx)]. apply in_map_iff in Hn.
    destruct Hn as ([k n'] & <- & Hin). now exists k, n'.
  - intros (k & n & Hin & Hx). right. exists n. split; [|exact Hx].
    change n with (snd (k, n)). now apply in_map.
Qed.

Lemma missing_In nodes x :
  In x (snd (scan_parents nodes))
  <-> (exists k n, In (k, n) nodes /\ In x (downRevisions n))
      /\ map_has x nodes = false.
Proof.
  rewrite <- referenced_In. unfold scan_parents.
  destruct (scan_nodes_fold nodes (map_values nodes) ([], []) x) as [-> ->].
  simpl. tauto.
Qed.

(** The fields of a rebuilt provider, unfolded. *)
Lemma rebuildFrom_fields p parsed :
  let nodes := index_nodes parsed [] in
  nodesByRevision (rebuildFrom p parsed) = nodes
  /\ childrenByParent (rebuildFrom p parsed)
     = normalize_children (add_children parsed [])
  /\ bases (rebuildFrom p parsed) = compute_bases nodes
  /\ heads (rebuildFrom p parsed) = compute_heads nodes (fst (scan_parents nodes))
  /\ missingParents (rebuildFrom p parsed) = js_sort (snd (scan_parents nodes)).
Proof.
  unfold rebuildFrom. simpl.
  destruct (scan_parents (index_nodes parsed [])) as [r ms]. simpl. tauto.
Qed.

Lemma rebuilt_nodes_NoDup p parsed :
  NoDup (map_keys (nodesByRevision (rebuildFrom p parsed))).
Proof.
  destruct (rebuildFrom_fields p parsed) as (-> & _).
  apply index_nodes_NoDup. constructor.
Qed.

Lemma rebuilt_nodes_keyed p parsed : keyed (nodesByRevision (rebuildFrom p parsed)).
Proof.
  destruct (rebuildFrom_fields p parsed) as (-> & _).
  apply index_nodes_keyed. intros k n [].
Qed.

Lemma rebuilt_children p parsed k :
  children_of (rebuildFrom p parsed) k
  = js_sort (uniq (get_list (add_children parsed []) k)).
Proof.
  unfold children_of.
  destruct (rebuildFrom_fields p parsed) as (_ & -> & _).
  rewrite normalize_children_map by (apply add_children_NoDup; constructor).
  rewrite map_get_normalized. unfold get_list.
  now destruct (map_get k (add_children parsed [])).
Qed.

(** ** The claims about the graph engine *)

Lemma edges_In p e :
  In e (edges (getGraphData p))
  <-> exists k n, In (k, n) (nodesByRevision p)
                  /\ In (from e) (downRevisions n) /\ to e = revision n.
Proof.
  unfold getGraphData. simpl. rewrite in_flat_map. unfold map_values. split.
  - intros (n & Hn & He). apply in_map_iff in Hn. destruct Hn as ([k n'] & <- & Hin).
    apply in_map_iff in He. destruct He as (par & <- & Hpar).
    exists k, n'. simpl. auto.
  - intros (k & n & Hin & Hf & Ht). exists n. split.
    + change n with (snd (k, n)). now apply in_map.
    + apply in_map_iff. exists (from e). split; [|exact Hf].
      destruct e as [f t]. simpl in *. now subst.
Qed.

Lemma edges_by_key m :
  keyed m ->
  flat_map (fun n => map (fun parent => mkEdge parent (revision n)) (downRevisions n))
           (map_values m)
  = flat_map (fun kn => map (fun parent => mkEdge parent (fst kn)) (downRevisions (snd kn)))
             m.
Proof.
  unfold map_values. induction m as [|[k n] m IH]; intros Hk; [reflexivity|].
  simpl. rewrite IH by (intros k' n' Hin; apply Hk; now right).
  rewrite (Hk k n) by now left. reflexivity.
Qed.

(** C1, as amended: the edge list returned by [getGraphData] has one edge
    [{from: parent, to: node.id}] per parent entry of every stored node,
    whether or not the parent resolves.  In full: the list is, node by node
    in the order of [nodesById] and parent by parent in the order of the
    node's [parentIds], the edge from that parent to that node, so that
    every parent entry of every stored node has its edge, resolved or not,
    and an edge is in the list exactly when it is one of these; the [to]
    end of every edge is a key of [nodesById], and the [from] end is either
    a key of [nodesById] or a member of [missingParents]; every member of
    [missingParents] is the [from] end of some returned edge, and is no
    key.  The edges with a missing end are dropped by the consumer
    ([graphView.ts]): every rendered edge has both ends among the keys of
    [nodesById], and the rendered edges are exactly the returned edges
    whose [from] end resolves. *)
Theorem edges_sound_up_to_missing (p : Provider) (parsed : list MigrationNode) (e : Edge) :
  let g := rebuildFrom p parsed in
  edges (getGraphData g)
  = flat_map (fun kn => map (fun parent => mkEdge parent (fst kn)) (downRevisions (snd kn)))
             (nodesByRevision g)
  /\ (forall k n parent,
        In (k, n) (nodesByRevision g) -> In parent (downRevisions n) ->
        In (mkEdge parent k) (edges (getGraphData g)))
  /\ (In e (edges (getGraphData g))
      <-> exists k n, In (k, n) (nodesByRevision g)
                      /\ In (from e) (downRevisions n) /\ to e = k)
  /\ (forall m, In m (missingParents g)
                <-> map_has m (nodesByRevision g) = false
                    /\ exists e', In e' (edges (getGraphData g)) /\ from e' = m)
  /\ (In e (edges (getGraphData g)) ->
        map_has (to e) (nodesByRevision g) = true
        /\ (map_has (from e) (nodesByRevision g) = true
            \/ (map_has (from e) (nodesByRevision g) = false
                /\ In (from e) (missingParents g))))
  /\ (In e (rendered_edges (getGraphData g))
      <-> In e (edges (getGraphData g))
          /\ map_has (from e) (nodesByRevision g) = true)
  /\ (In e (rendered_edges (getGraphData g)) ->
        map_has (from e) (nodesByRevision g) = true
        /\ map_has (to e) (nodesByRevision g) = true).
Proof.
  intros g.
  assert (Hkey : keyed (nodesByRevision g)) by apply rebuilt_nodes_keyed.
  assert (Hall : forall k n parent,
             In (k, n) (nodesByRevision g) -> In parent (downRevisions n) ->
             In (mkEdge parent k) (edges (getGraphData g))).
  { intros k n parent Hin Hpar. apply edges_In. exists k, n. simpl.
    split; [exact Hin|]. split; [exact Hpar|]. symmetry. now apply Hkey. }
  assert (Hiff : forall e0, In e0 (edges (getGraphData g))
                 <-> exists k n, In (k, n) (nodesByRevision g)
                                 /\ In (from e0) (downRevisions n) /\ to e0 = k).
  { intros e0. rewrite edges_In. split; intros (k & n & Hin & Hpar & Ht); exists k, n;
      (split; [exact Hin|]); (split; [exact Hpar|]);
      rewrite Ht; [|symmetry]; now apply Hkey. }
  assert (Hmiss : forall m, In m (missingParents g)
                  <-> map_has m (nodesByRevision g) = false
                      /\ exists e', In e' (edges (getGraphData g)) /\ from e' = m).
  { intros m. destruct (rebuildFrom_fields p parsed) as (Hn & _ & _ & _ & Hm).
    fold g in Hn, Hm. rewrite Hm, js_sort_In, missing_In. rewrite <- Hn. split.
    - intros [(k & n & Hin & Hpar) Hf]. split; [exact Hf|].
      exists (mkEdge m k). split; [now apply (Hall k n)|reflexivity].
    - intros [Hf (e' & He' & <-)]. split; [|exact Hf].
      apply Hiff in He'. destruct He' as (k & n & Hin & Hpar & _). now exists k, n. }
  assert (Hto : In e (edges (getGraphData g)) ->
                map_has (to e) (nodesByRevision g) = true).
  { intros He. apply Hiff in He. destruct He as (k & n & Hin & _ & ->).
    apply map_has_keys. change k with (fst (k, n)). now apply in_map. }
  assert (Hr : In e (rendered_edges (getGraphData g))
               <-> In e (edges (getGraphData g))
                   /\ map_has (from e) (nodesByRevision g) = true).
  { unfold rendered_edges. rewrite filter_In. simpl. split.
    - intros [He Hc]. split; [exact He|].
      now destruct (map_has (from e) (nodesByRevision g)).
    - intros [He Hf]. split; [exact He|].
      rewrite Hf, (Hto He). reflexivity. }
  split; [exact (edges_by_key _ Hkey)|].
  split; [exact Hall|]. split; [apply Hiff|]. split; [exact Hmiss|].
  split; [|split; [exact Hr|]].
  - intros He. split; [now apply Hto|].
    destruct (map_has (from e) (nodesByRevision g)) eqn:Hf; [now left|right].
    split; [reflexivity|]. apply Hmiss. split; [exact Hf|]. now exists e.
  - intros He. apply Hr in He. destruct He as [He Hf]. split; [exact Hf | now apply Hto].
Qed.

(** C1, as stated, fails: a node whose parent has no node of its own still
    gets its edge in the list returned by [getGraphData]. *)
Lemma edges_sound_counterexample :
  let g := rebuildFrom new_provider [node "d4" ["zzz"]] in
  ~ (forall e, In e (edges (getGraphData g)) ->
       In (from e) (map_keys (nodes (getGraphData g)))
       /\ In (to e) (map_keys (nodes (getGraphData g)))).
Proof.
  intros g H. destruct (H (mkEdge "zzz" "d4")) as [Hf _]; [now left|].
  simpl in Hf. destruct Hf as [Hf|[]]. discriminate Hf.
Qed.

Lemma edges_sound_up_to_missing_witness :
  let g := rebuildFrom new_provider [node "a1" []; node "d4" ["zzz"; "a1"]] in
  In (mkEdge "zzz" "d4") (edges (getGraphData g))
  /\ In "zzz" (missingParents g)
  /\ In (mkEdge "a1" "d4") (rendered_edges (getGraphData g))
  /\ map_has "a1" (nodesByRevision g) = true.
Proof.
  intros g.
  pose proof (edges_sound_up_to_missing new_provider
                [node "a1" []; node "d4" ["zzz"; "a1"]] (mkEdge "zzz" "d4")) as H1.
  pose proof (edges_sound_up_to_missing new_provider
                [node "a1" []; node "d4" ["zzz"; "a1"]] (mkEdge "a1" "d4")) as H2.
  cbv zeta in H1, H2. fold g in H1, H2.
  assert (N : In ("d4", node "d4" ["zzz"; "a1"]) (nodesByRevision g))
    by (vm_compute; auto).
  assert (P : In "zzz" (downRevisions (node "d4" ["zzz"; "a1"]))) by (simpl; auto).
  assert (E2 : In (mkEdge "a1" "d4") (rendered_edges (getGraphData g)))
    by (vm_compute; auto).
  destruct H1 as (_ & Hall & _ & _ & H1 & _).
  pose proof (Hall "d4" (node "d4" ["zzz"; "a1"]) "zzz" N P) as E1.
  destruct (H1 E1) as (_ & [Hk|[_ Hm]]).
  - vm_compute in Hk. discriminate Hk.
  - destruct H2 as (_ & _ & _ & _ & _ & _ & H2). destruct (H2 E2) as [Hf _]. auto.
Defined.

(** C7: head correctness: every identifier in [heads] is a key of
    [nodesById], and no node stored in [nodesById] lists it among its
    [parentIds]. *)
Theorem heads_correct (p : Provider) (parsed : list MigrationNode) (h : string) :
  In h (heads (rebuildFrom p parsed)) ->
  map_has h (nodesByRevision (rebuildFrom p parsed)) = true
  /\ forall k n, In (k, n) (nodesByRevision (rebuildFrom p parsed)) ->
                 ~ In h (downRevisions n).
Proof.
  destruct (rebuildFrom_fields p parsed) as (-> & _ & _ & -> & _).
  unfold compute_heads. rewrite js_sort_In, filter_In.
  intros [Hk Hr]. split; [now apply map_has_keys|].
  intros k n Hin Hpar.
  assert (Hs : set_has h (fst (scan_parents (index_nodes parsed []))) = true).
  { apply set_has_In, referenced_In. now exists k, n. }
  rewrite Hs in Hr. discriminate Hr.
Qed.

Lemma heads_correct_witness :
  let g := rebuildFrom new_provider [node "a1" []; node "b2" ["a1"]] in
  map_has "b2" (nodesByRevision g) = true
  /\ forall k n, In (k, n) (nodesByRevision g) -> ~ In "b2" (downRevisions n).
Proof.
  apply (heads_correct new_provider [node "a1" []; node "b2" ["a1"]] "b2").
  vm_compute. auto.
Defined.

(** C8: last write wins: when an identifier occurs in the node sequence
    (once or several times), the index pass leaves exactly one node with
    that identifier in [nodesById], and it is the occurrence that comes
    latest in the sequence.  The pass is a total function: nothing is
    raised. *)
Theorem index_last_write_wins (p : Provider) (parsed : list MigrationNode) (id : string) :
  In id (map revision parsed) ->
  let m := nodesByRevision (rebuildFrom p parsed) in
  (exists l1 n l2,
      parsed = l1 ++ n :: l2 /\ revision n = id
      /\ (forall x, In x l2 -> revision x <> id)
      /\ map_get id m = Some n)
  /\ count_occ string_dec (map revision (map_values m)) id = 1
  /\ NoDup (map_keys m).
Proof.
  intros Hin m.
  pose proof (rebuilt_nodes_NoDup p parsed) as Hnd.
  pose proof (rebuilt_nodes_keyed p parsed) as Hkd.
  fold m in Hnd, Hkd.
  destruct (last_occurrence id parsed Hin) as (l1 & n & l2 & Hp & Hn & Hno).
  assert (Hget : map_get id m = Some n).
  { unfold m. destruct (rebuildFrom_fields p parsed) as (-> & _).
    rewrite Hp, index_nodes_app. simpl.
    change (fold_left (fun m n => map_set (revision n) n m) l2
              (map_set (revision n) n (index_nodes l1 [])))
      with (index_nodes l2 (map_set (revision n) n (index_nodes l1 []))).
    rewrite index_nodes_untouched by exact Hno.
    rewrite Hn. apply map_get_set_same. }
  split; [now exists l1, n, l2|]. split; [|exact Hnd].
  rewrite keyed_revisions by exact Hkd.
  apply NoDup_count_occ'; [exact Hnd|].
  apply map_get_keys. congruence.
Qed.

Lemma index_last_write_wins_witness :
  let parsed := [node "x" ["a"]; node "a" []; node "x" []] in
  let m := nodesByRevision (rebuildFrom new_provider parsed) in
  (exists l1 n l2,
      parsed = l1 ++ n :: l2 /\ revision n = "x"%string
      /\ (forall x, In x l2 -> revision x <> "x"%string)
      /\ map_get "x" m = Some n)
  /\ count_occ string_dec (map revision (map_values m)) "x"%string = 1
  /\ NoDup (map_keys m).
Proof.
  apply (index_last_write_wins new_provider
           [node "x" ["a"]; node "a" []; node "x" []] "x").
  simpl. auto.
Defined.

(** C6: determinism: a build starts by clearing every field of the
    provider, so whatever the provider held before (a fresh one, or the
    result of an earlier build of the same or of another sequence), building
    from the same node sequence gives the same [bases], [heads],
    [missingParents] and edge list, element for element and in the same
    order; the three lists are sorted lexicographically.  In particular a
    second build over the result of the first changes nothing, and the same
    holds for [rebuildGraph] on the same scan of the workspace. *)
Theorem rebuild_deterministic (p1 p2 : Provider) (parsed : list MigrationNode) :
  let g1 := rebuildFrom p1 parsed in
  let g2 := rebuildFrom p2 parsed in
  bases g1 = bases g2
  /\ heads g1 = heads g2
  /\ missingParents g1 = missingParents g2
  /\ edges (getGraphData g1) = edges (getGraphData g2)
  /\ rebuildFrom g1 parsed = g1
  /\ (forall stem ws, rebuildGraph stem p1 ws = rebuildGraph stem p2 ws)
  /\ StronglySorted lex_le (bases g1)
  /\ StronglySorted lex_le (heads g1)
  /\ StronglySorted lex_le (missingParents g1).
Proof.
  intros g1 g2.
  destruct (rebuildFrom_fields p1 parsed) as (_ & _ & Hb & Hh & Hm).
  fold g1 in Hb, Hh, Hm.
  repeat split; try reflexivity.
  - rewrite Hb. apply js_sort_sorted.
  - rewrite Hh. apply js_sort_sorted.
  - rewrite Hm. apply js_sort_sorted.
Qed.

(** C4: with a duplicate identifier the adjacency index and the
    classification disagree.  [childrenByParent] is filled from the parents
    of every node of the sequence, the overwritten ones included, while
    [bases], [heads] and [missingParents] are functions of the surviving
    entries of [nodesByRevision] alone.  For the sequence
    [x <- a], [x] (no parent), [a] the identifier [a] is a head and yet has
    the child [x]. *)
Theorem children_from_all_classes_from_survivors :
  (forall p parsed n parent,
      In n parsed -> In parent (downRevisions n) ->
      In (revision n) (children_of (rebuildFrom p parsed) parent))
  /\ (forall p1 p2 parsed1 parsed2,
         nodesByRevision (rebuildFrom p1 parsed1)
         = nodesByRevision (rebuildFrom p2 parsed2) ->
         bases (rebuildFrom p1 parsed1) = bases (rebuildFrom p2 parsed2)
         /\ heads (rebuildFrom p1 parsed1) = heads (rebuildFrom p2 parsed2)
         /\ missingParents (rebuildFrom p1 parsed1)
            = missingParents (rebuildFrom p2 parsed2))
  /\ (let g := rebuildFrom new_provider [node "x" ["a"]; node "x" []; node "a" []] in
      In "a"%string (heads g) /\ children_of g "a" = ["x"%string]
      /\ map_get "x" (nodesByRevision g) = Some (node "x" [])).
Proof.
  split; [|split].
  - intros p parsed n parent Hn Hpar.
    rewrite rebuilt_children, js_sort_In, uniq_In, add_children_In.
    right. now exists n.
  - intros p1 p2 parsed1 parsed2 H.
    destruct (rebuildFrom_fields p1 parsed1) as (H1 & _ & -> & -> & ->).
    destruct (rebuildFrom_fields p2 parsed2) as (H2 & _ & -> & -> & ->).
    rewrite H1, H2 in H. rewrite H. auto.
  - vm_compute. auto.
Qed.

Lemma children_from_all_classes_from_survivors_witness :
  In "x"%string
     (children_of (rebuildFrom new_provider [node "x" ["a"]; node "x" []; node "a" []])
                  "a").
Proof.
  apply (proj1 children_from_all_classes_from_survivors new_provider
               [node "x" ["a"]; node "x" []; node "a" []] (node "x" ["a"]) "a"%string).
  - simpl. auto.
  - simpl. auto.
Defined.

(** C2, as amended: de-duplication is applied to the adjacency lists, not
    to the parent lists: after a build every list in [childrenByParent]
    is free of duplicates (and sorted), while every node in [nodesById] is
    one of the parsed nodes, stored as it was parsed, its [downRevisions]
    untouched; a parent written twice in a declaration stays twice in the
    node. *)
Theorem children_deduplicated_parents_as_parsed (p : Provider) (parsed : list MigrationNode) :
  let g := rebuildFrom p parsed in
  (forall parent kids, In (parent, kids) (childrenByParent g) ->
     NoDup kids /\ StronglySorted lex_le kids)
  /\ (forall k n, In (k, n) (nodesByRevision g) -> In n parsed).
Proof.
  intros g. split.
  - intros parent kids Hin. unfold g in Hin.
    destruct (rebuildFrom_fields p parsed) as (_ & Hc & _). rewrite Hc in Hin.
    rewrite normalize_children_map in Hin by (apply add_children_NoDup; constructor).
    apply in_map_iff in Hin. destruct Hin as ([k v] & [= <- <-] & _).
    split; [apply js_sort_NoDup, uniq_NoDup | apply js_sort_sorted].
  - intros k n Hin. unfold g in Hin.
    destruct (rebuildFrom_fields p parsed) as (Hn & _). rewrite Hn in Hin.
    destruct (index_nodes_origin _ _ _ _ Hin) as [[]|H]. exact H.
Qed.

Lemma children_deduplicated_parents_as_parsed_witness :
  let g := rebuildFrom new_provider [node "b" ["a"; "a"]; node "a" []] in
  (NoDup ["b"%string] /\ StronglySorted lex_le ["b"%string])
  /\ In (node "b" ["a"; "a"]) [node "b" ["a"; "a"]; node "a" []].
Proof.
  intros g.
  destruct (children_deduplicated_parents_as_parsed new_provider
              [node "b" ["a"; "a"]; node "a" []]) as [Hc Hn].
  split.
  - apply (Hc "a"%string). vm_compute. auto.
  - apply (Hn "b"%string). vm_compute. auto.
Defined.

(** * Properties of the parser *)

Local Open Scope string_scope.

(** ** Strings *)

Lemma append_nil_r s : s ++ "" = s.
Proof. induction s as [|c s IH]; simpl; [reflexivity | now rewrite IH]. Qed.

Lemma append_assoc a b c : (a ++ b) ++ c = a ++ (b ++ c).
Proof. induction a as [|x a IH]; simpl; [reflexivity | now rewrite IH]. Qed.

Lemma length_append a b : String.length (a ++ b) = String.length a + String.length b.
Proof. induction a as [|x a IH]; simpl; [reflexivity | now rewrite IH]. Qed.

Lemma substring_prefix a b : substring 0 (String.length a) (a ++ b) = a.
Proof.
  induction a as [|x a IH]; simpl.
  - now destruct b.
  - now rewrite IH.
Qed.

Lemma take_drop_while p s : take_while p s ++ drop_while p s = s.
Proof.
  induction s as [|c s IH]; simpl; [reflexivity|].
  destruct (p c); simpl; [now rewrite IH | reflexivity].
Qed.

Lemma drop_while_head p s c r : drop_while p s = String c r -> p c = false.
Proof.
  induction s as [|x s IH]; simpl; [discriminate|].
  destruct (p x) eqn:Hx; [exact IH | now intros [= <- <-]].
Qed.

Lemma take_while_all p s : str_all p (take_while p s) = true.
Proof.
  induction s as [|c s IH]; simpl; [reflexivity|].
  destruct (p c) eqn:Hc; simpl; [now rewrite Hc | reflexivity].
Qed.

Lemma drop_while_all p s : str_all p s = true -> drop_while p s = "".
Proof.
  induction s as [|c s IH]; simpl; [reflexivity|].
  destruct (p c); simpl; [exact IH | discriminate].
Qed.

Lemma drop_while_nil_all p s : drop_while p s = "" -> str_all p s = true.
Proof.
  induction s as [|c s IH]; simpl; [reflexivity|].
  destruct (p c); simpl; [exact IH | discriminate].
Qed.

Lemma take_while_id p s : str_all p s = true -> take_while p s = s.
Proof.
  induction s as [|c s IH]; simpl; [reflexivity|].
  destruct (p c); simpl; [intros H; now rewrite IH | discriminate].
Qed.

Lemma str_all_append p a b : str_all p (a ++ b) = str_all p a && str_all p b.
Proof.
  induction a as [|c a IH]; simpl; [reflexivity|].
  now rewrite IH, andb_assoc.
Qed.

Lemma length_drop_while p s :
  String.length s - String.length (drop_while p s) = String.length (take_while p s).
Proof.
  rewrite <- (take_drop_while p s) at 1. rewrite length_append. lia.
Qed.

Lemma last_char_append pv a b : last_char pv (a ++ b) = last_char (last_char pv a) b.
Proof.
  revert pv. induction a as [|x a IH]; intros pv; simpl; [reflexivity | apply IH].
Qed.

(** ** Characters *)

(** Facts about single characters are settled by running through the 256
    code units. *)
Ltac by_cases_on_char c :=
  destruct c as [[] [] [] [] [] [] [] []]; vm_compute; congruence.

Lemma space_not_hash c : is_space c = true -> (c =? "#")%char = false.
Proof. by_cases_on_char c. Qed.

Lemma line_terminator_space c : is_line_terminator c = true -> is_space c = true.
Proof. by_cases_on_char c. Qed.


Lemma space_not_word c : is_space c = true -> is_word c = false.
Proof. by_cases_on_char c. Qed.

(** ** Greedy repetition *)

(** When the continuation accepts the longest run, that is the match. *)
Lemma rep_greedy p k : forall s pv cp r,
  k (after_run p pv s cp) = Some r -> rep p pv s cp k = Some r.
Proof.
  unfold after_run. induction s as [|c s IH]; intros pv cp r; simpl; [tauto|].
  destruct (p c); simpl; [|tauto].
  intros H. now rewrite (IH _ _ _ H).
Qed.

(** When the continuation cannot start on a character of the class, giving
    characters back never helps: only the longest run counts. *)
Lemma rep_commit p k :
  (forall pv c s cp, p c = true -> k (mkState pv (String c s) cp) = None) ->
  forall s pv cp, rep p pv s cp k = k (after_run p pv s cp).
Proof.
  intros Hk. unfold after_run.
  induction s as [|c s IH]; intros pv cp; simpl; [reflexivity|].
  destruct (p c) eqn:Hc; simpl; [|reflexivity].
  rewrite IH. destruct (k _) eqn:E; [reflexivity|].
  now apply Hk.
Qed.

Lemma consumed_after_run p pv s cp pv' cp' :
  consumed (mkState pv s cp) (after_run p pv' s cp') = String.length (take_while p s).
Proof. unfold consumed, after_run. simpl. apply length_drop_while. Qed.

Lemma matched_text_split pv a b cp pv' cp' :
  matched_text (mkState pv (a ++ b) cp) (mkState pv' b cp') = a.
Proof.
  unfold matched_text, consumed. simpl.
  replace (String.length (a ++ b) - String.length b) with (String.length a)
    by (rewrite length_append; lia).
  apply substring_prefix.
Qed.

Lemma matched_text_run p x s pv cp pv' cp' :
  matched_text (mkState pv (String x s) cp) (mkState pv' (drop_while p s) cp')
  = String x (take_while p s).
Proof.
  rewrite <- (take_drop_while p s) at 1.
  apply (matched_text_split pv (String x (take_while p s))).
Qed.

(** ** Global replacement *)

Section Replace.

Variables (fl : flags) (re : regex) (repl : string).

Lemma replace_from_nil pv skip :
  replace_from fl re repl pv "" skip
  = match match_here fl re pv "" with Some _ => repl | None => "" end.
Proof. reflexivity. Qed.

Lemma replace_from_cons pv c s :
  replace_from fl re repl pv (String c s) 0
  = match match_here fl re pv (String c s) with
    | Some st' =>
        match consumed (mkState pv (String c s) None) st' with
        | O => repl ++ String c (replace_from fl re repl (Some c) s 0)
        | S n => repl ++ replace_from fl re repl (Some c) s n
        end
    | None => String c (replace_from fl re repl (Some c) s 0)
    end.
Proof. reflexivity. Qed.

(** Skipping the characters of a match lands after it. *)
Lemma replace_from_skip a b : forall pv,
  replace_from fl re repl pv (a ++ b) (String.length a)
  = replace_from fl re repl (last_char pv a) b 0.
Proof.
  induction a as [|c a IH]; intros pv; simpl.
  - now destruct b.
  - apply IH.
Qed.

End Replace.

(** ** [stripInlineComment] *)

Lemma inline_comment_here pv s :
  option_map rest (match_here no_flags re_inline_comment pv s)
  = if comment_at s then Some "" else None.
Proof.
  unfold match_here, re_inline_comment. cbn [rmatch rest prev cap].
  destruct s as [|c s]; [reflexivity|]. cbn [comment_at].
  destruct (is_space c) eqn:Hc; [|reflexivity]. cbn [andb].
  rewrite rep_commit.
  2:{ intros pv' c' s' cp' Hc'. cbn [rest]. unfold chr_matches. cbn [ignoreCase no_flags].
      rewrite Ascii.eqb_sym, (space_not_hash _ Hc'). reflexivity. }
  unfold after_run. cbn [rest cap].
  destruct (drop_while is_space s) as [|h r]; [reflexivity|].
  unfold chr_matches. cbn [ignoreCase no_flags]. rewrite Ascii.eqb_sym.
  destruct (h =? "#")%char; [|reflexivity]. cbn [andb prev rest cap].
  rewrite rep_commit.
  2:{ intros pv' c' s' cp' _. reflexivity. }
  unfold after_run, at_eol. cbn [rest].
  destruct (drop_while is_dot r) as [|x r'] eqn:E.
  - now rewrite (drop_while_nil_all _ _ E).
  - cbn [multiline no_flags andb].
    destruct (str_all is_dot r) eqn:A; [|reflexivity].
    now rewrite (drop_while_all _ _ A) in E.
Qed.

Lemma replace_inline_comment s : forall pv,
  replace_from no_flags re_inline_comment "" pv s 0 = cut_comment s.
Proof.
  induction s as [|c s IH]; intros pv.
  - rewrite replace_from_nil.
    pose proof (inline_comment_here pv "") as H.
    destruct (match_here no_flags re_inline_comment pv ""); [discriminate H | reflexivity].
  - rewrite replace_from_cons. cbn [cut_comment].
    pose proof (inline_comment_here pv (String c s)) as H.
    destruct (match_here no_flags re_inline_comment pv (String c s)) as [st'|].
    + destruct (comment_at (String c s)); [|discriminate H].
      injection H as H. unfold consumed. rewrite H. cbn [rest String.length Nat.sub].
      rewrite <- (append_nil_r s) at 1. rewrite replace_from_skip, replace_from_nil.
      pose proof (inline_comment_here (last_char (Some c) s) "") as H0.
      destruct (match_here no_flags re_inline_comment (last_char (Some c) s) "");
        [discriminate H0 | reflexivity].
    + destruct (comment_at (String c s)); [discriminate H|].
      now rewrite IH.
Qed.

Lemma stripInlineComment_cut s : stripInlineComment s = trim (cut_comment s).
Proof. unfold stripInlineComment, replace_all. now rewrite replace_inline_comment. Qed.

(** ** Collapsing white space *)

Lemma spaces_here pv s :
  match_here no_flags re_spaces pv s
  = match s with
    | String c s' =>
        if is_space c then Some (after_run is_space (Some c) s' None) else None
    | EmptyString => None
    end.
Proof.
  unfold match_here, re_spaces. cbn [rmatch rest cap].
  destruct s as [|c s]; [reflexivity|].
  destruct (is_space c); [|reflexivity].
  now apply rep_greedy.
Qed.

Lemma squeeze_run s : forall c,
  is_space c = true -> squeeze (String c s) = String " " (squeeze (drop_while is_space s)).
Proof.
  induction s as [|x s IH]; intros c Hc.
  - cbn. now rewrite Hc.
  - cbn [squeeze drop_while]. rewrite Hc.
    destruct (is_space x) eqn:Hx.
    + rewrite <- (IH x Hx). cbn [squeeze]. now rewrite Hx.
    + cbn [squeeze]. now rewrite Hx.
Qed.

Lemma length_drop_while_le p s : String.length (drop_while p s) <= String.length s.
Proof.
  induction s as [|c s IH]; simpl; [lia|]. destruct (p c); simpl; lia.
Qed.

Lemma replace_spaces n : forall s pv,
  String.length s <= n -> replace_from no_flags re_spaces " " pv s 0 = squeeze s.
Proof.
  induction n as [|n IH]; intros s pv Hlen.
  - destruct s; [|simpl in Hlen; lia].
    rewrite replace_from_nil, spaces_here. reflexivity.
  - destruct s as [|c s].
    + rewrite replace_from_nil, spaces_here. reflexivity.
    + rewrite replace_from_cons, spaces_here.
      destruct (is_space c) eqn:Hc.
      * rewrite (squeeze_run s c Hc).
        unfold consumed, after_run. cbn [rest String.length].
        pose proof (length_drop_while_le is_space s) as Hle.
        replace (S (String.length s) - String.length (drop_while is_space s))
          with (S (String.length (take_while is_space s)))
          by (rewrite <- length_drop_while; lia).
        rewrite <- (take_drop_while is_space s) at 1.
        rewrite replace_from_skip, IH by (simpl in Hlen; lia).
        reflexivity.
      * cbn [squeeze]. rewrite Hc, IH by (simpl in Hlen; lia). reflexivity.
Qed.

Lemma normalizeRhs_plain s : normalizeRhs s = trim (squeeze (trim (cut_comment s))).
Proof.
  unfold normalizeRhs, replace_all.
  rewrite (replace_spaces _ _ _ (le_n _)), stripInlineComment_cut. reflexivity.
Qed.

(** ** [trim] *)

Lemma trimEnd_head s x t : trimEnd s = String x t -> exists r, s = String x r.
Proof.
  destruct s as [|c s]; simpl; [discriminate|].
  destruct (trimEnd s); [destruct (is_space c)|]; intros [= <- <-]; eauto.
Qed.

Lemma trimEnd_cons c s :
  trimEnd (String c s)
  = match trimEnd s with
    | EmptyString => if is_space c then "" else String c ""
    | t => String c t
    end.
Proof. reflexivity. Qed.

Lemma trimEnd_idem s : trimEnd (trimEnd s) = trimEnd s.
Proof.
  induction s as [|c s IH]; [reflexivity|].
  rewrite trimEnd_cons. destruct (trimEnd s) as [|x t] eqn:E.
  - destruct (is_space c) eqn:Hc; [reflexivity|]. cbn. now rewrite Hc.
  - rewrite trimEnd_cons, IH. reflexivity.
Qed.

Lemma trimStart_head s x t : trimStart s = String x t -> is_space x = false.
Proof.
  induction s as [|c s IH]; simpl; [discriminate|].
  destruct (is_space c) eqn:Hc; [exact IH | now intros [= <- <-]].
Qed.

Lemma trimStart_fixed s :
  match s with String c _ => is_space c = false | EmptyString => True end ->
  trimStart s = s.
Proof. destruct s as [|c s]; simpl; [reflexivity|]. now intros ->. Qed.

Lemma trim_idem s : trim (trim s) = trim s.
Proof.
  unfold trim. rewrite (trimStart_fixed (trimEnd (trimStart s))).
  - apply trimEnd_idem.
  - destruct (trimEnd (trimStart s)) as [|x t] eqn:E; [exact I|].
    destruct (trimEnd_head _ _ _ E) as [r Hr].
    now apply trimStart_head in Hr.
Qed.

Lemma trim_trimmed s : trimmed (trim s).
Proof. apply trim_idem. Qed.

(** ** What normalization leaves behind *)

Lemma head_eqb_hash_cut s x t : cut_comment s = String x t -> exists r, s = String x r.
Proof.
  destruct s as [|c s]; cbn [cut_comment]; [discriminate|].
  destruct (comment_at (String c s)); [discriminate|]. intros [= <- <-]. eauto.
Qed.

Lemma cut_comment_clean s : single_line s = true -> has_space_hash (cut_comment s) = false.
Proof.
  unfold single_line. induction s as [|c s IH]; [reflexivity|].
  cbn [str_all]. intros H. apply andb_true_iff in H. destruct H as [_ Hs].
  cbn [cut_comment]. destruct (comment_at (String c s)) eqn:Hc; [reflexivity|].
  cbn [has_space_hash]. rewrite (IH Hs), orb_false_r.
  destruct (is_space c) eqn:Hsp; [|reflexivity]. cbn [andb].
  destruct (cut_comment s) as [|h t] eqn:E; [reflexivity|].
  destruct (h =? "#")%char eqn:Hh; [|reflexivity].
  destruct (head_eqb_hash_cut _ _ _ E) as [r ->].
  exfalso. cbn [comment_at drop_while] in Hc. rewrite Hsp in Hc.
  apply Ascii.eqb_eq in Hh. subst h. cbn in Hc. cbn in Hs.
  rewrite Hs in Hc. discriminate Hc.
Qed.

Lemma trimStart_clean s : has_space_hash s = false -> has_space_hash (trimStart s) = false.
Proof.
  induction s as [|c s IH]; [reflexivity|].
  cbn [trimStart]. destruct (is_space c); [|tauto].
  cbn [has_space_hash]. intros H. apply orb_false_iff in H. now apply IH.
Qed.

Lemma trimEnd_clean s : has_space_hash s = false -> has_space_hash (trimEnd s) = false.
Proof.
  induction s as [|c s IH]; [reflexivity|].
  cbn [has_space_hash]. intros H. apply orb_false_iff in H. destruct H as [H1 H2].
  rewrite trimEnd_cons. specialize (IH H2).
  destruct (trimEnd s) as [|x t] eqn:E.
  - destruct (is_space c); [reflexivity|]. cbn. now rewrite andb_false_r.
  - cbn [has_space_hash] in *. rewrite IH, orb_false_r.
    destruct (trimEnd_head _ _ _ E) as [r ->]. exact H1.
Qed.

Lemma squeeze_clean s : has_space_hash s = false -> has_space_hash (squeeze s) = false.
Proof.
  induction s as [|c s IH]; [reflexivity|].
  cbn [has_space_hash]. intros H. apply orb_false_iff in H. destruct H as [H1 H2].
  specialize (IH H2). cbn [squeeze].
  destruct (is_space c) eqn:Hc.
  - destruct s as [|x r]; [reflexivity|].
    destruct (is_space x) eqn:Hx; [exact IH|].
    cbn [has_space_hash]. rewrite IH, orb_false_r.
    cbn [squeeze]. rewrite Hx. cbn [andb] in H1. now rewrite H1.
  - cbn [has_space_hash]. rewrite Hc, IH. reflexivity.
Qed.

Lemma squeeze_single_spaced s : single_spaced (squeeze s) = true.
Proof.
  induction s as [|c s IH]; [reflexivity|]. cbn [squeeze].
  destruct (is_space c) eqn:Hc.
  - destruct s as [|x r]; [reflexivity|].
    destruct (is_space x) eqn:Hx; [exact IH|].
    cbn [single_spaced]. rewrite IH. cbn [squeeze]. rewrite Hx.
    cbn. now rewrite Hx.
  - cbn [single_spaced]. now rewrite Hc, IH.
Qed.

Lemma trimStart_single_spaced s :
  single_spaced s = true -> single_spaced (trimStart s) = true.
Proof.
  induction s as [|c s IH]; [reflexivity|].
  cbn [trimStart]. destruct (is_space c); [|tauto].
  cbn [single_spaced]. intros H. apply andb_true_iff in H. now apply IH.
Qed.

Lemma trimEnd_single_spaced s :
  single_spaced s = true -> single_spaced (trimEnd s) = true.
Proof.
  induction s as [|c s IH]; [reflexivity|].
  cbn [single_spaced]. intros H. apply andb_true_iff in H. destruct H as [H1 H2].
  rewrite trimEnd_cons. specialize (IH H2).
  destruct (trimEnd s) as [|x t] eqn:E.
  - destruct (is_space c) eqn:Hc; [reflexivity|]. cbn. now rewrite Hc.
  - cbn [single_spaced] in *. rewrite IH, andb_true_r.
    destruct (trimEnd_head _ _ _ E) as [r ->]. exact H1.
Qed.

Lemma comment_at_space_hash s : comment_at s = true -> has_space_hash s = true.
Proof.
  destruct s as [|c s]; [discriminate|]. cbn [comment_at].
  intros H. apply andb_true_iff in H. destruct H as [Hc H]. revert c Hc H.
  induction s as [|x s IH]; intros c Hc H; [discriminate H|].
  cbn [drop_while] in H. cbn [has_space_hash]. rewrite Hc. cbn [andb].
  destruct (is_space x) eqn:Hx.
  - rewrite (space_not_hash _ Hx). cbn [orb].
    pose proof (IH x Hx H) as IH'. cbn [has_space_hash] in IH'.
    now rewrite Hx in IH'.
  - apply andb_true_iff in H. destruct H as [-> _]. reflexivity.
Qed.

Lemma cut_comment_fixed s : has_space_hash s = false -> cut_comment s = s.
Proof.
  induction s as [|c s IH]; [reflexivity|]. intros H.
  cbn [cut_comment]. destruct (comment_at (String c s)) eqn:Hc.
  - apply comment_at_space_hash in Hc. congruence.
  - cbn [has_space_hash] in H. apply orb_false_iff in H. now rewrite IH.
Qed.

Lemma squeeze_fixed s : single_spaced s = true -> squeeze s = s.
Proof.
  induction s as [|c s IH]; [reflexivity|].
  cbn [single_spaced squeeze]. intros H. apply andb_true_iff in H. destruct H as [H1 H2].
  rewrite (IH H2). destruct (is_space c); [|reflexivity].
  apply andb_true_iff in H1. destruct H1 as [Hc Hn]. apply Ascii.eqb_eq in Hc. subst c.
  destruct s as [|x r]; [reflexivity|].
  apply negb_true_iff in Hn. now rewrite Hn.
Qed.

Lemma normalizeRhs_trimmed s : trimmed (normalizeRhs s).
Proof. rewrite normalizeRhs_plain. apply trim_trimmed. Qed.

Lemma normalizeRhs_single_spaced s : single_spaced (normalizeRhs s) = true.
Proof.
  rewrite normalizeRhs_plain. unfold trim at 1.
  apply trimEnd_single_spaced, trimStart_single_spaced, squeeze_single_spaced.
Qed.

Lemma normalizeRhs_clean s :
  single_line s = true -> has_space_hash (normalizeRhs s) = false.
Proof.
  intros H. rewrite normalizeRhs_plain. unfold trim.
  apply trimEnd_clean, trimStart_clean, squeeze_clean,
        trimEnd_clean, trimStart_clean, cut_comment_clean, H.
Qed.

(** A text that is clean, single-spaced and trimmed is left as it is. *)
Lemma normalizeRhs_fixed t :
  has_space_hash t = false -> single_spaced t = true -> trimmed t ->
  normalizeRhs t = t.
Proof.
  intros H1 H2 H3. unfold trimmed in H3.
  now rewrite normalizeRhs_plain, (cut_comment_fixed _ H1), H3, (squeeze_fixed _ H2).
Qed.

(** ** Anchored patterns *)

Lemma search_anchored_tail fl r :
  multiline fl = false -> forall s c i, search fl (Seq Bol r) (Some c) s i = None.
Proof.
  intros Hm. induction s as [|x s IH]; intros c i; cbn [search];
    unfold match_here; cbn [rmatch]; unfold at_bol; cbn [prev]; rewrite Hm;
    cbn [andb]; [reflexivity | apply IH].
Qed.

Lemma exec_anchored fl r s :
  multiline fl = false ->
  exec fl (Seq Bol r) s
  = match rmatch fl r (mkState None s None) Some with
    | Some st' => Some (mkMatch 0 (matched_text (mkState None s None) st') (cap st'))
    | None => None
    end.
Proof.
  intros Hm. unfold exec.
  assert (E : match_here fl (Seq Bol r) None s = rmatch fl r (mkState None s None) Some)
    by reflexivity.
  destruct s as [|x s]; cbn [search]; rewrite E;
    destruct (rmatch fl r _ Some); try reflexivity.
  now apply search_anchored_tail.
Qed.

(** ** The four tests of [asArrayDownRevision] *)

Lemma none_test v : test flag_i re_none v = is_none_text v.
Proof.
  unfold test, re_none. rewrite exec_anchored by reflexivity.
  unfold is_none_text, same_ignoring_case.
  change (upper "None") with "NONE". change (upper "null") with "NULL".
  destruct v as [|c1 [|c2 [|c3 [|c4 [|c5 v]]]]];
    cbn [rmatch Lit rest cap prev upper String.eqb];
    unfold chr_matches, at_eol; cbn [ignoreCase multiline flag_i rest andb];
    change (canonicalize "N") with "N"%char;
    change (canonicalize "o") with "O"%char;
    change (canonicalize "n") with "N"%char;
    change (canonicalize "e") with "E"%char;
    change (canonicalize "u") with "U"%char;
    change (canonicalize "l") with "L"%char;
    repeat match goal with
           | |- context [canonicalize ?c] => generalize (canonicalize c); intro
           end;
    repeat match goal with
           | |- context [(?a =? ?b)%char] => destruct (a =? b)%char eqn:?
           end;
    try reflexivity; try congruence.
Qed.

Lemma quoted_exec v :
  match exec no_flags re_quoted v with
  | Some m => unquote v = Some (group1 m)
  | None => unquote v = None
  end.
Proof.
  unfold re_quoted. rewrite exec_anchored by reflexivity.
  destruct v as [|q r]; [reflexivity|].
  cbn [rmatch rest cap prev unquote].
  destruct (is_quote q); [|reflexivity].
  destruct r as [|x r]; [reflexivity|].
  cbn [take_while drop_while].
  destruct (not_quote x) eqn:Hx; [|reflexivity].
  rewrite rep_commit.
  2:{ intros pv c s cp Hc. cbn [rest]. unfold not_quote in Hc.
      apply negb_true_iff in Hc. now rewrite Hc. }
  unfold after_run. cbn [rest prev cap].
  destruct (drop_while not_quote r) as [|q' tl] eqn:E; [reflexivity|].
  pose proof (drop_while_head _ _ _ _ E) as Hq. unfold not_quote in Hq.
  apply negb_false_iff in Hq. rewrite Hq. unfold at_eol. cbn [rest].
  destruct tl as [|y tl]; [|reflexivity].
  unfold group1. cbn [m_group1 cap]. do 2 f_equal.
  rewrite <- E. symmetry. apply matched_text_run.
Qed.

Lemma bare_test v : test no_flags re_bare v = is_bare_token v.
Proof.
  unfold test, re_bare. rewrite exec_anchored by reflexivity.
  destruct v as [|x r]; [reflexivity|].
  cbn [rmatch rest cap prev is_bare_token str_all].
  destruct (is_word x); [|reflexivity]. cbn [andb].
  rewrite rep_commit by reflexivity.
  unfold after_run, at_eol. cbn [rest].
  destruct (drop_while is_word r) as [|y tl] eqn:E.
  - now rewrite (drop_while_nil_all _ _ E).
  - cbn [multiline no_flags andb].
    destruct (str_all is_word r) eqn:A; [|reflexivity].
    now rewrite (drop_while_all _ _ A) in E.
Qed.

Lemma token_here pv s :
  match match_here no_flags re_token pv s with
  | Some st' =>
      exists inner, cap st' = Some inner /\ token_at s = Some (inner, rest st')
  | None => token_at s = None
  end.
Proof.
  unfold match_here, re_token.
  destruct s as [|q r]; [reflexivity|].
  cbn [rmatch rest cap prev token_at].
  destruct (is_quote q); [|reflexivity].
  destruct r as [|x r]; [reflexivity|].
  cbn [take_while drop_while].
  destruct (not_quote x) eqn:Hx; [|reflexivity].
  rewrite rep_commit.
  2:{ intros pv' c s cp Hc. cbn [rest]. unfold not_quote in Hc.
      apply negb_true_iff in Hc. now rewrite Hc. }
  unfold after_run. cbn [rest prev cap].
  destruct (drop_while not_quote r) as [|q' tl] eqn:E; [reflexivity|].
  pose proof (drop_while_head _ _ _ _ E) as Hq. unfold not_quote in Hq.
  apply negb_false_iff in Hq. rewrite Hq.
  exists (String x (take_while not_quote r)). cbn [cap rest]. split; [|reflexivity].
  f_equal. rewrite <- E. apply matched_text_run.
Qed.

Lemma token_at_shape s inner tl :
  token_at s = Some (inner, tl) ->
  exists q q', s = String q (inner ++ String q' tl)
               /\ is_quote q = true /\ is_quote q' = true
               /\ str_all not_quote inner = true /\ inner <> "".
Proof.
  destruct s as [|q r]; cbn [token_at]; [discriminate|].
  destruct (is_quote q) eqn:Hq; [|discriminate].
  destruct (take_while not_quote r) as [|x i] eqn:T; [discriminate|].
  destruct (drop_while not_quote r) as [|q' t] eqn:D; [discriminate|].
  intros [= <- <-]. exists q, q'. repeat split.
  - now rewrite <- T, <- D, take_drop_while.
  - exact Hq.
  - apply drop_while_head in D. unfold not_quote in D. now apply negb_false_iff in D.
  - rewrite <- T. apply take_while_all.
  - discriminate.
Qed.

(** ** The tokens of a text *)

Lemma match_all_skip fl re a b : forall pv,
  match_all_from fl re pv (a ++ b) (String.length a)
  = match_all_from fl re (last_char pv a) b 0.
Proof.
  induction a as [|c a IH]; intros pv; simpl.
  - now destruct b.
  - apply IH.
Qed.

Lemma tokens_inside inner : forall acc s,
  str_all not_quote inner = true ->
  tokens_from (Some acc) (inner ++ s) = tokens_from (Some (acc ++ inner)) s.
Proof.
  induction inner as [|c inner IH]; intros acc s H.
  - now rewrite append_nil_r.
  - cbn [str_all] in H. apply andb_true_iff in H. destruct H as [Hc H].
    cbn [append tokens_from]. unfold not_quote in Hc. apply negb_true_iff in Hc.
    rewrite Hc, IH by exact H.
    now rewrite append_assoc.
Qed.

Lemma tokens_unterminated s acc :
  str_all not_quote s = true -> tokens_from (Some acc) s = [].
Proof.
  intros H. rewrite <- (append_nil_r s), tokens_inside by exact H. reflexivity.
Qed.

Lemma tokens_none s : str_all not_quote s = true -> tokens_from None s = [].
Proof.
  induction s as [|c s IH]; [reflexivity|].
  cbn [str_all tokens_from]. intros H. apply andb_true_iff in H. destruct H as [Hc H].
  unfold not_quote in Hc. apply negb_true_iff in Hc. now rewrite Hc, IH.
Qed.

Lemma match_all_tokens n : forall s pv,
  String.length s <= n -> match_all_from no_flags re_token pv s 0 = tokens_from None s.
Proof.
  induction n as [|n IH]; intros s pv Hlen.
  - destruct s; [|simpl in Hlen; lia].
    cbn [match_all_from]. pose proof (token_here pv "") as H.
    destruct (match_here no_flags re_token pv ""); [|reflexivity].
    destruct H as (i & _ & H). discriminate H.
  - destruct s as [|c s].
    + cbn [match_all_from]. pose proof (token_here pv "") as H.
      destruct (match_here no_flags re_token pv ""); [|reflexivity].
      destruct H as (i & _ & H). discriminate H.
    + cbn [match_all_from]. pose proof (token_here pv (String c s)) as H.
      cbn [String.length] in Hlen.
      destruct (match_here no_flags re_token pv (String c s)) as [st'|].
      * destruct H as (inner & -> & H).
        destruct (token_at_shape _ _ _ H) as (q & q' & [= -> ->] & Hq & Hq' & Hi & Hne).
        unfold consumed. cbn [rest String.length].
        rewrite length_append. cbn [String.length].
        replace (Nat.pred (S (String.length inner + S (String.length (rest st')))
                           - String.length (rest st')))
          with (String.length (inner ++ String q' ""))
          by (rewrite length_append; cbn [String.length]; lia).
        replace (inner ++ String q' (rest st')) with ((inner ++ String q' "") ++ rest st')
          by (now rewrite append_assoc).
        rewrite match_all_skip, IH
          by (rewrite !length_append in Hlen; cbn [String.length] in Hlen; lia).
        cbn [tokens_from]. rewrite Hq.
        rewrite append_assoc. cbn [append].
        rewrite tokens_inside by exact Hi. cbn [append tokens_from]. rewrite Hq'.
        destruct inner; [congruence | reflexivity].
      * rewrite IH by lia. cbn [tokens_from].
        destruct (is_quote c) eqn:Hc; [|reflexivity].
        cbn [token_at] in H. rewrite Hc in H.
        destruct (take_while not_quote s) as [|x i] eqn:T.
        -- destruct s as [|y s]; [reflexivity|].
           cbn [take_while] in T. cbn [tokens_from].
           destruct (not_quote y) eqn:Hy; [discriminate T|].
           unfold not_quote in Hy. apply negb_false_iff in Hy. now rewrite Hy.
        -- destruct (drop_while not_quote s) as [|y t] eqn:D; [|discriminate H].
           apply drop_while_nil_all in D.
           now rewrite (tokens_none _ D), (tokens_unterminated _ _ D).
Qed.

Lemma match_all_quoted_tokens v :
  match_all_group1 no_flags re_token v = quoted_tokens v.
Proof. apply (match_all_tokens _ _ _ (le_n _)). Qed.

(** ** [asArrayDownRevision], rule by rule *)

Lemma asArrayDownRevision_by_rules raw :
  asArrayDownRevision raw = asArrayDownRevision_rules raw.
Proof.
  unfold asArrayDownRevision, asArrayDownRevision_rules, parent_rules.
  destruct raw as [[|c r]|]; try reflexivity.
  set (v := normalizeRhs (String c r)). cbv zeta.
  rewrite none_test, bare_test, match_all_quoted_tokens.
  destruct (is_none_text v); [reflexivity|].
  pose proof (quoted_exec v) as H.
  destruct (exec no_flags re_quoted v) as [m|]; rewrite H; [reflexivity|].
  destruct (quoted_tokens v); reflexivity.
Qed.

(** ** [parseRevision] *)

Lemma edge_quote_here pv s :
  match_here no_flags re_edge_quotes pv s
  = match s with
    | String c s' =>
        if is_quote c
           && (match pv with None => true | Some _ => false end
               || match s' with EmptyString => true | String _ _ => false end)
        then Some (mkState (Some c) s' None) else None
    | EmptyString => None
    end.
Proof.
  unfold match_here, re_edge_quotes. cbn [rmatch]. unfold at_bol, at_eol.
  cbn [prev rest cap multiline no_flags andb].
  destruct s as [|c s']; [now destruct pv|].
  destruct (is_quote c), pv, s'; reflexivity.
Qed.

Lemma replace_edge_quotes_tail s : forall c,
  replace_from no_flags re_edge_quotes "" (Some c) s 0 = drop_last_quote s.
Proof.
  induction s as [|x s IH]; intros c.
  - now rewrite replace_from_nil, edge_quote_here.
  - rewrite replace_from_cons, edge_quote_here. cbn [orb].
    destruct s as [|y s].
    + destruct (is_quote x) eqn:Hx; cbn [andb drop_last_quote]; rewrite Hx.
      * unfold consumed. cbn [rest String.length Nat.sub append].
        now rewrite replace_from_nil, edge_quote_here.
      * now rewrite replace_from_nil, edge_quote_here.
    + rewrite andb_false_r, IH. reflexivity.
Qed.

Lemma replace_edge_quotes v :
  replace_all no_flags re_edge_quotes "" v = drop_last_quote (drop_first_quote v).
Proof.
  unfold replace_all. destruct v as [|c s].
  - now rewrite replace_from_nil, edge_quote_here.
  - rewrite replace_from_cons, edge_quote_here. cbn [orb drop_first_quote].
    rewrite andb_true_r. destruct (is_quote c) eqn:Hc.
    + unfold consumed. cbn [rest String.length append].
      replace (S (String.length s) - String.length s) with 1 by lia.
      apply replace_edge_quotes_tail.
    + rewrite replace_edge_quotes_tail.
      destruct s; cbn [drop_last_quote]; [now rewrite Hc | reflexivity].
Qed.

Lemma parseRevision_plain raw :
  parseRevision raw
  = match unquote (normalizeRhs raw) with
    | Some inner => inner
    | None => trim (drop_last_quote (drop_first_quote (normalizeRhs raw)))
    end.
Proof.
  unfold parseRevision. cbv zeta. rewrite replace_edge_quotes.
  pose proof (quoted_exec (normalizeRhs raw)) as H.
  destruct (exec no_flags re_quoted (normalizeRhs raw)); now rewrite H.
Qed.


Lemma trimEnd_nil s : trimEnd s = "" <-> str_all is_space s = true.
Proof.
  induction s as [|c s IH]; [easy|].
  rewrite trimEnd_cons. cbn [str_all]. rewrite andb_true_iff, <- IH.
  destruct (trimEnd s); [|split; [discriminate | intros [_ H]; discriminate H]].
  destruct (is_space c); split; try tauto; try discriminate.
  intros [H _]. discriminate H.
Qed.





Lemma take_while_stop p m q t :
  str_all p m = true -> p q = false ->
  take_while p (m ++ String q t) = m /\ drop_while p (m ++ String q t) = String q t.
Proof.
  induction m as [|c m IH]; cbn [str_all append take_while drop_while]; intros Hm Hq.
  - now rewrite Hq.
  - apply andb_true_iff in Hm. destruct Hm as [Hc Hm]. rewrite Hc.
    destruct (IH Hm Hq) as [-> ->]. auto.
Qed.


Lemma unquote_nonempty v inner : unquote v = Some inner -> inner <> "".
Proof.
  destruct v as [|q r]; cbn [unquote]; [discriminate|].
  destruct (is_quote q); [|discriminate].
  destruct (take_while not_quote r); [discriminate|].
  destruct (drop_while not_quote r) as [|? [|? ?]]; try discriminate.
  intros [= <-]. discriminate.
Qed.


(** ** The matcher finds a match exactly when there is one *)

Lemma rep_sound fl p k : forall s pv cp res,
  rep p pv s cp k = Some res ->
  exists st', Matches fl (Star p) (mkState pv s cp) st' /\ k st' = Some res.
Proof.
  induction s as [|c s IH]; intros pv cp res; cbn [rep].
  - intros H. eexists. split; [apply M_Star0 | exact H].
  - destruct (p c) eqn:Hc.
    + destruct (rep p (Some c) s cp k) as [r|] eqn:E.
      * intros [= ->]. destruct (IH _ _ _ E) as (st' & HM & Hk).
        exists st'. split; [now apply M_StarS | exact Hk].
      * intros H. eexists. split; [apply M_Star0 | exact H].
    + intros H. eexists. split; [apply M_Star0 | exact H].
Qed.

Lemma rmatch_sound fl r : forall st k res,
  rmatch fl r st k = Some res ->
  exists st', Matches fl r st st' /\ k st' = Some res.
Proof.
  induction r as [|c|p| | |r1 IH1 r2 IH2|r1 IH1 r2 IH2|p|p|r IH|r IH];
    intros [pv s cp] k res; cbn [rmatch rest prev cap].
  - intros H. eexists. split; [apply M_Eps | exact H].
  - destruct s as [|x s]; [discriminate|].
    destruct (chr_matches fl c x) eqn:E; [|discriminate].
    intros H. eexists. split; [now apply M_Chr | exact H].
  - destruct s as [|x s]; [discriminate|].
    destruct (p x) eqn:E; [|discriminate].
    intros H. eexists. split; [now apply M_Cls | exact H].
  - destruct (at_bol fl _) eqn:E; [|discriminate].
    intros H. eexists. split; [now apply M_Bol | exact H].
  - destruct (at_eol fl _) eqn:E; [|discriminate].
    intros H. eexists. split; [now apply M_Eol | exact H].
  - intros H. destruct (IH1 _ _ _ H) as (st1 & HM1 & H1).
    destruct (IH2 _ _ _ H1) as (st2 & HM2 & H2).
    exists st2. split; [now apply M_Seq with st1 | exact H2].
  - destruct (rmatch fl r1 _ k) as [r|] eqn:E.
    + intros [= ->]. destruct (IH1 _ _ _ E) as (st' & HM & Hk).
      exists st'. split; [now apply M_AltL | exact Hk].
    + intros H. destruct (IH2 _ _ _ H) as (st' & HM & Hk).
      exists st'. split; [now apply M_AltR | exact Hk].
  - apply rep_sound.
  - destruct s as [|x s]; [discriminate|].
    destruct (p x) eqn:E; [|discriminate].
    intros H. destruct (rep_sound fl _ _ _ _ _ _ H) as (st' & HM & Hk).
    exists st'. split; [now apply M_Plus | exact Hk].
  - destruct (rmatch fl r _ _) as [r'|] eqn:E.
    + intros [= ->]. destruct (IH _ _ _ E) as (st' & HM & Hk).
      destruct (consumed _ st' =? 0)%nat eqn:C; [discriminate|].
      exists st'. split; [|exact Hk].
      apply M_Opt1; [exact HM | now apply Nat.eqb_neq].
    + intros H. eexists. split; [apply M_Opt0 | exact H].
  - intros H. destruct (IH _ _ _ H) as (st' & HM & Hk).
    eexists. split; [apply M_Group, HM | exact Hk].
Qed.

Lemma rep_base p k s pv cp :
  k (mkState pv s cp) <> None -> rep p pv s cp k <> None.
Proof.
  destruct s as [|c s]; cbn [rep]; [tauto|].
  destruct (p c); [|tauto].
  destruct (rep p (Some c) s cp k); [discriminate | tauto].
Qed.

Lemma rmatch_complete fl r st st' :
  Matches fl r st st' -> forall k, k st' <> None -> rmatch fl r st k <> None.
Proof.
  induction 1 as [st|c x pv s cp Hc|p x pv s cp Hp|st Hb|st He
                  |r1 r2 st st1 st2 _ IH1 _ IH2
                  |r1 r2 st st' _ IH|r1 r2 st st' _ IH
                  |p st|p x pv s cp st' Hp _ IH|p x pv s cp st' Hp _ IH
                  |r st|r st st' _ IH Hn|r st st' _ IH];
    intros k Hk; cbn [rmatch rest prev cap].
  - exact Hk.
  - now rewrite Hc.
  - now rewrite Hp.
  - now rewrite Hb.
  - now rewrite He.
  - apply IH1. now apply IH2.
  - specialize (IH k Hk). destruct (rmatch fl r1 st k); [discriminate | tauto].
  - destruct (rmatch fl r1 st k); [discriminate | now apply IH].
  - destruct st as [pv s cp]. now apply rep_base.
  - cbn [rep]. rewrite Hp. specialize (IH k Hk). cbn [rmatch rest prev cap] in IH.
    destruct (rep p (Some x) s cp k); [discriminate | tauto].
  - rewrite Hp. apply (IH k Hk).
  - destruct (rmatch fl r st _); [discriminate | exact Hk].
  - assert (H : rmatch fl r st
                  (fun st1 => if (consumed st st1 =? 0)%nat then None else k st1)
                <> None).
    { apply IH. apply Nat.eqb_neq in Hn. now rewrite Hn. }
    destruct (rmatch fl r st _); [discriminate | tauto].
  - apply IH. exact Hk.
Qed.

Lemma match_here_none fl re pv s :
  match_here fl re pv s = None
  <-> forall st', ~ Matches fl re (mkState pv s None) st'.
Proof.
  unfold match_here. split.
  - intros H st' HM. apply (rmatch_complete _ _ _ _ HM Some); [discriminate | exact H].
  - intros H. destruct (rmatch fl re _ Some) as [res|] eqn:E; [|reflexivity].
    destruct (rmatch_sound _ _ _ _ _ E) as (st' & HM & _). now apply H in HM.
Qed.

Lemma search_none fl re : forall s pv i,
  search fl re pv s i = None
  <-> forall a b st', s = a ++ b ->
                      ~ Matches fl re (mkState (last_char pv a) b None) st'.
Proof.
  induction s as [|c s IH]; intros pv i; cbn [search].
  - destruct (match_here fl re pv "") as [st0|] eqn:E.
    + split; [discriminate|]. intros H. exfalso.
      destruct (rmatch_sound _ _ _ _ _ E) as (st' & HM & _).
      now apply (H "" "" st').
    + split; [|reflexivity]. intros _ a b st' Hab.
      destruct a; [|discriminate]. cbn in Hab. subst b.
      now apply match_here_none.
  - destruct (match_here fl re pv (String c s)) as [st0|] eqn:E.
    + split; [discriminate|]. intros H. exfalso.
      destruct (rmatch_sound _ _ _ _ _ E) as (st' & HM & _).
      now apply (H "" (String c s) st').
    + rewrite IH. split.
      * intros H a b st' Hab. destruct a as [|x a].
        -- cbn in Hab. subst b. now apply match_here_none.
        -- cbn in Hab. injection Hab as <- ->. now apply H.
      * intros H a b st' Hab. apply (H (String c a) b st'). cbn. now rewrite Hab.
Qed.

Lemma exec_none fl re text :
  exec fl re text = None <-> ~ matches_somewhere fl re text.
Proof.
  unfold exec, matches_somewhere. rewrite search_none. split.
  - intros H (a & b & st' & Hab & HM). now apply (H a b st').
  - intros H a b st' Hab HM. apply H. now exists a, b, st'.
Qed.

(** A successful [exec] reports a match of the pattern, with its capture. *)
Lemma search_sound fl re : forall s pv i m,
  search fl re pv s i = Some m ->
  exists a b st',
    s = a ++ b /\ Matches fl re (mkState (last_char pv a) b None) st'
    /\ m_group1 m = cap st'.
Proof.
  induction s as [|c s IH]; intros pv i m; cbn [search].
  - destruct (match_here fl re pv "") as [st0|] eqn:E; [|discriminate].
    intros [= <-]. destruct (rmatch_sound _ _ _ _ _ E) as (st' & HM & [= ->]).
    now exists "", "", st0.
  - destruct (match_here fl re pv (String c s)) as [st0|] eqn:E.
    + intros [= <-]. destruct (rmatch_sound _ _ _ _ _ E) as (st' & HM & [= ->]).
      now exists "", (String c s), st0.
    + intros H. destruct (IH _ _ _ H) as (a & b & st' & -> & HM & Hc).
      now exists (String c a), b, st'.
Qed.

(** ** What a binding pattern captures *)

Lemma star_run fl p st st' :
  Matches fl (Star p) st st' ->
  exists a, rest st = a ++ rest st' /\ str_all p a = true /\ cap st' = cap st.
Proof.
  remember (Star p) as r eqn:Er. induction 1; inversion Er; subst.
  - exists "". auto.
  - destruct (IHMatches eq_refl) as (a & Ha & Hp & Hc). cbn [rest cap] in *.
    exists (String x a). cbn. rewrite H, Hp, Ha. auto.
Qed.

Lemma plus_run fl p st st' :
  Matches fl (Plus p) st st' ->
  exists x a, rest st = String x (a ++ rest st') /\ p x = true /\ str_all p a = true.
Proof.
  inversion 1 as [| | | | | | | | | |p' x pv s cp st'' Hp HM| | |]; subst.
  destruct (star_run _ _ _ _ HM) as (a & Ha & Hpa & _). cbn [rest] in *.
  exists x, a. now rewrite Ha.
Qed.

Lemma binding_capture name text m :
  exec flag_m (re_binding name) text = Some m ->
  exists g, m_group1 m = Some g /\ g <> "" /\ single_line g = true.
Proof.
  unfold exec. intros H.
  destruct (search_sound _ _ _ _ _ _ H) as (a & b & st' & _ & HM & ->).
  unfold re_binding in HM.
  repeat match goal with
         | HS : Matches _ (Seq _ _) _ _ |- _ => inversion HS; subst; clear HS
         end.
  match goal with
  | HE : Matches _ Eol _ _ |- _ => inversion HE; subst; clear HE
  end.
  match goal with
  | HG : Matches _ (Group _) _ ?s8, HS : Matches _ (Star is_space) ?s8 st' |- _ =>
      destruct (star_run _ _ _ _ HS) as (trail & _ & _ & Hc);
      inversion HG; subst; clear HG
  end.
  match goal with
  | HP : Matches _ (Plus is_dot) _ _ |- _ =>
      destruct (plus_run _ _ _ _ HP) as (x & t & Hr & Hx & Ht)
  end.
  rewrite Hc. cbn [cap]. exists (String x t).
  match goal with
  | HP : Matches _ (Plus is_dot) ?sa ?sb |- _ =>
      destruct sa as [pv5 s5 cp5], sb as [pv6 s6 cp6]
  end.
  cbn [rest] in Hr. subst s5.
  split; [|split].
  - f_equal. apply (matched_text_split pv5 (String x t)).
  - discriminate.
  - unfold single_line. cbn [str_all]. now rewrite Hx, Ht.
Qed.

(** ** The claims about the parser *)

(** C10, as amended: normalization is idempotent on every text without a
    line terminator, which is what the parser hands to [normalizeRhs] (a
    right-hand side captured by [(.+)]): for such a text,
    [normalizeRhs (normalizeRhs s) = normalizeRhs s]. *)
Theorem normalizeRhs_idempotent_on_lines (s : string) :
  single_line s = true -> normalizeRhs (normalizeRhs s) = normalizeRhs s.
Proof.
  intros H. apply normalizeRhs_fixed.
  - now apply normalizeRhs_clean.
  - apply normalizeRhs_single_spaced.
  - apply normalizeRhs_trimmed.
Qed.

Lemma normalizeRhs_idempotent_on_lines_witness :
  single_line "  'a1'    # first revision" = true
  /\ normalizeRhs (normalizeRhs "  'a1'    # first revision")
     = normalizeRhs "  'a1'    # first revision".
Proof.
  split; [reflexivity|].
  apply (normalizeRhs_idempotent_on_lines "  'a1'    # first revision").
  reflexivity.
Defined.

(** C10, as stated, fails: in a text of two lines the [#] of the first line
    is no comment (a line terminator follows it), but once the white space
    is collapsed it is one. *)
Lemma normalizeRhs_idempotent_counterexample :
  let s := "a #b" ++ String "010" "c" in
  normalizeRhs s = "a #b c"
  /\ normalizeRhs (normalizeRhs s) = "a"
  /\ normalizeRhs (normalizeRhs s) <> normalizeRhs s.
Proof. vm_compute. repeat split. discriminate. Qed.

Lemma unquote_shape v inner :
  unquote v = Some inner
  <-> exists q q', is_quote q = true /\ is_quote q' = true
                   /\ v = String q (inner ++ String q' "")
                   /\ inner <> "" /\ str_all not_quote inner = true.
Proof.
  split.
  - destruct v as [|q r]; cbn [unquote]; [discriminate|].
    destruct (is_quote q) eqn:Hq; [|discriminate].
    destruct (take_while not_quote r) as [|x i] eqn:T; [discriminate|].
    destruct (drop_while not_quote r) as [|q' [|? ?]] eqn:D; try discriminate.
    intros [= <-]. exists q, q'. repeat split.
    + exact Hq.
    + apply drop_while_head in D. unfold not_quote in D. now apply negb_false_iff in D.
    + now rewrite <- T, <- D, take_drop_while.
    + discriminate.
    + rewrite <- T. apply take_while_all.
  - intros (q & q' & Hq & Hq' & -> & Hne & Hi). cbn [unquote]. rewrite Hq.
    destruct (take_while_stop not_quote inner q' "" Hi) as [-> ->].
    { unfold not_quote. now rewrite Hq'. }
    destruct inner; [congruence | reflexivity].
Qed.

Lemma quoted_tokens_token q inner q' s :
  is_quote q = true -> is_quote q' = true ->
  inner <> "" -> str_all not_quote inner = true ->
  quoted_tokens (String q (inner ++ String q' s)) = inner :: quoted_tokens s.
Proof.
  intros Hq Hq' Hne Hi. unfold quoted_tokens. cbn [tokens_from]. rewrite Hq.
  rewrite tokens_inside by exact Hi. cbn [append tokens_from]. rewrite Hq'.
  destruct inner; [congruence | reflexivity].
Qed.

(** C5, as amended.  The parent right-hand side is read from its normalized
    value by these rules, first match wins.  A quote character is an
    apostrophe or a double quote, and the two kinds are never told apart:
    an opening quote is closed by the next quote character of either kind.
    - An absent or empty right-hand side gives the empty list.
    - The text [None] or [null], in any case of its letters, gives the
      empty list.
    - A value made of a quote character, one or more characters none of
      which is a quote character, and a quote character, gives the
      one-element list of the text in between.  So [Q]abc[Q] qualifies also
      when the two quote characters are of different kinds, and a value
      with a quote character of either kind inside, such as [Q]it's[Q],
      does not.
    - Otherwise a value with one or more quoted tokens gives the list of
      those tokens in order of appearance, not de-duplicated, whether or
      not the value is enclosed in parentheses or brackets.  The tokens
      are found from left to right: a character that is no quote is passed
      over; a quote character followed by one or more characters that are
      no quotes and then by a quote character is a token, its text being
      what stands in between, and the reading goes on after the closing
      quote; a quote character directly followed by a quote character
      opens nothing, and the reading goes on at the second one; a quote
      character after which no quote character comes gives no token.  So
      [Q]it's[Q] gives the one token [it].
    - Otherwise a non-empty value of letters, digits and underscores only
      gives the one-element list of that value.
    - Anything else gives the empty list. *)
Theorem asArrayDownRevision_follows_rules :
  asArrayDownRevision None = [] /\ asArrayDownRevision (Some "") = []
  /\ (forall raw, asArrayDownRevision raw = asArrayDownRevision_rules raw)
  /\ (forall r, let v := normalizeRhs r in
        (is_none_text v = true -> asArrayDownRevision (Some r) = [])
        /\ (is_none_text v = false ->
            (forall inner, unquote v = Some inner ->
                           asArrayDownRevision (Some r) = [inner])
            /\ (unquote v = None ->
                (quoted_tokens v <> [] ->
                 asArrayDownRevision (Some r) = quoted_tokens v)
                /\ (quoted_tokens v = [] ->
                    (is_bare_token v = true -> asArrayDownRevision (Some r) = [v])
                    /\ (is_bare_token v = false ->
                        asArrayDownRevision (Some r) = [])))))
  /\ (forall v, is_none_text v = true <-> upper v = "NONE" \/ upper v = "NULL")
  /\ (forall v inner,
        unquote v = Some inner
        <-> exists q q', is_quote q = true /\ is_quote q' = true
                         /\ v = String q (inner ++ String q' "")
                         /\ inner <> "" /\ str_all not_quote inner = true)
  /\ (forall s, str_all not_quote s = true -> quoted_tokens s = [])
  /\ (forall c s, is_quote c = false -> quoted_tokens (String c s) = quoted_tokens s)
  /\ (forall q inner q' s,
        is_quote q = true -> is_quote q' = true ->
        inner <> "" -> str_all not_quote inner = true ->
        quoted_tokens (String q (inner ++ String q' s)) = inner :: quoted_tokens s)
  /\ (forall q q' s,
        is_quote q = true -> is_quote q' = true ->
        quoted_tokens (String q (String q' s)) = quoted_tokens (String q' s))
  /\ (forall q s,
        is_quote q = true -> str_all not_quote s = true ->
        quoted_tokens (String q s) = [])
  /\ (forall v, is_bare_token v = true <-> v <> "" /\ str_all is_word v = true).
Proof.
  split; [reflexivity|]. split; [reflexivity|].
  split; [exact asArrayDownRevision_by_rules|].
  split.
  { intros r v. rewrite asArrayDownRevision_by_rules.
    unfold asArrayDownRevision_rules, parent_rules.
    destruct r as [|c r].
    - assert (Hv : v = "") by reflexivity. rewrite Hv.
      split; [reflexivity|]. intros _. split; [discriminate|]. intros _.
      split; [intros H; now contradiction H|]. intros _. split; [discriminate|reflexivity].
    - fold v. cbv zeta. split; [now intros ->|]. intros ->.
      split; [now intros inner ->|]. intros ->.
      split.
      + intros Ht. destruct (quoted_tokens v); [now contradiction Ht | reflexivity].
      + intros ->. split; now intros ->. }
  split.
  { intros v. unfold is_none_text, same_ignoring_case.
    change (upper "None") with "NONE". change (upper "null") with "NULL".
    rewrite orb_true_iff, !String.eqb_eq. intuition congruence. }
  split; [exact unquote_shape|].
  split; [exact tokens_none|].
  split.
  { intros c s Hc. unfold quoted_tokens. cbn [tokens_from]. now rewrite Hc. }
  split; [exact quoted_tokens_token|].
  split.
  { intros q q' s Hq Hq'. unfold quoted_tokens. cbn [tokens_from]. now rewrite Hq, Hq'. }
  split.
  { intros q s Hq Hs. unfold quoted_tokens. cbn [tokens_from]. rewrite Hq.
    now apply tokens_unterminated. }
  intros v. destruct v as [|c v]; cbn [is_bare_token].
  - split; [discriminate | intros [H _]; now contradiction H].
  - split; [intros H; split; [discriminate | exact H] | now intros [_ H]].
Qed.

Lemma asArrayDownRevision_follows_rules_witness :
  asArrayDownRevision (Some (String quote_d ("it's" ++ String quote_d ""))) = ["it"]%string
  /\ asArrayDownRevision (Some ("'abc" ++ String quote_d "")) = ["abc"]%string
  /\ asArrayDownRevision (Some "('a1', 'b2')  # merge") = ["a1"; "b2"]%string.
Proof.
  destruct asArrayDownRevision_follows_rules as (_ & _ & _ & H & _).
  split; [|split].
  - destruct (H (String quote_d ("it's" ++ String quote_d ""))) as [_ H1].
    destruct (H1 eq_refl) as [_ H2]. destruct (H2 eq_refl) as [H3 _].
    cbv zeta in H3. rewrite H3; [reflexivity | vm_compute; discriminate].
  - destruct (H ("'abc" ++ String quote_d "")) as [_ H1].
    destruct (H1 eq_refl) as [H2 _]. apply H2. reflexivity.
  - destruct (H "('a1', 'b2')  # merge") as [_ H1].
    destruct (H1 eq_refl) as [_ H2]. destruct (H2 eq_refl) as [H3 _].
    cbv zeta in H3. rewrite H3; [reflexivity | vm_compute; discriminate].
Defined.

(** C5, as stated, fails: a value with a quoted token that is neither
    parenthesized nor bracketed is not sent to the empty list; its tokens
    are returned.  And a quoted literal that spans the whole value is not
    always returned whole: a quote character of the other kind inside it
    ends it. *)
Lemma asArrayDownRevision_rules_counterexample :
  (asArrayDownRevision (Some "x 'a'") = ["a"]%string
   /\ asArrayDownRevision_spec (Some "x 'a'") = []
   /\ asArrayDownRevision (Some "x 'a'") <> asArrayDownRevision_spec (Some "x 'a'"))
  /\ (let v := String quote_d ("it's" ++ String quote_d "") in
      normalizeRhs v = v
      /\ string_literal v = Some "it's"
      /\ asArrayDownRevision (Some v) = ["it"]%string
      /\ asArrayDownRevision (Some v) <> ["it's"]%string).
Proof. vm_compute. repeat split; discriminate. Qed.

Section ParserClaims.

Variable stem : string -> string.

Lemma parseMigrationFile_some content path n :
  parseMigrationFile stem content path = Some n ->
  exists m rhs,
    exec flag_m re_revision content = Some m
    /\ m_group1 m = Some rhs /\ rhs <> "" /\ single_line rhs = true
    /\ revision n = parseRevision rhs
    /\ downRevisions n
       = asArrayDownRevision
           (match exec flag_m re_down_revision content with
            | Some dm => Some (group1 dm)
            | None => None
            end).
Proof.
  unfold parseMigrationFile.
  destruct (exec flag_m re_revision content) as [m|] eqn:E; [|discriminate].
  intros [= <-]. destruct (binding_capture _ _ _ E) as (g & Hg & Hne & Hl).
  exists m, g. cbn [revision downRevisions]. unfold group1 at 1. rewrite Hg.
  repeat split; assumption.
Qed.


(** The outcomes of the parser, for every text.  It is a total function
    whose only outcomes are a node and absence: it is absent exactly when
    the identifier pattern matches nowhere in the text, a match being free
    to run over several lines; when a node is returned and the parent
    pattern matches nowhere, or its right-hand side falls under none of the
    rules (not [None]/[null], no quoted literal, no quoted token, no bare
    token), the parent list is empty. *)
Lemma parser_absent_iff_no_match (content path : string) :
  (parseMigrationFile stem content path = None
   <-> ~ matches_somewhere flag_m re_revision content)
  /\ (forall n, parseMigrationFile stem content path = Some n ->
        (~ matches_somewhere flag_m re_down_revision content ->
         downRevisions n = [])
        /\ (forall m, exec flag_m re_down_revision content = Some m ->
              downRevisions n = asArrayDownRevision_rules (Some (group1 m))
              /\ (unquote (normalizeRhs (group1 m)) = None ->
                  quoted_tokens (normalizeRhs (group1 m)) = [] ->
                  is_bare_token (normalizeRhs (group1 m)) = false ->
                  downRevisions n = []))).
Proof.
  split.
  - rewrite <- exec_none. unfold parseMigrationFile.
    destruct (exec flag_m re_revision content); split; congruence.
  - intros n Hn.
    destruct (parseMigrationFile_some _ _ _ Hn) as (_ & _ & _ & _ & _ & _ & _ & Hd).
    split.
    + intros Hno. apply exec_none in Hno. now rewrite Hno in Hd.
    + intros m Hm. rewrite Hm, asArrayDownRevision_by_rules in Hd.
      split; [exact Hd|]. intros Hu Ht Hb. rewrite Hd.
      unfold asArrayDownRevision_rules, parent_rules.
      destruct (group1 m) as [|c r]; [reflexivity|].
      cbv zeta. rewrite Hu, Ht, Hb.
      now destruct (is_none_text _).
Qed.

End ParserClaims.



Lemma parser_absent_iff_no_match_witness :
  parseMigrationFile whole_path "# nothing declared here" "v.py" = None
  /\ downRevisions (mkNode "a1" [] "v.py" "a1 (v.py)") = [].
Proof.
  split.
  - destruct (parseMigrationFile whole_path "# nothing declared here" "v.py") eqn:E;
      [|reflexivity].
    vm_compute in E. discriminate E.
  - destruct (parser_absent_iff_no_match whole_path
                ("revision = 'a1'" ++ LF ++ "down_revision = foo()") "v.py")
      as [_ H].
    destruct (H (mkNode "a1" [] "v.py" "a1 (v.py)") eq_refl) as [_ H2].
    apply (H2 (mkMatch 16 "down_revision = foo()" (Some "foo()")));
      reflexivity.
Defined.

(** C9 fails on the code by a slip of the identifier pattern.  The pattern
    is anchored to one line ([^] and [$] under the [m] flag, and a value
    read by [(.+)], which stops at a line terminator), and the comment on
    it names two one-line forms; but the white space [\s*] and the
    annotation [[^=]+] inside it run over line terminators.  In the text
    below, of three lines, no line matches the pattern: the first has no
    [=], the other two do not start with [revision].  The claim says the
    result is absent.  The code returns a node, whose [id] is [1]: the
    annotation of the first line is read up to the [=] of the third. *)
Theorem parser_reads_across_lines (stem : string -> string) (path : string) :
  let text := "revision: str" ++ LF ++ "def upgrade():" ++ LF ++ "    x = 1" in
  text_lines text = ["revision: str"; "def upgrade():"; "    x = 1"]%string
  /\ some_line_matches re_revision text = false
  /\ parseMigrationFile stem text path
     = Some (mkNode "1" [] path ("1 (" ++ stem path ++ ")"))
  /\ parseMigrationFile stem text path <> None.
Proof.
  cbv zeta. split; [reflexivity|]. split; [vm_compute; reflexivity|].
  assert (E : parseMigrationFile stem
                ("revision: str" ++ LF ++ "def upgrade():" ++ LF ++ "    x = 1") path
              = Some (mkNode "1" [] path ("1 (" ++ stem path ++ ")")))
    by (vm_compute; reflexivity).
  split; [exact E | rewrite E; discriminate].
Qed.

(** C2, as stated, fails: a declaration that names the same parent twice
    gives a parent list with that parent twice, and the build stores the
    node as it is. *)
Lemma parent_lists_keep_duplicates_counterexample :
  let text := "revision = 'b'" ++ LF ++ "down_revision = ('a', 'a')" in
  let g := rebuildGraph whole_path new_provider (Files [("b.py", Some text)]) in
  asArrayDownRevision (Some "('a', 'a')") = ["a"; "a"]%string
  /\ ~ (forall k n, In (k, n) (nodesByRevision g) -> NoDup (downRevisions n)).
Proof.
  intros text g. split; [reflexivity|].
  intros H.
  specialize (H "b" (mkNode "b" ["a"; "a"]%string "b.py" "b (b.py)")).
  assert (Hin : In ("b", mkNode "b" ["a"; "a"]%string "b.py" "b (b.py)")
                   (nodesByRevision g)) by (vm_compute; auto).
  apply H in Hin. cbn [downRevisions] in Hin.
  inversion Hin as [|? ? Hn _]. apply Hn. now left.
Qed.

(** * Further properties of the graph engine *)

Local Open Scope list_scope.

Lemma built_rebuildFrom p parsed : built_from parsed (rebuildFrom p parsed).
Proof.
  destruct (rebuildFrom_fields p parsed) as (Hn & Hc & Hb & Hh & Hm).
  unfold built_from. rewrite Hn at 1. rewrite Hc, Hb, Hh, Hm, Hn. tauto.
Qed.

Lemma NoDup_map_filter {A B} (g : A -> B) (f : A -> bool) (l : list A) :
  NoDup (map g l) -> NoDup (map g (filter f l)).
Proof.
  induction l as [|a l IH]; cbn [map filter]; [constructor|].
  intros Hnd. inversion Hnd as [|? ? Hx Hnd']; subst.
  destruct (f a); cbn [map]; [|now apply IH].
  constructor; [|now apply IH].
  intros Hin. apply Hx. apply in_map_iff in Hin. destruct Hin as (x & Hr & Hf).
  apply filter_In in Hf. rewrite <- Hr. now apply in_map.
Qed.

Section Built.

Variables (parsed : list MigrationNode) (p : Provider).
Hypothesis Hb : built_from parsed p.

Lemma built_NoDup : NoDup (map_keys (nodesByRevision p)).
Proof. destruct Hb as (-> & _). apply index_nodes_NoDup. constructor. Qed.

Lemma built_keyed : keyed (nodesByRevision p).
Proof. destruct Hb as (-> & _). apply index_nodes_keyed. intros k n []. Qed.

Lemma built_origin k n : In (k, n) (nodesByRevision p) -> In n parsed /\ revision n = k.
Proof.
  intros Hin. split; [|now apply built_keyed].
  destruct Hb as (Hn & _). rewrite Hn in Hin.
  destruct (index_nodes_origin _ _ _ _ Hin) as [[]|H]. exact H.
Qed.

Lemma built_stored k n : In (k, n) (nodesByRevision p) <-> map_get k (nodesByRevision p) = Some n.
Proof. split; [apply In_map_get, built_NoDup | apply map_get_In]. Qed.

Lemma built_children k :
  children_of p k = js_sort (uniq (get_list (add_children parsed []) k)).
Proof.
  unfold children_of. destruct Hb as (_ & -> & _).
  rewrite normalize_children_map by (apply add_children_NoDup; constructor).
  rewrite map_get_normalized. unfold get_list.
  now destruct (map_get k (add_children parsed [])).
Qed.

Lemma built_children_In k c :
  In c (children_of p k)
  <-> exists n, In n parsed /\ revision n = c /\ In k (downRevisions n).
Proof.
  rewrite built_children, js_sort_In, uniq_In, add_children_In.
  split; [intros [[]|H]; exact H | now right].
Qed.

Lemma built_child_stored k c : In c (children_of p k) -> map_has c (nodesByRevision p) = true.
Proof.
  rewrite built_children_In. intros (n & Hn & <- & _).
  apply map_has_keys. destruct Hb as (-> & _).
  apply index_nodes_keys. right. now apply in_map.
Qed.

Lemma built_bases_In b :
  In b (bases p)
  <-> exists n, map_get b (nodesByRevision p) = Some n /\ downRevisions n = [].
Proof.
  destruct Hb as (_ & _ & -> & _). unfold compute_bases.
  rewrite js_sort_In, in_map_iff. unfold map_values. split.
  - intros (n & <- & Hf). apply filter_In in Hf. destruct Hf as [Hin Hl].
    apply in_map_iff in Hin. destruct Hin as ([k n'] & <- & Hin). cbn [snd] in *.
    exists n'. rewrite (built_keyed _ _ Hin). split; [now apply built_stored|].
    apply Nat.eqb_eq in Hl. now destruct (downRevisions n').
  - intros (n & Hg & Hd). apply built_stored in Hg. exists n.
    split; [now apply built_keyed|]. apply filter_In. split.
    + change n with (snd (b, n)). now apply in_map.
    + now rewrite Hd.
Qed.

Lemma built_heads_In h :
  In h (heads p)
  <-> map_has h (nodesByRevision p) = true
      /\ forall k n, In (k, n) (nodesByRevision p) -> ~ In h (downRevisions n).
Proof.
  destruct Hb as (_ & _ & _ & -> & _). unfold compute_heads.
  rewrite js_sort_In, filter_In, map_has_keys, negb_true_iff. split.
  - intros [Hk Hr]. split; [exact Hk|]. intros k n Hin Hpar.
    assert (Hs : set_has h (fst (scan_parents (nodesByRevision p))) = true)
      by (apply set_has_In, referenced_In; now exists k, n).
    congruence.
  - intros [Hk Hno]. split; [exact Hk|].
    destruct (set_has h _) eqn:Hs; [|reflexivity].
    apply set_has_In, referenced_In in Hs. destruct Hs as (k & n & Hin & Hpar).
    now apply Hno in Hin.
Qed.

Lemma built_missing_In m :
  In m (missingParents p)
  <-> (exists k n, In (k, n) (nodesByRevision p) /\ In m (downRevisions n))
      /\ map_has m (nodesByRevision p) = false.
Proof.
  destruct Hb as (_ & _ & _ & _ & ->). rewrite js_sort_In, missing_In. tauto.
Qed.

Lemma built_bases_NoDup : NoDup (bases p).
Proof.
  destruct Hb as (_ & _ & -> & _). unfold compute_bases.
  apply js_sort_NoDup, NoDup_map_filter.
  rewrite (keyed_revisions _ built_keyed). apply built_NoDup.
Qed.

Lemma built_heads_NoDup : NoDup (heads p).
Proof.
  destruct Hb as (_ & _ & _ & -> & _). unfold compute_heads.
  apply js_sort_NoDup, NoDup_filter, built_NoDup.
Qed.

End Built.

Lemma scan_parent_fold_NoDup nodes ps : forall acc,
  NoDup (fst acc) -> NoDup (snd acc) ->
  NoDup (fst (fold_left (scan_parent nodes) ps acc))
  /\ NoDup (snd (fold_left (scan_parent nodes) ps acc)).
Proof.
  induction ps as [|x ps IH]; intros acc H1 H2; cbn [fold_left]; [tauto|].
  apply IH; unfold scan_parent; destruct (negb (map_has x nodes)); cbn [fst snd];
    auto using set_add_NoDup.
Qed.

Lemma scan_parents_NoDup nodes :
  NoDup (fst (scan_parents nodes)) /\ NoDup (snd (scan_parents nodes)).
Proof.
  unfold scan_parents.
  assert (H : forall ns acc, NoDup (fst acc) -> NoDup (snd acc) ->
            NoDup (fst (fold_left
                          (fun acc n => fold_left (scan_parent nodes) (downRevisions n) acc)
                          ns acc))
            /\ NoDup (snd (fold_left
                             (fun acc n => fold_left (scan_parent nodes) (downRevisions n) acc)
                             ns acc))).
  { induction ns as [|n ns IH]; intros acc H1 H2; cbn [fold_left]; [tauto|].
    destruct (scan_parent_fold_NoDup nodes (downRevisions n) acc H1 H2). now apply IH. }
  apply H; constructor.
Qed.

Lemma built_missing_NoDup parsed p : built_from parsed p -> NoDup (missingParents p).
Proof.
  intros (_ & _ & _ & _ & ->). apply js_sort_NoDup, scan_parents_NoDup.
Qed.

(** Two sorted lists without duplicates that have the same members are the
    same list. *)
Lemma sorted_same_members l l' :
  StronglySorted lex_le l -> StronglySorted lex_le l' -> NoDup l -> NoDup l' ->
  (forall x, In x l <-> In x l') -> l = l'.
Proof.
  intros Hs Hs' Hn Hn' Hm.
  apply sorted_arrangement_unique; try assumption.
  now apply NoDup_Permutation.
Qed.

(** X1: an identifier is in [bases] exactly when the node stored under it
    has no parent; [bases] lists no identifier twice. *)
Theorem bases_exact (p : Provider) (parsed : list MigrationNode) (b : string) :
  let g := rebuildFrom p parsed in
  (In b (bases g)
   <-> exists n, map_get b (nodesByRevision g) = Some n /\ downRevisions n = [])
  /\ NoDup (bases g).
Proof.
  intros g. pose proof (built_rebuildFrom p parsed) as Hb. split.
  - now apply built_bases_In with parsed.
  - now apply built_bases_NoDup with parsed.
Qed.

(** X2: an identifier is in [missingParents] exactly when some stored node
    names it as a parent and no node is stored under it; the list has no
    duplicates, and a missing parent is neither a head nor a base. *)
Theorem missing_exact (p : Provider) (parsed : list MigrationNode) (m : string) :
  let g := rebuildFrom p parsed in
  (In m (missingParents g)
   <-> (exists k n, In (k, n) (nodesByRevision g) /\ In m (downRevisions n))
       /\ map_has m (nodesByRevision g) = false)
  /\ NoDup (missingParents g)
  /\ (In m (missingParents g) -> ~ In m (heads g) /\ ~ In m (bases g)).
Proof.
  intros g. pose proof (built_rebuildFrom p parsed) as Hb. fold g in Hb.
  split; [now apply built_missing_In with parsed|].
  split; [now apply built_missing_NoDup with parsed|].
  intros Hm. apply (built_missing_In _ _ Hb) in Hm. destruct Hm as [_ Hno]. split.
  - intros Hh. apply (built_heads_In _ _ Hb) in Hh. destruct Hh as [Hh _]. congruence.
  - intros Hbs. apply (built_bases_In _ _ Hb) in Hbs. destruct Hbs as (n & Hg & _).
    unfold map_has in Hno. now rewrite Hg in Hno.
Qed.

Lemma missing_exact_witness :
  let g := rebuildFrom new_provider [node "d4" ["zzz"]] in
  ~ In "zzz"%string (heads g) /\ ~ In "zzz"%string (bases g).
Proof.
  apply (proj2 (proj2 (missing_exact new_provider [node "d4" ["zzz"]] "zzz"))).
  simpl. auto.
Defined.

(** X3: every stored identifier that no stored node names as a parent is
    in [heads], and only those; [heads] lists no identifier twice. *)
Theorem heads_exact (p : Provider) (parsed : list MigrationNode) (h : string) :
  let g := rebuildFrom p parsed in
  (In h (heads g)
   <-> map_has h (nodesByRevision g) = true
       /\ forall k n, In (k, n) (nodesByRevision g) -> ~ In h (downRevisions n))
  /\ NoDup (heads g).
Proof.
  intros g. pose proof (built_rebuildFrom p parsed) as Hb. split.
  - now apply built_heads_In with parsed.
  - now apply built_heads_NoDup with parsed.
Qed.

Lemma add_children_keys parsed : forall c k,
  In k (map_keys (add_children parsed c))
  <-> In k (map_keys c) \/ exists n, In n parsed /\ In k (downRevisions n).
Proof.
  assert (Hp : forall child ps c k,
            In k (map_keys (fold_left (push_child child) ps c))
            <-> In k (map_keys c) \/ In k ps).
  { intros child. induction ps as [|x ps IH]; intros c k; cbn [fold_left]; [simpl; tauto|].
    rewrite IH. unfold push_child. rewrite map_keys_set_In. simpl. intuition congruence. }
  induction parsed as [|a parsed IH]; intros c k.
  - simpl. split; [now left | intros [H|(n & [] & _)]; exact H].
  - unfold add_children in *. cbn [fold_left]. rewrite IH, Hp. split.
    + intros [[H|H]|(n & Hn & Hk)]; [now left | right; exists a; simpl; auto|].
      right. exists n. simpl. auto.
    + intros [H|(n & [->|Hn] & Hk)]; [now left; left | now left; right|].
      right. now exists n.
Qed.

(** X4: [childrenByParent] is the parent lists of the parsed nodes turned
    round: [c] is listed under [parent] exactly when some parsed node with
    identifier [c] names [parent]; an entry exists exactly for the
    identifiers that some parsed node names, so no entry is empty; and
    every listed child has a node in [nodesByRevision]. *)
Theorem children_exact (p : Provider) (parsed : list MigrationNode) (parent c : string) :
  let g := rebuildFrom p parsed in
  (In c (children_of g parent)
   <-> exists n, In n parsed /\ revision n = c /\ In parent (downRevisions n))
  /\ (map_has parent (childrenByParent g) = true
      <-> exists n, In n parsed /\ In parent (downRevisions n))
  /\ (map_has parent (childrenByParent g) = true -> children_of g parent <> [])
  /\ (In c (children_of g parent) -> map_has c (nodesByRevision g) = true).
Proof.
  intros g. pose proof (built_rebuildFrom p parsed) as Hb. fold g in Hb.
  assert (Hk : map_has parent (childrenByParent g) = true
               <-> exists n, In n parsed /\ In parent (downRevisions n)).
  { destruct Hb as (_ & -> & _).
    rewrite normalize_children_map by (apply add_children_NoDup; constructor).
    rewrite map_has_keys. unfold map_keys. rewrite map_map. cbn [normalize_entry fst].
    change (In parent (map_keys (add_children parsed []))
            <-> exists n, In n parsed /\ In parent (downRevisions n)).
    rewrite add_children_keys. simpl. tauto. }
  split; [now apply built_children_In|]. split; [exact Hk|]. split.
  - intros H. apply Hk in H. destruct H as (n & Hn & Hpar).
    assert (Hin : In (revision n) (children_of g parent))
      by (apply (built_children_In _ _ Hb); now exists n).
    intros E. now rewrite E in Hin.
  - now apply built_child_stored with parsed.
Qed.

Lemma children_exact_witness :
  let g := rebuildFrom new_provider [node "a1" []; node "b2" ["a1"]] in
  map_has "b2" (nodesByRevision g) = true.
Proof.
  apply (proj2 (proj2 (proj2
           (children_exact new_provider [node "a1" []; node "b2" ["a1"]] "a1" "b2")))).
  vm_compute. auto.
Defined.

Lemma set_has_map_has {V} k (m : jsmap V) : set_has k (map_keys m) = map_has k m.
Proof.
  unfold map_has. induction m as [|[k' v] m IH]; cbn [map_keys map set_has map_get fst];
    [reflexivity|].
  destruct (k' =? k)%string; [reflexivity | exact IH].
Qed.

Lemma map_keys_set_add {V} k (v : V) m : map_keys (map_set k v m) = set_add k (map_keys m).
Proof. rewrite map_keys_set. unfold set_add. now rewrite set_has_map_has. Qed.

Lemma index_nodes_key_list parsed : forall m,
  map_keys (index_nodes parsed m)
  = fold_left (fun s x => set_add x s) (map revision parsed) (map_keys m).
Proof.
  induction parsed as [|n parsed IH]; intros m; cbn [index_nodes fold_left map];
    [reflexivity|].
  change (fold_left (fun m n => map_set (revision n) n m) parsed
            (map_set (revision n) n m))
    with (index_nodes parsed (map_set (revision n) n m)).
  now rewrite IH, map_keys_set_add.
Qed.

Lemma map_set_fresh {V} k (v : V) m :
  ~ In k (map_keys m) -> map_set k v m = m ++ [(k, v)].
Proof.
  induction m as [|[k' v'] m IH]; cbn [map_set map_keys map fst app]; [reflexivity|].
  intros H. destruct (String.eqb_spec k' k) as [->|Hne]; [simpl in H; tauto|].
  rewrite IH; [reflexivity|]. simpl in H. tauto.
Qed.

Lemma index_nodes_distinct parsed : forall m,
  NoDup (map_keys m ++ map revision parsed) ->
  index_nodes parsed m = m ++ map (fun n => (revision n, n)) parsed.
Proof.
  induction parsed as [|n parsed IH]; intros m Hnd; cbn [index_nodes fold_left map].
  - now rewrite app_nil_r.
  - change (fold_left (fun m n => map_set (revision n) n m) parsed
              (map_set (revision n) n m))
      with (index_nodes parsed (map_set (revision n) n m)).
    cbn [map] in Hnd.
    assert (Hf : ~ In (revision n) (map_keys m)).
    { apply NoDup_remove_2 in Hnd. rewrite in_app_iff in Hnd. tauto. }
    rewrite (map_set_fresh _ _ _ Hf), IH.
    + now rewrite <- app_assoc.
    + unfold map_keys in *. rewrite map_app, <- app_assoc. exact Hnd.
Qed.

(** X5: the keys of [nodesByRevision] are the identifiers of the parsed
    nodes in the order of their first occurrence, each once; when no two
    parsed nodes share an identifier, the stored nodes are the parsed nodes,
    in the order parsed. *)
Theorem stored_keys_in_first_occurrence_order (p : Provider) (parsed : list MigrationNode) :
  let g := rebuildFrom p parsed in
  map_keys (nodesByRevision g) = uniq (map revision parsed)
  /\ (NoDup (map revision parsed) -> map_values (nodesByRevision g) = parsed).
Proof.
  intros g. unfold g. destruct (rebuildFrom_fields p parsed) as (-> & _). split.
  - apply (index_nodes_key_list parsed []).
  - intros Hnd. rewrite index_nodes_distinct by exact Hnd.
    unfold map_values. cbn [app]. rewrite map_map. cbn [snd]. apply map_id.
Qed.

Lemma stored_keys_in_first_occurrence_order_witness :
  map_values (nodesByRevision (rebuildFrom new_provider [node "b2" ["a1"]; node "a1" []]))
  = [node "b2" ["a1"]; node "a1" []].
Proof.
  apply (proj2 (stored_keys_in_first_occurrence_order new_provider
                  [node "b2" ["a1"]; node "a1" []])).
  repeat constructor; simpl; intuition discriminate.
Defined.

Lemma same_entries_same_classes parsed parsed' p p' :
  built_from parsed p -> built_from parsed' p' ->
  (forall k n, In (k, n) (nodesByRevision p) <-> In (k, n) (nodesByRevision p')) ->
  bases p = bases p' /\ heads p = heads p' /\ missingParents p = missingParents p'.
Proof.
  intros Hb Hb' Hs.
  assert (Hk : forall k, map_has k (nodesByRevision p) = map_has k (nodesByRevision p')).
  { intros k. unfold map_has.
    destruct (map_get k (nodesByRevision p)) as [n|] eqn:E;
      destruct (map_get k (nodesByRevision p')) as [n'|] eqn:E'; try reflexivity.
    - apply (built_stored _ _ Hb), Hs, (built_stored _ _ Hb') in E. congruence.
    - apply (built_stored _ _ Hb'), Hs, (built_stored _ _ Hb) in E'. congruence. }
  split; [|split].
  - apply sorted_same_members.
    + destruct Hb as (_ & _ & -> & _). apply js_sort_sorted.
    + destruct Hb' as (_ & _ & -> & _). apply js_sort_sorted.
    + now apply built_bases_NoDup with parsed.
    + now apply built_bases_NoDup with parsed'.
    + intros b. rewrite (built_bases_In _ _ Hb), (built_bases_In _ _ Hb').
      split; intros (n & Hg & Hd); exists n; split; try exact Hd.
      * now apply (built_stored _ _ Hb'), Hs, (built_stored _ _ Hb).
      * now apply (built_stored _ _ Hb), Hs, (built_stored _ _ Hb').
  - apply sorted_same_members.
    + destruct Hb as (_ & _ & _ & -> & _). apply js_sort_sorted.
    + destruct Hb' as (_ & _ & _ & -> & _). apply js_sort_sorted.
    + now apply built_heads_NoDup with parsed.
    + now apply built_heads_NoDup with parsed'.
    + intros h. rewrite (built_heads_In _ _ Hb), (built_heads_In _ _ Hb'), Hk.
      split; intros [H1 H2]; (split; [exact H1|]); intros k n Hin; apply (H2 k n);
        now apply Hs.
  - apply sorted_same_members.
    + destruct Hb as (_ & _ & _ & _ & ->). apply js_sort_sorted.
    + destruct Hb' as (_ & _ & _ & _ & ->). apply js_sort_sorted.
    + now apply built_missing_NoDup with parsed.
    + now apply built_missing_NoDup with parsed'.
    + intros m. rewrite (built_missing_In _ _ Hb), (built_missing_In _ _ Hb'), Hk.
      split; intros [(k & n & Hin & Hp) H2]; (split; [|exact H2]); exists k, n;
        (split; [|exact Hp]); now apply Hs.
Qed.

(** X6: the order in which the files are found does not matter when no two
    nodes share an identifier: for two arrangements of the same nodes the
    builds have the same [bases], [heads] and [missingParents] and the same
    children under every parent.  (The children agree even with shared
    identifiers.) *)
Theorem classes_independent_of_order (p p' : Provider) (parsed parsed' : list MigrationNode) :
  Permutation parsed parsed' ->
  (forall parent,
      children_of (rebuildFrom p parsed) parent
      = children_of (rebuildFrom p' parsed') parent)
  /\ (NoDup (map revision parsed) ->
      bases (rebuildFrom p parsed) = bases (rebuildFrom p' parsed')
      /\ heads (rebuildFrom p parsed) = heads (rebuildFrom p' parsed')
      /\ missingParents (rebuildFrom p parsed) = missingParents (rebuildFrom p' parsed')).
Proof.
  intros Hp.
  pose proof (built_rebuildFrom p parsed) as Hb.
  pose proof (built_rebuildFrom p' parsed') as Hb'. split.
  - intros parent. apply sorted_same_members.
    + rewrite (built_children _ _ Hb). apply js_sort_sorted.
    + rewrite (built_children _ _ Hb'). apply js_sort_sorted.
    + rewrite (built_children _ _ Hb). apply js_sort_NoDup, uniq_NoDup.
    + rewrite (built_children _ _ Hb'). apply js_sort_NoDup, uniq_NoDup.
    + intros c. rewrite (built_children_In _ _ Hb), (built_children_In _ _ Hb').
      split; intros (n & Hn & H); exists n; (split; [|exact H]).
      * now apply (Permutation_in _ Hp).
      * now apply (Permutation_in _ (Permutation_sym Hp)).
  - intros Hnd.
    assert (Hnd' : NoDup (map revision parsed'))
      by (apply (Permutation_NoDup (Permutation_map revision Hp) Hnd)).
    apply (same_entries_same_classes _ _ _ _ Hb Hb').
    intros k n. destruct Hb as (-> & _), Hb' as (-> & _).
    rewrite !index_nodes_distinct by assumption. cbn [app].
    rewrite !in_map_iff. split; intros (x & E & Hx); exists x; (split; [exact E|]).
    + now apply (Permutation_in _ Hp).
    + now apply (Permutation_in _ (Permutation_sym Hp)).
Qed.

Lemma classes_independent_of_order_witness :
  heads (rebuildFrom new_provider [node "b2" ["a1"]; node "a1" []])
  = heads (rebuildFrom new_provider [node "a1" []; node "b2" ["a1"]]).
Proof.
  apply (proj2 (classes_independent_of_order new_provider new_provider
                  [node "b2" ["a1"]; node "a1" []] [node "a1" []; node "b2" ["a1"]]
                  (perm_swap _ _ _))).
  repeat constructor; simpl; intuition discriminate.
Defined.

Lemma set_of_list_fresh l : forall acc,
  NoDup (acc ++ l) -> fold_left (fun s x => set_add x s) l acc = acc ++ l.
Proof.
  induction l as [|x l IH]; intros acc Hnd; cbn [fold_left].
  - now rewrite app_nil_r.
  - assert (Hx : set_has x acc = false).
    { destruct (set_has x acc) eqn:E; [|reflexivity].
      apply set_has_In in E. apply NoDup_remove_2 in Hnd.
      rewrite in_app_iff in Hnd. tauto. }
    unfold set_add at 2. rewrite Hx, IH; rewrite <- app_assoc; [reflexivity | exact Hnd].
Qed.

Lemma set_of_list_NoDup l : NoDup l -> set_of_list l = l.
Proof. intros H. apply (set_of_list_fresh l []). exact H. Qed.

Lemma built_edge_ends parsed p e :
  built_from parsed p -> In e (edges (getGraphData p)) ->
  map_has (to e) (nodesByRevision p) = true
  /\ (map_has (from e) (nodesByRevision p) = false -> In (from e) (missingParents p)).
Proof.
  intros Hb He. apply edges_In in He. destruct He as (k & n & Hin & Hf & Ht). split.
  - rewrite Ht, (built_keyed _ _ Hb k n Hin). apply map_has_keys.
    change k with (fst (k, n)). now apply in_map.
  - intros Hno. apply (built_missing_In _ _ Hb). split; [now exists k, n | exact Hno].
Qed.

(** X7: what [getGraphData] returns loses nothing: its [bases] and [heads]
    sets hold the elements of the stored lists, in the same order, and the
    edges that the graph view drops are exactly those that start at a
    missing parent; in particular the view renders every edge exactly when
    there is no missing parent. *)
Theorem graph_data_complete (p : Provider) (parsed : list MigrationNode) :
  let g := rebuildFrom p parsed in
  gd_bases (getGraphData g) = bases g
  /\ gd_heads (getGraphData g) = heads g
  /\ (forall e, In e (edges (getGraphData g)) ->
        (In e (rendered_edges (getGraphData g)) <-> ~ In (from e) (missingParents g)))
  /\ (rendered_edges (getGraphData g) = edges (getGraphData g)
      <-> missingParents g = []).
Proof.
  intros g. pose proof (built_rebuildFrom p parsed) as Hb. fold g in Hb.
  assert (Hr : forall e, In e (edges (getGraphData g)) ->
             (In e (rendered_edges (getGraphData g)) <-> ~ In (from e) (missingParents g))).
  { intros e He. destruct (built_edge_ends _ _ _ Hb He) as [Ht Hf].
    unfold rendered_edges. rewrite filter_In. cbn [nodes getGraphData].
    rewrite Ht. split.
    - intros [_ Hc] Hm. apply (built_missing_In _ _ Hb) in Hm. destruct Hm as [_ Hm].
      rewrite Hm in Hc. discriminate Hc.
    - intros Hm. split; [exact He|].
      destruct (map_has (from e) (nodesByRevision g)) eqn:E; [reflexivity|].
      exfalso. now apply Hm, Hf. }
  split; [|split; [|split; [exact Hr|]]].
  - apply set_of_list_NoDup. now apply built_bases_NoDup with parsed.
  - apply set_of_list_NoDup. now apply built_heads_NoDup with parsed.
  - split.
    + intros E. destruct (missingParents g) as [|m ms] eqn:Em; [reflexivity|]. exfalso.
      assert (Hm : In m (missingParents g)) by (rewrite Em; now left).
      pose proof Hm as Hm'. apply (built_missing_In _ _ Hb) in Hm'.
      destruct Hm' as [(k & n & Hin & Hpar) _].
      assert (He : In (mkEdge m (revision n)) (edges (getGraphData g)))
        by (apply edges_In; exists k, n; auto).
      pose proof He as He'. rewrite <- E in He'. apply (Hr _ He) in He'.
      apply He'. cbn [from]. rewrite ?Em. now left.
    + intros Em. unfold rendered_edges. apply forallb_filter_id.
      apply forallb_forall. intros e He.
      assert (Hin : In e (rendered_edges (getGraphData g)))
        by (apply (Hr e He); rewrite Em; tauto).
      unfold rendered_edges in Hin. apply filter_In in Hin. tauto.
Qed.

Lemma graph_data_complete_witness :
  let g := rebuildFrom new_provider [node "d4" ["zzz"]] in
  ~ In (mkEdge "zzz" "d4") (rendered_edges (getGraphData g)).
Proof.
  intros g H.
  destruct (graph_data_complete new_provider [node "d4" ["zzz"]]) as (_ & _ & Hr & _).
  apply (Hr (mkEdge "zzz" "d4")) in H; [|simpl; auto].
  apply H. simpl. auto.
Defined.

(** * Properties of the tree view *)

Local Open Scope string_scope.

Lemma substring_whole s : substring 0 (String.length s) s = s.
Proof. induction s as [|c s IH]; cbn; [reflexivity | now rewrite IH]. Qed.

Lemma rev_of_rev_key r : rev_of_nodeId (rev_key r) = r.
Proof.
  unfold rev_of_nodeId, rev_key. cbn.
  replace (String.prefix "" r) with true by (now destruct r).
  rewrite Nat.sub_0_r. apply substring_whole.
Qed.

Lemma rev_key_inj r r' : rev_key r = rev_key r' -> r = r'.
Proof. unfold rev_key. cbn. now intros [= ->]. Qed.

Lemma rev_key_not_group r : rev_key r <> "missingParents".
Proof. unfold rev_key. cbn. discriminate. Qed.

Lemma NoDup_map_injective {A B} (f : A -> B) (l : list A) :
  (forall a b, f a = f b -> a = b) -> NoDup l -> NoDup (map f l).
Proof.
  intros Hf. induction 1 as [|x l Hx _ IH]; cbn [map]; constructor; [|exact IH].
  intros Hin. apply in_map_iff in Hin. destruct Hin as (y & E & Hy).
  apply Hf in E. now subst.
Qed.

Lemma with_cache_same p : with_cache p (itemCache p) = p.
Proof. now destruct p. Qed.

Lemma item_request_cache p rev :
  exists c, snd (getTreeItemForRevision p rev) = with_cache p c
            /\ map_get (rev_key rev) c = Some (fst (getTreeItemForRevision p rev))
            /\ (forall k, k <> rev_key rev -> map_get k c = map_get k (itemCache p)).
Proof.
  unfold getTreeItemForRevision.
  destruct (map_get (rev_key rev) (itemCache p)) as [it|] eqn:E; cbn [fst snd].
  - exists (itemCache p). rewrite with_cache_same. auto.
  - eexists. split; [reflexivity|]. split; [apply map_get_set_same|].
    intros k Hk. apply map_get_set_other. congruence.
Qed.

Lemma group_request_cache p :
  exists c, snd (getMissingParentsGroupItem p) = with_cache p c
            /\ map_get "missingParents" c = Some (fst (getMissingParentsGroupItem p))
            /\ (forall k, k <> "missingParents" -> map_get k c = map_get k (itemCache p)).
Proof.
  unfold getMissingParentsGroupItem.
  destruct (map_get "missingParents" (itemCache p)) as [it|] eqn:E; cbn [fst snd].
  - exists (itemCache p). rewrite with_cache_same. auto.
  - eexists. split; [reflexivity|]. split; [apply map_get_set_same|].
    intros k Hk. apply map_get_set_other. congruence.
Qed.

Lemma ok_item_current p rev :
  provider_ok p -> fst (getTreeItemForRevision p rev) = fresh_item p rev.
Proof.
  intros [_ Hc]. unfold getTreeItemForRevision.
  destruct (map_get (rev_key rev) (itemCache p)) as [it|] eqn:E; [|reflexivity].
  cbn [fst]. destruct (Hc _ _ E) as [[Hk _]|(rev' & Hk & ->)].
  - now apply rev_key_not_group in Hk.
  - now apply rev_key_inj in Hk; subst.
Qed.

Lemma ok_group_current p :
  provider_ok p -> fst (getMissingParentsGroupItem p) = group_item p.
Proof.
  intros [_ Hc]. unfold getMissingParentsGroupItem.
  destruct (map_get "missingParents" (itemCache p)) as [it|] eqn:E; [|reflexivity].
  cbn [fst]. destruct (Hc _ _ E) as [[_ ->]|(rev' & Hk & _)]; [reflexivity|].
  symmetry in Hk. now apply rev_key_not_group in Hk.
Qed.

Lemma ok_new : provider_ok new_provider.
Proof.
  split.
  - exists []. repeat split.
  - intros key it H. discriminate H.
Qed.

Lemma ok_rebuildFrom p parsed : provider_ok (rebuildFrom p parsed).
Proof.
  split.
  - exists parsed. apply built_rebuildFrom.
  - intros key it H. unfold rebuildFrom in H. cbn in H.
    destruct (scan_parents _) in H. discriminate H.
Qed.

Lemma ok_rebuild stem p ws : provider_ok (rebuildGraph stem p ws).
Proof. destruct ws; cbn [rebuildGraph]; try apply ok_new. apply ok_rebuildFrom. Qed.

Lemma ok_item p rev : provider_ok p -> provider_ok (snd (getTreeItemForRevision p rev)).
Proof.
  intros Hok. pose proof (ok_item_current p rev Hok) as Hcur.
  destruct (item_request_cache p rev) as (c & -> & Hnew & Hold).
  destruct Hok as [[parsed Hb] Hc]. split; [now exists parsed|].
  intros key it H. cbn [with_cache itemCache] in H.
  destruct (string_dec key (rev_key rev)) as [->|Hne].
  - right. exists rev. split; [reflexivity|]. rewrite Hnew in H.
    injection H as <-. rewrite Hcur. reflexivity.
  - rewrite (Hold _ Hne) in H. exact (Hc _ _ H).
Qed.

Lemma ok_group p : provider_ok p -> provider_ok (snd (getMissingParentsGroupItem p)).
Proof.
  intros Hok. pose proof (ok_group_current p Hok) as Hcur.
  destruct (group_request_cache p) as (c & -> & Hnew & Hold).
  destruct Hok as [[parsed Hb] Hc]. split; [now exists parsed|].
  intros key it H. cbn [with_cache itemCache] in H.
  destruct (string_dec key "missingParents") as [->|Hne].
  - left. split; [reflexivity|]. rewrite Hnew in H.
    injection H as <-. rewrite Hcur. reflexivity.
  - rewrite (Hold _ Hne) in H. exact (Hc _ _ H).
Qed.

Lemma ok_parent p e : provider_ok p -> provider_ok (snd (getParent p e)).
Proof.
  intros Hok. unfold getParent.
  destruct (nodeId e =? "missingParents"); [exact Hok|].
  destruct (String.prefix "missing:" (nodeId e)).
  - pose proof (ok_group p Hok) as H.
    destruct (getMissingParentsGroupItem p) as [g p']. exact H.
  - destruct (map_get _ (nodesByRevision p)) as [n|]; [|exact Hok].
    destruct (downRevisions n) as [|q qs]; [exact Hok|].
    pose proof (ok_item p q Hok) as H.
    destruct (getTreeItemForRevision p q) as [it p']. exact H.
Qed.

Lemma ok_root_children p items p' :
  provider_ok p -> getRootChildren p = Some (items, p') -> provider_ok p'.
Proof.
  intros Hok. unfold getRootChildren.
  destruct (map_or_raise (root_item p) (bases p)) as [its|]; [|discriminate].
  destruct (0 <? List.length (missingParents p))%nat.
  - pose proof (ok_group p Hok) as H.
    destruct (getMissingParentsGroupItem p) as [g p0]. now intros [= _ <-].
  - now intros [= _ <-].
Qed.

Section TreeFacts.

Variable stem : string -> string.
Variable localeCompare : string -> string -> comparison.

Lemma ok_children ws p e items p' :
  provider_ok p -> getChildren stem localeCompare ws p e = Some (items, p')
  -> provider_ok p'.
Proof.
  intros Hok. unfold getChildren.
  set (p1 := if (List.length (nodesByRevision p) =? 0)%nat
             then rebuildGraph stem p ws else p).
  assert (H1 : provider_ok p1)
    by (unfold p1; destruct (_ =? 0)%nat; [apply ok_rebuild | exact Hok]).
  destruct e as [e|]; [|now apply ok_root_children].
  destruct (nodeId e =? "missingParents"); now intros [= _ <-].
Qed.

Lemma reachable_ok p : Reachable stem localeCompare p -> provider_ok p.
Proof.
  induction 1 as [|p ws _ IH|p rev _ IH|p e _ IH|p ws e items p' _ IH Hc].
  - apply ok_new.
  - apply ok_rebuild.
  - now apply ok_item.
  - now apply ok_parent.
  - now apply (ok_children ws p e items p').
Qed.

Lemma insert_by_label_perm x l :
  Permutation (x :: l) (insert_by_label localeCompare x l).
Proof.
  induction l as [|y l IH]; cbn [insert_by_label]; [reflexivity|].
  destruct (localeCompare (labelText x) (labelText y)); try reflexivity.
  rewrite perm_swap. now constructor.
Qed.

Lemma sort_by_label_perm l : Permutation l (sort_by_label localeCompare l).
Proof.
  induction l as [|x l IH]; cbn [sort_by_label]; [constructor|].
  rewrite <- insert_by_label_perm. now constructor.
Qed.

End TreeFacts.

(** X8: a second request for the item of a revision returns the item of
    the first request and leaves the provider as the first request left it;
    a request changes nothing but the cache, and does not change the item
    that any other revision gets. *)
Theorem item_request_idempotent (p : Provider) (rev : string) :
  let r := getTreeItemForRevision p rev in
  getTreeItemForRevision (snd r) rev = r
  /\ (nodesByRevision (snd r) = nodesByRevision p
      /\ childrenByParent (snd r) = childrenByParent p
      /\ bases (snd r) = bases p /\ heads (snd r) = heads p
      /\ missingParents (snd r) = missingParents p)
  /\ (forall rev', rev' <> rev ->
        fst (getTreeItemForRevision (snd r) rev') = fst (getTreeItemForRevision p rev')).
Proof.
  intros r. unfold r.
  destruct (item_request_cache p rev) as (c & Hs & Hnew & Hold).
  split; [|split].
  - rewrite Hs at 1. unfold getTreeItemForRevision at 1.
    cbn [with_cache itemCache]. rewrite Hnew, <- Hs.
    now destruct (getTreeItemForRevision p rev).
  - rewrite Hs. cbn. tauto.
  - intros rev' Hne. rewrite Hs. unfold getTreeItemForRevision.
    cbn [with_cache itemCache nodesByRevision].
    rewrite Hold by (intros E; apply rev_key_inj in E; congruence).
    destruct (map_get (rev_key rev') (itemCache p)); reflexivity.
Qed.

Lemma item_request_idempotent_witness :
  fst (getTreeItemForRevision
         (snd (getTreeItemForRevision new_provider "a1")) "b2")
  = fst (getTreeItemForRevision new_provider "b2").
Proof.
  apply (proj2 (proj2 (item_request_idempotent new_provider "a1")) "b2").
  discriminate.
Defined.

Section TreeClaims.

Variable stem : string -> string.
Variable localeCompare : string -> string -> comparison.

(** X9: no stale item is served.  After any sequence of calls of the
    public methods, the item of a revision carries the label and the file of
    the node now stored under it (the bare identifier and no file when there
    is none) and is collapsible exactly when the revision now has children;
    the group item carries the current number of missing parents. *)
Theorem reachable_items_current (p : Provider) (rev : string) :
  Reachable stem localeCompare p ->
  fst (getTreeItemForRevision p rev) = fresh_item p rev
  /\ fst (getMissingParentsGroupItem p) = group_item p.
Proof.
  intros H. apply reachable_ok in H. split.
  - now apply ok_item_current.
  - now apply ok_group_current.
Qed.

Lemma root_items_defined p parsed :
  built_from parsed p ->
  forall l, (forall b, In b l -> In b (bases p)) ->
  exists items,
    map_or_raise (root_item p) l = Some items
    /\ map nodeId items = map rev_key l
    /\ forall it, In it items -> descriptionText it = Some "base".
Proof.
  intros Hb. induction l as [|b l IH]; intros Hl.
  - exists []. cbn. repeat split; try tauto.
  - destruct (IH (fun x Hx => Hl x (or_intror Hx))) as (items & E & Hid & Hd).
    assert (Hin : In b (bases p)) by (apply Hl; now left).
    apply (built_bases_In _ _ Hb) in Hin. destruct Hin as (n & Hg & _).
    cbn [map_or_raise]. unfold root_item at 1. rewrite Hg, E.
    eexists. split; [reflexivity|]. cbn [map nodeId]. rewrite Hid.
    split; [reflexivity|]. intros it [<-|Hit]; [reflexivity | now apply Hd].
Qed.

(** X10: the root level never fails.  After any sequence of calls every
    base has a node, so the lookup with [!] in [getRootChildren] finds one;
    the level lists the group of missing parents first, when there is a
    missing parent, and then one item per base, in the order of [bases],
    each described as a base. *)
Theorem root_children_defined (p : Provider) :
  Reachable stem localeCompare p ->
  exists items p',
    getRootChildren p = Some (items, p')
    /\ map nodeId items
       = ((if (0 <? List.length (missingParents p))%nat then ["missingParents"] else [])
          ++ map rev_key (bases p))%list
    /\ forall it, In it items ->
         it = group_item p \/ descriptionText it = Some "base".
Proof.
  intros H. apply reachable_ok in H. pose proof H as Hok.
  destruct H as [[parsed Hb] _].
  destruct (root_items_defined p parsed Hb (bases p) (fun b Hb' => Hb'))
    as (items & E & Hid & Hd).
  unfold getRootChildren. rewrite E.
  destruct (0 <? List.length (missingParents p))%nat.
  - pose proof (ok_group_current p Hok) as Hg.
    destruct (getMissingParentsGroupItem p) as [g p0]. cbn [fst] in Hg. subst g.
    exists (group_item p :: items), p0. split; [reflexivity|].
    split; [cbn; now rewrite Hid|].
    intros it [<-|Hit]; [now left | right; now apply Hd].
  - exists items, p. split; [reflexivity|]. split; [exact Hid|].
    intros it Hit. right. now apply Hd.
Qed.

Lemma child_item_id p c : nodeId (child_item p c) = rev_key c.
Proof. unfold child_item. now destruct (map_get c (nodesByRevision p)). Qed.

(** X11: parent and children agree.  After any sequence of calls, when
    [getParent] gives a parent for the item of a revision, that parent is
    the item of the first parent the stored node names, and the revision is
    among the children that [getRevisionChildren] lists under it. *)
Theorem parent_lists_child (p p' : Provider) (e parent : AlembicTreeItem) (r : string) :
  Reachable stem localeCompare p ->
  nodeId e = rev_key r ->
  getParent p e = (Some parent, p') ->
  (exists n q rest,
      map_get r (nodesByRevision p) = Some n /\ downRevisions n = q :: rest
      /\ parent = fresh_item p q)
  /\ In (nodeId e) (map nodeId (getRevisionChildren localeCompare p' parent)).
Proof.
  intros Hr Hid Hp. apply reachable_ok in Hr. pose proof Hr as Hok.
  destruct Hr as [[parsed Hb] _].
  unfold getParent in Hp. rewrite Hid in Hp.
  unfold rev_key at 1 2 in Hp. cbn [append String.eqb Ascii.eqb Bool.eqb String.prefix] in Hp.
  cbn in Hp. fold (rev_key r) in Hp.
  change (String "r" (String "e" (String "v" (String ":" r)))) with (rev_key r) in Hp.
  rewrite rev_of_rev_key in Hp.
  destruct (map_get r (nodesByRevision p)) as [n|] eqn:Hg; [|discriminate Hp].
  destruct (downRevisions n) as [|q rest] eqn:Hd; [discriminate Hp|].
  pose proof (ok_item_current p q Hok) as Hcur.
  destruct (item_request_cache p q) as (c & Hs & _).
  destruct (getTreeItemForRevision p q) as [it p0]. cbn [fst snd] in *.
  injection Hp as <- <-. subst it p0. split; [now exists n, q, rest|].
  unfold getRevisionChildren. cbn [fresh_item nodeId]. rewrite rev_of_rev_key, Hid.
  apply (Permutation_in _ (Permutation_map nodeId (sort_by_label_perm localeCompare _))).
  rewrite map_map. apply in_map_iff. exists r. split; [apply child_item_id|].
  assert (Hc : children_of (with_cache p c) q = children_of p q) by reflexivity.
  rewrite Hc. apply (built_children_In _ _ Hb). exists n.
  apply (built_stored _ _ Hb) in Hg. destruct (built_origin _ _ Hb _ _ Hg) as [Hn Hrev].
  repeat split; [exact Hn | exact Hrev | rewrite Hd; now left].
Qed.

Lemma missing_item_parent p m :
  provider_ok p -> fst (getParent p (missing_item m)) = Some (group_item p).
Proof.
  intros Hok. unfold getParent, missing_item. cbn [nodeId].
  assert (E1 : ("missing:" ++ m =? "missingParents") = false) by reflexivity.
  assert (E2 : String.prefix "missing:" ("missing:" ++ m) = true).
  { cbn. now destruct m. }
  rewrite E1, E2. pose proof (ok_group_current p Hok) as Hg.
  destruct (getMissingParentsGroupItem p) as [g p0]. cbn [fst] in *. now subst.
Qed.

(** X12: the items of the missing parents.  After any sequence of calls,
    the parent of the item of a missing parent is the group item, whatever
    the identifier, and neither of the two opens a file.  Asked for the
    children of the group item, [getChildren] first rebuilds the graph when
    no node is stored, and leaves the provider as it is otherwise.  Of the
    provider [p1] that the call leaves: the items listed are one per entry
    of its [missingParents], labelled by them in order; the parent of each
    is its group item; that group item is the one it hands out from then
    on, and the number it shows is the number of items listed.  When a
    node is stored, [p1] is the provider of the call, so the number shown
    by the item passed in is the number of items listed; after a rebuild
    the item passed in is an item of the provider before, and may show
    another number. *)
Theorem missing_items_under_group (p : Provider) (ws : Workspace) (m : string) :
  Reachable stem localeCompare p ->
  let p1 := if (List.length (nodesByRevision p) =? 0)%nat
            then rebuildGraph stem p ws else p in
  fst (getParent p (missing_item m)) = Some (group_item p)
  /\ opens (missing_item m) = None /\ opens (group_item p) = None
  /\ (nodesByRevision p <> [] -> p1 = p)
  /\ (nodesByRevision p = [] -> p1 = rebuildGraph stem p ws)
  /\ exists items,
       getChildren stem localeCompare ws p (Some (group_item p)) = Some (items, p1)
       /\ map labelText items = missingParents p1
       /\ descriptionText (group_item p1) = Some (decimal (List.length items))
       /\ fst (getMissingParentsGroupItem p1) = group_item p1
       /\ forall it, In it items -> fst (getParent p1 it) = Some (group_item p1).
Proof.
  intros Hr p1. apply reachable_ok in Hr.
  assert (Hok1 : provider_ok p1).
  { unfold p1. destruct (List.length (nodesByRevision p) =? 0)%nat;
      [apply ok_rebuild | exact Hr]. }
  split; [now apply missing_item_parent|].
  split; [reflexivity|]. split; [reflexivity|].
  split.
  { intros Hne. unfold p1. destruct (nodesByRevision p); [congruence | reflexivity]. }
  split.
  { intros He. unfold p1. now rewrite He. }
  exists (map missing_item (missingParents p1)).
  split; [reflexivity|].
  split; [rewrite map_map; cbn [missing_item labelText]; apply map_id|].
  split; [now rewrite length_map|].
  split; [now apply ok_group_current|].
  intros it Hin. apply in_map_iff in Hin. destruct Hin as (x & <- & _).
  now apply missing_item_parent.
Qed.

(** X13: the children listed under a revision.  After any sequence of
    calls, the items that [getRevisionChildren] returns are, up to the order
    of the sort, the items of the children of the revision, one each: their
    identifiers are distinct, every one has a stored node (none is marked
    as a missing file) and opens the file of that node. *)
Theorem revision_children_items (p : Provider) (e : AlembicTreeItem) :
  Reachable stem localeCompare p ->
  let items := getRevisionChildren localeCompare p e in
  Permutation (map nodeId items)
              (map rev_key (children_of p (rev_of_nodeId (nodeId e))))
  /\ NoDup (map nodeId items)
  /\ forall it, In it items ->
       exists c n, nodeId it = rev_key c
                   /\ map_get c (nodesByRevision p) = Some n
                   /\ itemFilePath it = filePath n
                   /\ opens it = (match filePath n with "" => None | f => Some f end)
                   /\ descriptionText it <> Some "missing file".
Proof.
  intros Hr items. apply reachable_ok in Hr. destruct Hr as [[parsed Hb] _].
  set (rev := rev_of_nodeId (nodeId e)) in *.
  assert (Hperm : Permutation (map nodeId items) (map rev_key (children_of p rev))).
  { unfold items, getRevisionChildren. fold rev.
    rewrite <- (Permutation_map nodeId (sort_by_label_perm localeCompare _)), map_map.
    erewrite map_ext; [reflexivity|]. intros c. apply child_item_id. }
  split; [exact Hperm|]. split.
  - apply (Permutation_NoDup (Permutation_sym Hperm)).
    apply NoDup_map_injective; [intros a b; apply rev_key_inj|].
    rewrite (built_children _ _ Hb). apply js_sort_NoDup, uniq_NoDup.
  - intros it Hit. unfold items, getRevisionChildren in Hit. fold rev in Hit.
    apply (Permutation_in _ (Permutation_sym (sort_by_label_perm localeCompare _))) in Hit.
    apply in_map_iff in Hit. destruct Hit as (c & <- & Hc).
    pose proof (built_child_stored _ _ Hb _ _ Hc) as Hs. unfold map_has in Hs.
    destruct (map_get c (nodesByRevision p)) as [n|] eqn:Hg; [|discriminate Hs].
    exists c, n. unfold child_item, opens. rewrite Hg.
    cbn [nodeId itemFilePath descriptionText].
    repeat split. destruct (downRevisions n); cbn; discriminate.
Qed.


End TreeClaims.

Lemma reachable_items_current_witness :
  let p := rebuildGraph whole_path new_provider
             (Files [("v/a1.py", Some "revision = 'a1'")]) in
  Reachable whole_path String.compare p
  /\ fst (getTreeItemForRevision p "a1")
     = mkItem "rev:a1" "a1 (v/a1.py)" "v/a1.py" NotCollapsible "migration" None.
Proof.
  intros p.
  assert (Hr : Reachable whole_path String.compare p) by apply R_rebuild, R_new.
  split; [exact Hr|].
  rewrite (proj1 (reachable_items_current whole_path String.compare p "a1" Hr)).
  vm_compute. reflexivity.
Defined.

Lemma root_children_defined_witness :
  let p := rebuildGraph whole_path new_provider
             (Files [("v/a1.py", Some "revision = 'a1'")]) in
  exists items p', getRootChildren p = Some (items, p').
Proof.
  intros p.
  assert (Hr : Reachable whole_path String.compare p) by apply R_rebuild, R_new.
  destruct (root_children_defined whole_path String.compare p Hr) as (items & p' & H & _).
  now exists items, p'.
Defined.

Lemma parent_lists_child_witness :
  let p := rebuildGraph whole_path new_provider
             (Files [("a1.py", Some "revision = 'a1'");
                     ("b2.py", Some ("revision = 'b2'" ++ LF ++ "down_revision = 'a1'"))]) in
  In "rev:b2"
     (map nodeId
        (getRevisionChildren String.compare
           (snd (getParent p (fresh_item p "b2"))) (fresh_item p "a1"))).
Proof.
  intros p.
  assert (Hr : Reachable whole_path String.compare p) by apply R_rebuild, R_new.
  assert (Hp : getParent p (fresh_item p "b2")
               = (Some (fresh_item p "a1"), snd (getParent p (fresh_item p "b2"))))
    by (vm_compute; reflexivity).
  exact (proj2 (parent_lists_child whole_path String.compare p
                  (snd (getParent p (fresh_item p "b2")))
                  (fresh_item p "b2") (fresh_item p "a1") "b2"
                  Hr eq_refl Hp)).
Defined.

Lemma missing_items_under_group_witness :
  let ws := Files [("d4.py", Some ("revision = 'd4'" ++ LF ++ "down_revision = 'zzz'"))] in
  let p1 := rebuildGraph whole_path new_provider ws in
  descriptionText (group_item new_provider) = Some "0"
  /\ exists items,
       getChildren whole_path String.compare ws new_provider (Some (group_item new_provider))
       = Some (items, p1)
       /\ map labelText items = ["zzz"]
       /\ descriptionText (group_item p1) = Some (decimal (List.length items))
       /\ descriptionText (group_item p1) = Some "1"
       /\ (forall it, In it items -> fst (getParent p1 it) = Some (group_item p1))
       /\ exists items',
            getChildren whole_path String.compare NoWorkspaceFolder p1 (Some (group_item p1))
            = Some (items', p1)
            /\ descriptionText (group_item p1) = Some (decimal (List.length items')).
Proof.
  intros ws p1. split; [reflexivity|].
  destruct (missing_items_under_group whole_path String.compare new_provider
              ws "zzz" (R_new whole_path String.compare))
    as (_ & _ & _ & _ & Hp & items & Hc & Hl & Hd & _ & Hpar).
  cbv zeta in Hp, Hc, Hl, Hd, Hpar.
  rewrite (Hp eq_refl) in Hc, Hl, Hd, Hpar. fold ws in Hc, Hl, Hd, Hpar.
  fold p1 in Hc, Hl, Hd, Hpar.
  exists items. split; [exact Hc|]. split; [exact Hl|]. split; [exact Hd|].
  split; [reflexivity|]. split; [exact Hpar|].
  assert (Hr : Reachable whole_path String.compare p1)
    by apply R_rebuild, R_new.
  destruct (missing_items_under_group whole_path String.compare p1
              NoWorkspaceFolder "zzz" Hr)
    as (_ & _ & _ & Hs & _ & items' & Hc' & _ & Hd' & _).
  cbv zeta in Hs, Hc', Hd'.
  assert (Hne : nodesByRevision p1 <> []) by (vm_compute; discriminate).
  rewrite (Hs Hne) in Hc', Hd'.
  exists items'. split; [exact Hc' | exact Hd'].
Defined.

Lemma revision_children_items_witness :
  let p := rebuildGraph whole_path new_provider
             (Files [("a1.py", Some "revision = 'a1'");
                     ("b2.py", Some ("revision = 'b2'" ++ LF ++ "down_revision = 'a1'"))]) in
  NoDup (map nodeId (getRevisionChildren String.compare p (fresh_item p "a1"))).
Proof.
  intros p.
  assert (Hr : Reachable whole_path String.compare p) by apply R_rebuild, R_new.
  exact (proj1 (proj2 (revision_children_items whole_path String.compare p
                         (fresh_item p "a1") Hr))).
Defined.


(** * Properties of the graph view *)

Local Open Scope string_scope.

Lemma in_node_elements graph d :
  In (NodeElement d) (graph_elements graph)
  <-> exists k n, In (k, n) (nodes graph) /\ node_element graph (k, n) = NodeElement d.
Proof.
  unfold graph_elements. rewrite in_app_iff, !in_map_iff. split.
  - intros [([k n] & E & Hin)|(e & E & _)]; [now exists k, n | discriminate E].
  - intros (k & n & Hin & E). left. now exists (k, n).
Qed.

Lemma in_edge_elements graph d :
  In (EdgeElement d) (graph_elements graph)
  <-> exists e, In e (rendered_edges graph) /\ edge_element e = EdgeElement d.
Proof.
  unfold graph_elements. rewrite in_app_iff, !in_map_iff. split.
  - intros [([k n] & E & _)|(e & E & Hin)]; [discriminate E | now exists e].
  - intros (e & Hin & E). right. now exists e.
Qed.

(** X14: the flags of a node of the rendered graph.  Every node element
    stands for a stored node, under the identifier [rev:<id>]; it is marked
    as a base exactly when that node has no parent, as a head exactly when
    no stored node names it as a parent, and as a merge exactly when it has
    two parents or more. *)
Theorem node_element_flags (p : Provider) (parsed : list MigrationNode) (d : NodeData) :
  let g := rebuildFrom p parsed in
  In (NodeElement d) (graph_elements (getGraphData g)) ->
  exists n,
    map_get (nd_rev d) (nodesByRevision g) = Some n
    /\ nd_id d = safeId (nd_rev d) /\ nd_filePath d = filePath n
    /\ (nd_isBase d = true <-> downRevisions n = [])
    /\ (nd_isHead d = true
        <-> forall k' n', In (k', n') (nodesByRevision g) -> ~ In (nd_rev d) (downRevisions n'))
    /\ (nd_isMerge d = true <-> 2 <= List.length (downRevisions n)).
Proof.
  intros g Hin. pose proof (built_rebuildFrom p parsed) as Hb. fold g in Hb.
  apply in_node_elements in Hin. destruct Hin as (k & n & Hin & E).
  cbn [nodes getGraphData] in Hin. injection E as <-.
  cbn [nd_rev nd_id nd_filePath nd_isBase nd_isHead nd_isMerge gd_bases gd_heads
       getGraphData].
  pose proof Hin as Hg. apply (built_stored _ _ Hb) in Hg.
  exists n. split; [exact Hg|]. do 2 (split; [reflexivity|]).
  split; [|split].
  - rewrite set_has_In. unfold set_of_list. rewrite set_of_list_acc_In.
    rewrite (built_bases_In _ _ Hb). split.
    + intros [[]|(n' & Hg' & Hd)]. congruence.
    + intros Hd. right. now exists n.
  - rewrite set_has_In. unfold set_of_list. rewrite set_of_list_acc_In.
    rewrite (built_heads_In _ _ Hb). split.
    + intros [[]|[_ H]]. exact H.
    + intros H. right. split; [|exact H]. unfold map_has. now rewrite Hg.
  - rewrite Nat.ltb_lt. lia.
Qed.

Lemma node_element_flags_witness :
  let g := rebuildFrom new_provider [node "a1" []; node "b2" ["a1"]] in
  exists n,
    map_get "a1" (nodesByRevision g) = Some n /\ downRevisions n = [].
Proof.
  intros g.
  destruct (node_element_flags new_provider [node "a1" []; node "b2" ["a1"]]
              (mkNodeData "rev:a1" "a1" (nodeLabel "a1" "a1.py") "a1 (a1)" "a1.py"
                          true false false))
    as (n & Hg & _ & _ & Hbase & _).
  - vm_compute. auto.
  - exists n. split; [exact Hg|]. now apply Hbase.
Defined.

Lemma safeId_inj r r' : safeId r = safeId r' -> r = r'.
Proof. unfold safeId. cbn. now intros [= ->]. Qed.

Lemma node_ids_app a b : node_ids (a ++ b) = (node_ids a ++ node_ids b)%list.
Proof. unfold node_ids. apply flat_map_app. Qed.

(** X15: the element list is well formed for the page.  The identifiers
    of the node elements are distinct, and the source and the target of
    every edge element are identifiers of node elements of the list. *)
Theorem edge_elements_join_nodes (p : Provider) (parsed : list MigrationNode) :
  let els := graph_elements (getGraphData (rebuildFrom p parsed)) in
  NoDup (node_ids els)
  /\ forall d, In (EdgeElement d) els ->
       In (ed_source d) (node_ids els) /\ In (ed_target d) (node_ids els).
Proof.
  intros els. pose proof (built_rebuildFrom p parsed) as Hb.
  set (g := rebuildFrom p parsed) in *.
  assert (Hids : node_ids els = map safeId (map_keys (nodesByRevision g))).
  { unfold els, graph_elements. rewrite node_ids_app. cbn [nodes getGraphData].
    replace (node_ids (map edge_element (rendered_edges (getGraphData g)))) with (@nil string).
    - rewrite app_nil_r. unfold node_ids, map_keys.
      induction (nodesByRevision g) as [|[k n] m IH]; cbn; [reflexivity | now rewrite <- IH].
    - induction (rendered_edges (getGraphData g)) as [|e l IH]; cbn; [reflexivity | exact IH]. }
  rewrite Hids. split.
  - apply NoDup_map_injective; [intros a b; apply safeId_inj|].
    now apply built_NoDup with parsed.
  - intros d Hd. apply in_edge_elements in Hd. destruct Hd as (e & He & E).
    injection E as <-. cbn [ed_source ed_target].
    unfold rendered_edges in He. apply filter_In in He. destruct He as [_ Hc].
    cbn [nodes getGraphData] in Hc.
    destruct (map_has (from e) (nodesByRevision g)) eqn:Hf; [|discriminate Hc].
    destruct (map_has (to e) (nodesByRevision g)) eqn:Ht; [|discriminate Hc].
    split; apply in_map; now apply map_has_keys.
Qed.

Lemma edge_elements_join_nodes_witness :
  let els := graph_elements
               (getGraphData (rebuildFrom new_provider [node "a1" []; node "b2" ["a1"]])) in
  In "rev:a1" (node_ids els) /\ In "rev:b2" (node_ids els).
Proof.
  intros els.
  apply (proj2 (edge_elements_join_nodes new_provider [node "a1" []; node "b2" ["a1"]])
               (mkEdgeData "edge:a1->b2" "rev:a1" "rev:b2")).
  vm_compute. auto.
Defined.

(** ** [prettySlug] *)

Lemma path_sep_here pv s :
  match_here no_flags re_path_sep pv s
  = match s with
    | String c s' => if is_path_sep c then Some (mkState (Some c) s' None) else None
    | EmptyString => None
    end.
Proof. now destruct s. Qed.

Lemma underscore_here pv s :
  match_here no_flags re_underscore pv s
  = match s with
    | String c s' => if (c =? "_")%char then Some (mkState (Some c) s' None) else None
    | EmptyString => None
    end.
Proof.
  destruct s as [|c s]; [reflexivity|].
  unfold match_here, re_underscore. cbn [rmatch rest cap]. unfold chr_matches.
  cbn [ignoreCase no_flags]. now rewrite Ascii.eqb_sym.
Qed.

Lemma consumed_one pv c s pv' cp :
  consumed (mkState pv (String c s) None) (mkState pv' s cp) = 1.
Proof. unfold consumed. cbn [rest String.length]. lia. Qed.

Lemma replace_underscores s : forall pv,
  replace_from no_flags re_underscore " " pv s 0 = underscores_to_spaces s.
Proof.
  induction s as [|c s IH]; intros pv.
  - now rewrite replace_from_nil, underscore_here.
  - rewrite replace_from_cons, underscore_here. cbn [underscores_to_spaces].
    destruct (c =? "_")%char.
    + rewrite consumed_one, IH. reflexivity.
    + now rewrite IH.
Qed.

Lemma pop_cons x l : pop (x :: l) = match pop l with Some y => Some y | None => Some x end.
Proof.
  unfold pop. cbn [rev]. destruct (rev l) as [|y r]; reflexivity.
Qed.

Lemma split_from_last s : forall pv cur,
  pop (split_from no_flags re_path_sep pv s 0 cur)
  = Some (match after_last_sep s with Some t => t | None => cur ++ s end).
Proof.
  induction s as [|c s IH]; intros pv cur.
  - cbn. now rewrite append_nil_r.
  - cbn [split_from after_last_sep]. rewrite path_sep_here.
    destruct (is_path_sep c).
    + rewrite consumed_one, pop_cons, IH.
      now destruct (after_last_sep s).
    + rewrite IH, append_assoc. now destruct (after_last_sep s).
Qed.

Lemma after_last_sep_none s :
  str_all (fun c => negb (is_path_sep c)) s = true -> after_last_sep s = None.
Proof.
  induction s as [|c s IH]; [reflexivity|]. cbn [str_all after_last_sep].
  intros H. apply andb_true_iff in H. destruct H as [Hc Hs].
  rewrite (IH Hs). apply negb_true_iff in Hc. now rewrite Hc.
Qed.

Lemma after_last_sep_app dir sep name :
  is_path_sep sep = true ->
  str_all (fun c => negb (is_path_sep c)) name = true ->
  after_last_sep (dir ++ String sep name) = Some name.
Proof.
  intros Hsep Hname. induction dir as [|c dir IH]; cbn [append after_last_sep].
  - now rewrite (after_last_sep_none _ Hname), Hsep.
  - now rewrite IH.
Qed.

Lemma split_pop path :
  pop (split no_flags re_path_sep path)
  = Some (match after_last_sep path with Some t => t | None => path end).
Proof.
  destruct path as [|c s]; [reflexivity|].
  unfold split. now rewrite split_from_last.
Qed.

Lemma prettySlug_basename_helper dir name sep :
  is_path_sep sep = true -> name <> "" ->
  str_all (fun c => negb (is_path_sep c)) name = true ->
  prettySlug (dir ++ String sep name) = prettySlug name.
Proof.
  intros Hsep Hne Hname. unfold prettySlug.
  rewrite !split_pop, (after_last_sep_app _ _ _ Hsep Hname),
    (after_last_sep_none _ Hname).
  destruct name; [congruence | reflexivity].
Qed.

(** X16: the slug of a path is made from its last segment only, and holds
    no underscore: for a file name that is not empty and has no separator,
    any directory part, ended by a slash or a backslash, leaves the slug as
    it is. *)
Theorem prettySlug_of_file_name (dir name path : string) (sep : ascii) :
  str_all (fun c => negb (c =? "_")%char) (prettySlug path) = true
  /\ (is_path_sep sep = true -> name <> "" ->
      str_all (fun c => negb (is_path_sep c)) name = true ->
      prettySlug (dir ++ String sep name) = prettySlug name).
Proof.
  split.
  - unfold prettySlug, replace_all. rewrite replace_underscores.
    generalize (replace_first flag_i re_py_ext ""
                  match pop (split no_flags re_path_sep path) with
                  | Some "" => path
                  | Some b => b
                  | None => path
                  end).
    induction s as [|c s IH]; [reflexivity|]. cbn [underscores_to_spaces str_all].
    rewrite IH, andb_true_r. destruct (c =? "_")%char eqn:E; [reflexivity|].
    now rewrite E.
  - apply prettySlug_basename_helper.
Qed.

Lemma prettySlug_of_file_name_witness :
  prettySlug "migrations/versions/a1_first_rev.py" = prettySlug "a1_first_rev.py".
Proof.
  apply (proj2 (prettySlug_of_file_name "migrations/versions" "a1_first_rev.py" "" "/"));
    [reflexivity | discriminate | reflexivity].
Defined.

Lemma py_ext_here pv s :
  match_here flag_i re_py_ext pv s
  = match s with
    | String a (String b (String c EmptyString)) =>
        if (("." =? canonicalize a) && ("P" =? canonicalize b)
            && ("Y" =? canonicalize c))%char
        then Some (mkState (Some c) "" None) else None
    | _ => None
    end.
Proof.
  unfold match_here, re_py_ext.
  destruct s as [|a [|b [|c [|d s]]]]; cbn [rmatch rest cap prev];
    unfold chr_matches, at_eol; cbn [ignoreCase flag_i multiline rest andb];
    change (canonicalize ".") with "."%char;
    change (canonicalize "p") with "P"%char;
    change (canonicalize "y") with "Y"%char;
    repeat match goal with
           | |- context [(?x =? ?y)%char] => destruct (x =? y)%char
           end; reflexivity.
Qed.

Lemma substring_none n s : substring n 0 s = "".
Proof.
  revert n. induction s as [|c s IH]; intros [|n]; cbn; auto.
Qed.

Lemma search_py_ext stem ext : forall pv i,
  String.length ext = 3 -> upper ext = ".PY" ->
  search flag_i re_py_ext pv (stem ++ ext) i
  = Some (mkMatch (i + String.length stem) ext None).
Proof.
  intros pv i Hlen Hup. revert pv i.
  induction stem as [|x stem IH]; intros pv i.
  - cbn [append String.length]. rewrite Nat.add_0_r.
    destruct ext as [|a [|b [|c [|d e]]]]; try discriminate Hlen.
    cbn [upper] in Hup. injection Hup as Ha Hb Hc.
    cbn [search]. rewrite py_ext_here, Ha, Hb, Hc. cbn [Ascii.eqb Bool.eqb andb].
    unfold matched_text, consumed. cbn [rest cap String.length Nat.sub substring].
    reflexivity.
  - cbn [append search String.length]. rewrite py_ext_here.
    assert (Hn : match String x (stem ++ ext) with
                 | String a (String b (String c EmptyString)) =>
                     if (("." =? canonicalize a) && ("P" =? canonicalize b)
                         && ("Y" =? canonicalize c))%char
                     then Some (mkState (Some c) "" None) else None
                 | _ => None
                 end = None).
    { assert (L : 4 <= String.length (String x (stem ++ ext)))
        by (cbn [String.length]; rewrite length_append; lia).
      destruct (stem ++ ext) as [|b [|c [|d r]]]; cbn [String.length] in L;
        try reflexivity; lia. }
    rewrite Hn, IH. f_equal. f_equal. lia.
Qed.

Lemma ext_chars_not_sep c :
  canonicalize c = "."%char \/ canonicalize c = "P"%char \/ canonicalize c = "Y"%char ->
  is_path_sep c = false.
Proof.
  destruct c as [[] [] [] [] [] [] [] []]; vm_compute; intuition congruence.
Qed.

(** X17: the slug of a Python file is its name without the final [.py],
    in any case of the two letters, with every underscore turned into a
    space, whatever directories come before the name. *)
Theorem prettySlug_of_python_file (dir stem ext : string) (sep : ascii) :
  String.length ext = 3 -> upper ext = ".PY" ->
  str_all (fun c => negb (is_path_sep c)) stem = true ->
  is_path_sep sep = true ->
  prettySlug (stem ++ ext) = underscores_to_spaces stem
  /\ prettySlug (dir ++ String sep (stem ++ ext)) = underscores_to_spaces stem.
Proof.
  intros Hlen Hup Hstem Hsep.
  assert (Hname : str_all (fun c => negb (is_path_sep c)) (stem ++ ext) = true).
  { rewrite str_all_append, Hstem.
    destruct ext as [|a [|b [|c [|d e]]]]; try discriminate Hlen.
    cbn [upper] in Hup. injection Hup as Ha Hb Hc. cbn [str_all andb].
    now rewrite !ext_chars_not_sep by auto. }
  assert (Hne : stem ++ ext <> "").
  { destruct stem; [|discriminate]. destruct ext; [discriminate Hlen | discriminate]. }
  assert (H1 : prettySlug (stem ++ ext) = underscores_to_spaces stem).
  { unfold prettySlug. rewrite split_pop, (after_last_sep_none _ Hname).
    replace (match stem ++ ext with "" => stem ++ ext | String _ _ => stem ++ ext end)
      with (stem ++ ext) by (now destruct (stem ++ ext)).
    unfold replace_first, exec. rewrite (search_py_ext stem ext None 0 Hlen Hup).
    cbn [m_index m_text Nat.add].
    rewrite substring_prefix, length_append.
    replace (String.length stem + String.length ext
             - (String.length stem + String.length ext)) with 0 by lia.
    rewrite substring_none. cbn [append]. rewrite append_nil_r.
    unfold replace_all. apply replace_underscores. }
  split; [exact H1|].
  now rewrite (prettySlug_basename_helper dir (stem ++ ext) sep Hsep Hne Hname).
Qed.

Lemma prettySlug_of_python_file_witness :
  prettySlug "migrations/versions/a1_first_rev.PY" = "a1 first rev".
Proof.
  apply (proj2 (prettySlug_of_python_file "migrations/versions" "a1_first_rev" ".PY" "/"
                  eq_refl eq_refl eq_refl eq_refl)).
Defined.

(** * Further properties of the parser *)

Local Open Scope string_scope.

Lemma trim_commute u : trimEnd (trimStart u) = trimStart (trimEnd u).
Proof.
  induction u as [|c u IH]; [reflexivity|].
  rewrite trimEnd_cons. cbn [trimStart]. destruct (is_space c) eqn:Hc.
  - rewrite IH. destruct (trimEnd u) as [|x t]; cbn [trimStart]; [reflexivity|].
    now rewrite Hc.
  - rewrite trimEnd_cons. destruct (trimEnd u) as [|x t]; cbn [trimStart]; now rewrite Hc.
Qed.

Lemma drop_while_app_stop p a b h r :
  drop_while p a = String h r -> drop_while p (a ++ b) = String h (r ++ b).
Proof.
  induction a as [|c a IH]; cbn [drop_while append]; [discriminate|].
  destruct (p c); [exact IH | now intros [= -> ->]].
Qed.

Lemma drop_while_app_all p a b :
  str_all p a = true -> drop_while p (a ++ b) = drop_while p b.
Proof.
  induction a as [|c a IH]; cbn [str_all drop_while append]; [reflexivity|].
  intros H. apply andb_true_iff in H. destruct H as [-> H]. now apply IH.
Qed.

Lemma str_all_drop_while q p s : str_all q s = true -> str_all q (drop_while p s) = true.
Proof.
  induction s as [|c s IH]; cbn [str_all drop_while]; [reflexivity|].
  intros H. destruct (p c); [|exact H].
  apply andb_true_iff in H. now apply IH.
Qed.

Lemma spaces_have_no_hash s : str_all is_space s = true -> has_space_hash s = false.
Proof.
  induction s as [|c s IH]; [reflexivity|]. cbn [str_all has_space_hash].
  intros H. apply andb_true_iff in H. destruct H as [Hc Hs]. rewrite (IH Hs), orb_false_r.
  destruct s as [|h t]; [now rewrite andb_false_r|].
  cbn [str_all] in Hs. apply andb_true_iff in Hs. destruct Hs as [Hh _].
  now rewrite (space_not_hash _ Hh), andb_false_r.
Qed.

Lemma cut_with_comment s : forall w c,
  single_line s = true -> single_line c = true ->
  is_space w = true -> is_dot w = true ->
  trimEnd (cut_comment (s ++ String w (String "#" c))) = trimEnd (cut_comment s).
Proof.
  unfold single_line. induction s as [|x s IH]; intros w c Hs Hc Hw Hd.
  - cbn [append cut_comment comment_at drop_while]. rewrite Hw.
    cbn. now rewrite Hc.
  - cbn [str_all] in Hs. apply andb_true_iff in Hs. destruct Hs as [_ Hs].
    specialize (IH w c Hs Hc Hw Hd).
    cbn [append cut_comment comment_at].
    destruct (is_space x) eqn:Hx; cbn [andb].
    + destruct (drop_while is_space s) as [|h r] eqn:D.
      * apply drop_while_nil_all in D.
        rewrite (drop_while_app_all _ _ _ D). cbn [drop_while]. rewrite Hw.
        cbn [drop_while]. replace (is_space "#") with false by reflexivity.
        cbn [Ascii.eqb Bool.eqb andb]. rewrite Hc.
        rewrite (cut_comment_fixed _ (spaces_have_no_hash _ D)).
        change (trimEnd "") with "".
        symmetry. apply trimEnd_nil. cbn [str_all]. now rewrite Hx, D.
      * rewrite (drop_while_app_stop _ _ _ _ _ D), str_all_append.
        pose proof (str_all_drop_while is_dot is_space s Hs) as Hr. rewrite D in Hr.
        cbn [str_all] in Hr |- *. apply andb_true_iff in Hr. destruct Hr as [_ Hr].
        rewrite Hr, Hc, Hd. replace (is_dot "#") with true by reflexivity.
        cbn [andb].
        destruct (h =? "#")%char; cbn [andb]; [reflexivity|].
        rewrite !trimEnd_cons, IH. reflexivity.
    + rewrite !trimEnd_cons, IH. reflexivity.
Qed.

Lemma asArrayDownRevision_normalized r r' :
  normalizeRhs r = normalizeRhs r' ->
  asArrayDownRevision (Some r) = asArrayDownRevision (Some r').
Proof.
  intros H.
  rewrite !asArrayDownRevision_by_rules.
  unfold asArrayDownRevision_rules, parent_rules.
  assert (E0 : normalizeRhs "" = "") by reflexivity.
  destruct r as [|a r], r' as [|a' r']; try reflexivity.
  - rewrite E0 in H. rewrite <- H. reflexivity.
  - rewrite E0 in H. rewrite H. reflexivity.
  - cbv zeta. now rewrite H.
Qed.

Lemma trailing_comment_helper s c w :
  single_line s = true -> single_line c = true ->
  is_space w = true -> is_dot w = true ->
  normalizeRhs (s ++ String w (String "#" c)) = normalizeRhs s
  /\ parseRevision (s ++ String w (String "#" c)) = parseRevision s
  /\ asArrayDownRevision (Some (s ++ String w (String "#" c)))
     = asArrayDownRevision (Some s).
Proof.
  intros Hs Hc Hw Hd.
  assert (H : normalizeRhs (s ++ String w (String "#" c)) = normalizeRhs s).
  { rewrite !normalizeRhs_plain. unfold trim at 2 4.
    now rewrite !trim_commute, (cut_with_comment s w c Hs Hc Hw Hd). }
  split; [exact H|]. split.
  - now rewrite !parseRevision_plain, H.
  - now apply asArrayDownRevision_normalized.
Qed.

(** X18: a trailing inline comment does not change what is read.  For a
    right-hand side [s] on one line, appending white space (other than a
    line terminator), [#] and any text without line terminator leaves the
    normalized value as it is, and with it the identifier and the parent
    list read from it. *)
Theorem trailing_comment_ignored (s c : string) (w : ascii) :
  single_line s = true -> single_line c = true ->
  is_space w = true -> is_dot w = true ->
  normalizeRhs (s ++ String w (String "#" c)) = normalizeRhs s
  /\ parseRevision (s ++ String w (String "#" c)) = parseRevision s
  /\ asArrayDownRevision (Some (s ++ String w (String "#" c)))
     = asArrayDownRevision (Some s).
Proof.
  intros Hs Hc Hw Hd.
  assert (H : normalizeRhs (s ++ String w (String "#" c)) = normalizeRhs s).
  { rewrite !normalizeRhs_plain. unfold trim at 2 4.
    now rewrite !trim_commute, (cut_with_comment s w c Hs Hc Hw Hd). }
  split; [exact H|]. split.
  - now rewrite !parseRevision_plain, H.
  - now apply asArrayDownRevision_normalized.
Qed.

Lemma trailing_comment_ignored_witness :
  parseRevision "'a1b2c3'  # first revision" = parseRevision "'a1b2c3' ".
Proof.
  apply (trailing_comment_ignored "'a1b2c3' " " first revision" " ");
    reflexivity.
Defined.

Lemma word_not_quote c : is_word c = true -> not_quote c = true.
Proof. by_cases_on_char c. Qed.

Lemma tokens_from_clean s : forall opened x,
  (forall acc, opened = Some acc -> str_all not_quote acc = true) ->
  In x (tokens_from opened s) -> x <> "" /\ str_all not_quote x = true.
Proof.
  induction s as [|c s IH]; intros opened x Hacc; cbn [tokens_from]; [intros []|].
  destruct opened as [acc|].
  - destruct (is_quote c) eqn:Hq.
    + destruct acc as [|a acc'].
      * apply IH. now intros ? [= <-].
      * intros [<-|Hin]; [split; [discriminate | now apply Hacc]|].
        revert Hin. apply IH. discriminate.
    + apply IH. intros ? [= <-]. rewrite str_all_append, (Hacc acc eq_refl).
      cbn. unfold not_quote. now rewrite Hq.
  - destruct (is_quote c); apply IH; [now intros ? [= <-] | discriminate].
Qed.

(** X19: a parent identifier is never empty and never holds a quote
    character, whatever the right-hand side. *)
Theorem parent_ids_clean (raw : option string) (x : string) :
  In x (asArrayDownRevision raw) -> x <> "" /\ str_all not_quote x = true.
Proof.
  rewrite asArrayDownRevision_by_rules. unfold asArrayDownRevision_rules, parent_rules.
  destruct raw as [[|a r]|]; try (intros []).
  set (v := normalizeRhs (String a r)). cbv zeta.
  destruct (is_none_text v); [intros []|].
  destruct (unquote v) as [inner|] eqn:U.
  - intros [<-|[]]. split; [now apply unquote_nonempty in U|].
    destruct v as [|q t]; cbn [unquote] in U; [discriminate|].
    destruct (is_quote q); [|discriminate].
    pose proof (take_while_all not_quote t) as Ht.
    destruct (take_while not_quote t); [discriminate|].
    destruct (drop_while not_quote t) as [|? [|? ?]]; try discriminate.
    now injection U as <-.
  - assert (Hb : is_bare_token v = true -> x = v -> x <> "" /\ str_all not_quote x = true).
    { intros Hb ->. destruct v as [|b t]; [discriminate|]. split; [discriminate|].
      cbn [is_bare_token] in Hb. clear U. revert Hb. generalize (String b t).
      induction s as [|y s IH]; [reflexivity|]. cbn [str_all].
      intros H. apply andb_true_iff in H. destruct H as [Hy Hs].
      now rewrite (word_not_quote _ Hy), IH. }
    destruct (quoted_tokens v) as [|t ts] eqn:T.
    + destruct (is_bare_token v) eqn:B; [|intros []].
      intros [<-|[]]. now apply Hb.
    + cbn [negb orb]. rewrite <- T. unfold quoted_tokens.
      apply tokens_from_clean. discriminate.
Qed.

Lemma parent_ids_clean_witness :
  "a1"%string <> "" /\ str_all not_quote "a1" = true.
Proof.
  apply (parent_ids_clean (Some "('a1', 'b2')  # merge") "a1").
  vm_compute. auto.
Defined.

Lemma single_spaced_single_line s : single_spaced s = true -> single_line s = true.
Proof.
  unfold single_line. induction s as [|c s IH]; [reflexivity|].
  cbn [single_spaced str_all]. intros H. apply andb_true_iff in H. destruct H as [Hc Hs].
  rewrite (IH Hs), andb_true_r. unfold is_dot.
  destruct (is_line_terminator c) eqn:L; [|reflexivity].
  rewrite (line_terminator_space _ L) in Hc. apply andb_true_iff in Hc.
  destruct Hc as [Hc _]. apply Ascii.eqb_eq in Hc. subst c. discriminate L.
Qed.

(** X20: the normal form.  Whatever the text, what [normalizeRhs] returns
    has no white space at either end, no white space inside other than
    single spaces, and no line terminator; normalizing a text that already
    has this form and no space before a [#] returns it unchanged. *)
Theorem normalizeRhs_normal_form (s : string) :
  trim (normalizeRhs s) = normalizeRhs s
  /\ single_spaced (normalizeRhs s) = true
  /\ single_line (normalizeRhs s) = true
  /\ (trim s = s -> single_spaced s = true -> has_space_hash s = false ->
      normalizeRhs s = s).
Proof.
  split; [apply normalizeRhs_trimmed|].
  split; [apply normalizeRhs_single_spaced|].
  split; [apply single_spaced_single_line, normalizeRhs_single_spaced|].
  intros Ht Hs Hh. now apply normalizeRhs_fixed.
Qed.

Lemma normalizeRhs_normal_form_witness :
  normalizeRhs "('a1', 'b2')" = "('a1', 'b2')".
Proof.
  apply (proj2 (proj2 (proj2 (normalizeRhs_normal_form "('a1', 'b2')"))));
    reflexivity.
Defined.

Lemma no_space_fixed t :
  str_all (fun c => negb (is_space c)) t = true ->
  has_space_hash t = false /\ single_spaced t = true /\ trim t = t.
Proof.
  intros H.
  assert (H1 : has_space_hash t = false /\ single_spaced t = true /\ trimEnd t = t).
  { induction t as [|c t IH]; [auto|]. cbn [str_all] in H.
    apply andb_true_iff in H. destruct H as [Hc Ht]. apply negb_true_iff in Hc.
    destruct (IH Ht) as (I1 & I2 & I3).
    cbn [has_space_hash single_spaced]. rewrite Hc, I1, I2, trimEnd_cons, I3.
    repeat split. destruct t; [now rewrite Hc | reflexivity]. }
  destruct H1 as (H1 & H2 & H3). repeat split; try assumption.
  unfold trim. rewrite trimStart_fixed; [exact H3|].
  destruct t as [|c t]; [exact I|]. cbn [str_all] in H.
  apply andb_true_iff in H. destruct H as [Hc _]. now apply negb_true_iff in Hc.
Qed.

Lemma quote_not_space q : is_quote q = true -> is_space q = false.
Proof. by_cases_on_char q. Qed.

Lemma quote_not_N q :
  is_quote q = true -> ("N" =? canonicalize q)%char = false.
Proof. by_cases_on_char q. Qed.

Lemma quoted_normal q q' inner :
  is_quote q = true -> is_quote q' = true -> inner <> "" ->
  str_all (fun c => negb (is_space c) && not_quote c) inner = true ->
  let t := String q (inner ++ String q' "") in
  normalizeRhs t = t /\ unquote t = Some inner /\ is_none_text t = false
  /\ single_line t = true.
Proof.
  intros Hq Hq' Hne Hin t.
  assert (Hns : str_all (fun c => negb (is_space c)) inner = true
                /\ str_all not_quote inner = true).
  { clear Hne t. induction inner as [|c s IH]; [auto|]. cbn [str_all] in *.
    apply andb_true_iff in Hin. destruct Hin as [Hc Hs].
    apply andb_true_iff in Hc. destruct Hc as [-> ->]. now destruct (IH Hs) as [-> ->]. }
  destruct Hns as [Hns Hnq].
  assert (Ht : str_all (fun c => negb (is_space c)) t = true).
  { unfold t. cbn [str_all]. rewrite str_all_append, Hns. cbn [str_all].
    now rewrite !quote_not_space by assumption. }
  destruct (no_space_fixed t Ht) as (H1 & H2 & H3).
  split; [now apply normalizeRhs_fixed|]. split; [|split].
  - unfold t. cbn [unquote]. rewrite Hq.
    assert (Hnq' : not_quote q' = false) by (unfold not_quote; now rewrite Hq').
    destruct (take_while_stop not_quote inner q' "" Hnq Hnq') as [-> ->].
    destruct inner; [congruence | reflexivity].
  - unfold t, is_none_text, same_ignoring_case.
    change (upper "None") with "NONE". change (upper "null") with "NULL".
    cbn [upper String.eqb]. now rewrite (quote_not_N _ Hq).
  - now apply single_spaced_single_line.
Qed.

(** X21: a quoted identifier is read back.  A value written as a quote,
    a non-empty text without white space or quote, and a quote gives that
    text as the identifier and as the only parent, also when an inline
    comment follows on the line. *)
Theorem quoted_value_read_back (q q' w : ascii) (inner c : string) :
  is_quote q = true -> is_quote q' = true -> inner <> "" ->
  str_all (fun c => negb (is_space c) && not_quote c) inner = true ->
  single_line c = true -> is_space w = true -> is_dot w = true ->
  let t := String q (inner ++ String q' "") in
  parseRevision t = inner
  /\ asArrayDownRevision (Some t) = [inner]
  /\ parseRevision (t ++ String w (String "#" c)) = inner
  /\ asArrayDownRevision (Some (t ++ String w (String "#" c))) = [inner].
Proof.
  intros Hq Hq' Hne Hin Hc Hw Hd t.
  destruct (quoted_normal q q' inner Hq Hq' Hne Hin) as (Hn & Hu & Hnone & Hl).
  fold t in Hn, Hu, Hnone, Hl.
  assert (H1 : parseRevision t = inner)
    by (now rewrite parseRevision_plain, Hn, Hu).
  assert (H2 : asArrayDownRevision (Some t) = [inner]).
  { rewrite asArrayDownRevision_by_rules.
    unfold asArrayDownRevision_rules, parent_rules. unfold t at 1.
    fold t. cbv zeta. now rewrite Hn, Hnone, Hu. }
  destruct (trailing_comment_helper t c w Hl Hc Hw Hd) as (_ & E1 & E2).
  now rewrite E1, E2.
Qed.

Lemma quoted_value_read_back_witness :
  parseRevision "'a1b2c3'  # first" = "a1b2c3".
Proof.
  apply (proj1 (proj2 (proj2
           (quoted_value_read_back "'" "'" " " "a1b2c3" " first"
              eq_refl eq_refl ltac:(discriminate) eq_refl eq_refl eq_refl eq_refl)))).
Defined.

Section ScanFacts.

Variable stem : string -> string.


End ScanFacts.
